(** * AsymmeTree: Fitch graphs and evolution-rate heterogeneity

    A shallow embedding of
      - [asymmetree/hgt/Fitch.py]                 (Fitch graph of a gene tree),
      - [asymmetree/treeevolve/EvolutionRates.py] (rate assignment),
      - [asymmetree/tools/PhyloTreeTools.py]      (sorting, timing, colouring and
                                                    counting of tree nodes).

    Python floats are idealised as exact rationals ([Q]): sums and products
    are exact, where IEEE doubles round, underflow to 0.0 and overflow to
    inf.  What is proved about the value of a dist is proved of this exact
    arithmetic.  Random draws are read from oracle functions indexed by the
    number of the call on the global generator. *)

From Stdlib Require Import QArith Lqa.
From stdpp Require Import gmap strings list sorting.

#[local] Set Warnings "-register-all".

(** ** Tree attribute model *)

(** A node colour: one species label, or the pair (origin, destination)
    carried right after a transfer ([isinstance(v.color, (tuple, list))]). *)
Inductive Color :=
  | Single (s : Z)
  | Pair (a b : Z).

Global Instance Color_eq_dec : EqDecision Color.
Proof. solve_decision. Defined.

Definition Color_to_sum (c : Color) : Z + Z * Z :=
  match c with Single s => inl s | Pair a b => inr (a, b) end.

Definition Color_of_sum (s : Z + Z * Z) : Color :=
  match s with inl s => Single s | inr (a, b) => Pair a b end.

Global Instance Color_countable : Countable Color.
Proof.
  apply (inj_countable' Color_to_sum Color_of_sum).
  by intros [].
Defined.

(** The fields of a node that the algorithms read. [event] is a Python
    string or [None]. *)
Record Attrs := mkAttrs {
  ID : Z;
  label : Z;
  color : Color;
  event : option string;
  dist : Q;
  tstamp : Q;
  transferred : bool
}.

(** Modelled from the spec: the tree container (parent and child links,
    preorder(), edges(), supply_leaves()) is not under src/; the spec lists
    it as a given collaborator.  A node object is identified with its
    position: the child indices from the node up to the root, so that
    [parent] is the tail and two distinct objects have distinct references. *)
Inductive TreeNode :=
  | Node (a : Attrs) (cs : list TreeNode).

Definition attrs (t : TreeNode) : Attrs := match t with Node a _ => a end.
Definition children_of (t : TreeNode) : list TreeNode :=
  match t with Node _ cs => cs end.

Definition ref := list nat.

Definition parent (r : ref) : option ref :=
  match r with [] => None | _ :: p => Some p end.

(** Descend from [t] along child indices listed root first. *)
Fixpoint subtree (t : TreeNode) (path : list nat) : option TreeNode :=
  match path with
  | [] => Some t
  | i :: q =>
      match children_of t !! i with
      | Some c => subtree c q
      | None => None
      end
  end.

Definition node_at (T : TreeNode) (r : ref) : option TreeNode :=
  subtree T (rev r).

Definition children (T : TreeNode) (r : ref) : list ref :=
  match node_at T r with
  | Some n => imap (fun i _ => i :: r) (children_of n)
  | None => []
  end.

Definition is_leaf (T : TreeNode) (r : ref) : bool :=
  match node_at T r with
  | Some (Node _ []) => true
  | _ => false
  end.

(** [tree.preorder()], the nodes below (and including) the node [t] that
    sits at reference [r]. *)
Fixpoint preorder_from (t : TreeNode) (r : ref) : list ref :=
  match t with
  | Node _ cs =>
      r :: (fix go (cs : list TreeNode) (i : nat) : list ref :=
              match cs with
              | [] => []
              | c :: cs' => preorder_from c (i :: r) ++ go cs' (S i)
              end) cs 0%nat
  end.

Fixpoint preorder_children (cs : list TreeNode) (r : ref) (i : nat) : list ref :=
  match cs with
  | [] => []
  | c :: cs' => preorder_from c (i :: r) ++ preorder_children cs' r (S i)
  end.

Definition preorder (T : TreeNode) : list ref := preorder_from T [].

(** [tree.edges()]: the pairs (parent, child), children in preorder. *)
Definition edges (T : TreeNode) : list (ref * ref) :=
  omap (fun v => match parent v with Some u => Some (u, v) | None => None end)
       (preorder T).

(** [tree.supply_leaves()]: the leaves below the root, left to right. *)
Definition supply_leaves (T : TreeNode) : list ref :=
  filter (fun r => is_leaf T r = true) (preorder T).

Definition attr_at {A} (f : Attrs -> A) (d : A) (T : TreeNode) (r : ref) : A :=
  match node_at T r with Some n => f (attrs n) | None => d end.

(** ** LCA oracle *)

(** Modelled from the spec: the class LCA (asymmetree.tools.TreeTools) is not
    under src/.  The spec gives the queries lca(x,y), are_comparable(a,b) and
    ancestor_not_equal(a,b); the last is read as its name says: [a] is an
    ancestor of [b] and not equal to it. *)
Record LCA := mkLCA { lca_tree : TreeNode }.

Definition ancestor_or_equal (a b : ref) : bool :=
  bool_decide (a `suffix_of` b).

Fixpoint lca_walk (a b : ref) : ref :=
  if ancestor_or_equal a b then a
  else match a with
       | [] => []
       | _ :: p => lca_walk p b
       end.

Definition lca_get (o : LCA) (a b : ref) : ref := lca_walk a b.

Definition ancestor_not_equal (o : LCA) (a b : ref) : bool :=
  bool_decide (a ≠ b) && ancestor_or_equal a b.

Definition are_comparable (o : LCA) (a b : ref) : bool :=
  ancestor_or_equal a b || ancestor_or_equal b a.

(** ** networkx graphs *)

(** A graph node is any hashable Python value.  [fitch] uses two kinds: the
    value [x.ID] and the node object [x] itself; an object never compares
    equal to an integer. *)
Inductive NodeKey :=
  | KeyID (i : Z)
  | KeyObj (r : ref).

Global Instance NodeKey_eq_dec : EqDecision NodeKey.
Proof. solve_decision. Defined.

Definition NodeKey_to_sum (k : NodeKey) : Z + list nat :=
  match k with KeyID i => inl i | KeyObj r => inr r end.

Definition NodeKey_of_sum (s : Z + list nat) : NodeKey :=
  match s with inl i => KeyID i | inr r => KeyObj r end.

Global Instance NodeKey_countable : Countable NodeKey.
Proof.
  apply (inj_countable' NodeKey_to_sum NodeKey_of_sum).
  by intros [].
Defined.

(** Values stored in a node's attribute dictionary. *)
Inductive AttrVal :=
  | VLabel (l : Z)
  | VColor (c : Color).

(** [nx.DiGraph]: the node dictionary (node to attribute dictionary) and the
    set of directed edges. *)
Record DiGraph := mkDiGraph {
  dg_node : gmap NodeKey (gmap string AttrVal);
  dg_edge : gset (NodeKey * NodeKey)
}.

Definition DiGraph_empty : DiGraph := mkDiGraph ∅ ∅.

(** [G.add_node(n, **attr)]: a new node gets [attr]; an existing node has
    its dictionary updated with [attr]. *)
Definition add_node (n : NodeKey) (attr : gmap string AttrVal) (G : DiGraph) : DiGraph :=
  mkDiGraph (<[n := attr ∪ default ∅ (dg_node G !! n)]> (dg_node G)) (dg_edge G).

(** [G.add_edge(u, v)]: endpoints that are not yet nodes are added with an
    empty attribute dictionary. *)
Definition touch_node (n : NodeKey) (m : gmap NodeKey (gmap string AttrVal)) :
    gmap NodeKey (gmap string AttrVal) :=
  match m !! n with Some _ => m | None => <[n := ∅]> m end.

Definition add_edge (u v : NodeKey) (G : DiGraph) : DiGraph :=
  mkDiGraph (touch_node v (touch_node u (dg_node G))) ({[ (u, v) ]} ∪ dg_edge G).

Definition has_edge (G : DiGraph) (u v : NodeKey) : bool :=
  bool_decide ((u, v) ∈ dg_edge G).

Definition has_node (G : DiGraph) (n : NodeKey) : bool :=
  bool_decide (is_Some (dg_node G !! n)).

(** [nx.Graph]: an undirected edge is stored in both orientations. *)
Record Graph := mkGraph {
  g_node : gmap NodeKey (gmap string AttrVal);
  g_edge : gset (NodeKey * NodeKey)
}.

Definition Graph_add_edge (u v : NodeKey) (G : Graph) : Graph :=
  mkGraph (touch_node v (touch_node u (g_node G)))
          ({[ (u, v); (v, u) ]} ∪ g_edge G).

Definition Graph_has_edge (G : Graph) (u v : NodeKey) : bool :=
  bool_decide ((u, v) ∈ g_edge G).

(** Modelled from the spec: symmetric_part (asymmetree.tools.GraphTools) is
    not under src/.  In the spec's words the undirected form keeps an edge
    iff at least one direction holds in the directed graph; the nodes are
    taken over with their data. *)
Definition symmetric_part (D : DiGraph) : Graph :=
  foldr (fun e G => Graph_add_edge e.1 e.2 G)
        (mkGraph (dg_node D) ∅)
        (elements (dg_edge D)).

(** ** Fitch.py *)

(** [true_transfer_edges(T)]: the lower ends [v] of the edges whose [v] is
    flagged transferred. *)
Definition true_transfer_edges (T : TreeNode) : gset ref :=
  list_to_set (filter (fun v => attr_at transferred false T v = true)
                      (map snd (edges T))).

(** The inner loop of [fitch]:
    [while current: if current.transferred: ...; break; current = current.parent]. *)
Fixpoint first_transfer_walk (T : TreeNode) (current : ref) : option ref :=
  if attr_at transferred false T current then Some current
  else match current with
       | [] => None
       | _ :: p => first_transfer_walk T p
       end.

Definition leaf_attr (T : TreeNode) (x : ref) : gmap string AttrVal :=
  <["label"%string := VLabel (attr_at label 0%Z T x)]>
    (<["color"%string := VColor (attr_at color (Single 0) T x)]> ∅).

(** One iteration of the first loop, on the pair (fitch, first_transfer). *)
Definition fitch_leaf_step (T : TreeNode)
    (st : DiGraph * gmap ref ref) (x : ref) : DiGraph * gmap ref ref :=
  let G := add_node (KeyID (attr_at ID 0%Z T x)) (leaf_attr T x) st.1 in
  match first_transfer_walk T x with
  | Some c => (G, <[x := c]> st.2)
  | None => (G, st.2)
  end.

(** [itertools.permutations(leaves, 2)]: the pairs of entries at two
    different positions, in lexicographic order of the positions. *)
Definition permutations2 {A} (l : list A) : list (A * A) :=
  mjoin (imap (fun i x =>
           mjoin (imap (fun j y => if bool_decide (i = j) then [] else [(x, y)]) l)) l).

Definition fitch_pair_step (o : LCA) (first_transfer : gmap ref ref)
    (G : DiGraph) (xy : ref * ref) : DiGraph :=
  match first_transfer !! xy.2 with
  | Some f =>
      if ancestor_not_equal o (lca_get o xy.1 xy.2) f
      then add_edge (KeyObj xy.1) (KeyObj xy.2) G
      else G
  | None => G
  end.

Definition fitch_digraph (tree : TreeNode) (transfer_edges : gset ref)
    (lca_T : option LCA) : DiGraph :=
  let o := match lca_T with Some o => o | None => mkLCA tree end in
  let leaves := supply_leaves tree in
  let st := foldl (fitch_leaf_step tree) (DiGraph_empty, ∅) leaves in
  foldl (fitch_pair_step o st.2) st.1 (permutations2 leaves).

(** What [fitch] returns: the digraph alone, or the pair with the undirected
    graph when [supply_undirected] is set. *)
Inductive FitchResult :=
  | Directed (G : DiGraph)
  | WithUndirected (G : DiGraph) (U : Graph).

Definition fitch (tree : TreeNode) (transfer_edges : gset ref)
    (supply_undirected : bool) (lca_T : option LCA) : FitchResult :=
  let G := fitch_digraph tree transfer_edges lca_T in
  if negb supply_undirected then Directed G
  else WithUndirected G (symmetric_part G).

Definition directed_of (r : FitchResult) : DiGraph :=
  match r with Directed G => G | WithUndirected G _ => G end.

(** [fitch(...)[1]] with [supply_undirected=True]. *)
Definition undirected_fitch (tree : TreeNode) (transfer_edges : gset ref)
    (lca_T : option LCA) : option Graph :=
  match fitch tree transfer_edges true lca_T with
  | WithUndirected _ U => Some U
  | Directed _ => None
  end.

(** Example trees. *)
Definition mk (i : Z) (tr : bool) : Attrs :=
  mkAttrs i i (Single i) None 1 0 tr.

(** A root with two leaves; the first leaf hangs on a transfer edge. *)
Definition T_two : TreeNode :=
  Node (mk 0 false) [Node (mk 1 true) []; Node (mk 2 false) []].

(** ** Predicates used in the statements about [fitch] *)

(** [a] lies strictly above [b] in the tree. *)
Definition strict_ancestor (a b : ref) : Prop := a ≠ b ∧ a `suffix_of` b.

(** The edge rule with the comparison turned around: the LCA of [x] and [y]
    lies strictly below [first_transfer[y]]. *)
Definition lca_strictly_below_first_transfer (T : TreeNode) (x y : ref) : Prop :=
  ∃ f, first_transfer_walk T y = Some f ∧
       strict_ancestor f (lca_get (mkLCA T) x y).

(** The tree with every attribute but the transferred flag reset: what is
    left is the topology and the flags. *)
Fixpoint topology_and_flags (t : TreeNode) : TreeNode :=
  match t with
  | Node a cs =>
      Node (mkAttrs 0 0 (Single 0) None 0 0 (transferred a))
           (map topology_and_flags cs)
  end.

(** The tree with every attribute reset but the transferred flag and the
    ID, label and color: what [fitch] reads of a tree. *)
Fixpoint identity_and_flags (t : TreeNode) : TreeNode :=
  match t with
  | Node a cs =>
      Node (mkAttrs (ID a) (label a) (color a) None 0 0 (transferred a))
           (map identity_and_flags cs)
  end.

(** The argument [lca_T] as the docstring of [fitch] asks for it: left out,
    or the LCA instance of the tree. *)
Definition lca_for (T : TreeNode) (lca_T : option LCA) : Prop :=
  lca_T = None ∨ lca_T = Some (mkLCA T).

(** [T_two] with another label and color on its first leaf, and [T_two]
    with other dist and tstamp fields and an event at the root. *)
Definition T_two_relabelled : TreeNode :=
  Node (mk 0 false) [Node (mkAttrs 1 5 (Single 7) None 1 0 true) []; Node (mk 2 false) []].

Definition T_two_redated : TreeNode :=
  Node (mkAttrs 0 0 (Single 0) (Some "S"%string) 2 3 false)
       [Node (mk 1 true) []; Node (mk 2 false) []].

(** ** Exceptions *)

(** The exceptions the modelled code raises; ValueError and TypeError carry
    their message. *)
Inductive Exn :=
  | KeyError
  | IndexError
  | ValueError (msg : string)
  | TypeError (msg : string).

Inductive Result (A : Type) :=
  | Ok (a : A)
  | Raise (e : Exn).
Arguments Ok {A} a.
Arguments Raise {A} e.

Global Instance Result_ret : MRet Result := λ A a, Ok a.
Global Instance Result_bind : MBind Result := λ A B f r,
  match r with Ok a => f a | Raise e => Raise e end.

(** [d[k]] on a dictionary. *)
Definition getitem `{Countable K} {V} (d : gmap K V) (k : K) : Result V :=
  match d !! k with Some v => Ok v | None => Raise KeyError end.

(** [l.remove(x)]: drops the first occurrence, ValueError when there is none. *)
Fixpoint list_remove `{EqDecision A} (x : A) (l : list A) : Result (list A) :=
  match l with
  | [] => Raise (ValueError "list.remove(x): x not in list")
  | y :: l' => if decide (x = y) then Ok l' else l'' ← list_remove x l'; Ok (y :: l'')
  end.

(** ** numpy, the samplers and the gene-tree simulator *)

(** A sampler configuration: a constant or a named distribution. *)
Inductive Dist :=
  | Constant (c : Q)
  | Named (name : string) (params : list Q).

(** Keyword arguments handed on by [simulate_gene_trees]. *)
Record Kwargs := mkKwargs {
  kw_autocorr_variance : option Q;
  kw_rate_increase : option Dist;
  kw_CSN_weights : option (list Q);
  kw_simulate : list Q
}.

(** Modelled from the spec: Sampler (asymmetree.tools.Sampling) and
    GeneTreeSimulator (asymmetree.treeevolve.GeneTree) are not under src/;
    the spec treats them as black boxes (draw() -> float, simulate -> gene
    tree).  Every random call reads an oracle at the number of random calls
    made before it; numpy's exp, log and sqrt are oracles on [Q] as well, and
    so are Tree.random_tree, np.random.permutation and random.choice (the
    index it picks in a sequence of the given length). *)
Class Numpy := {
  np_exp : Q → Q;
  np_log : Q → Q;
  np_sqrt : Q → Q;
  np_random_normal : nat → Q → Q → Q;
  np_random_choice : nat → list Q → nat;
  np_random_uniform : nat → Q;
  np_random_permutation : nat → nat → list nat;
  random_choice : nat → nat → nat;
  Sampler_draw : Dist → Q → nat → Q;
  simulator_simulate : TreeNode → Q → Q → Q → list Q → nat → TreeNode * nat;
  Tree_random_tree : Z → bool → nat → Result TreeNode * nat
}.

Record Sampler := mkSampler { s_params : Dist; s_shift : Q }.

Definition draw `{Numpy} (s : Sampler) (k : nat) : Q :=
  Sampler_draw (s_params s) (s_shift s) k.

(** ** PhyloTreeTools.sorted_nodes *)

(** Python's [sorted] is stable, also with [reverse=True]: an entry goes in
    front of the first entry that need not precede it. *)
Definition Qlt_bool (a b : Q) : bool := Qle_bool a b && negb (Qeq_bool a b).

Fixpoint sorted_insert (precedes : Q → Q → bool) (T : TreeNode) (x : ref)
    (l : list ref) : list ref :=
  match l with
  | [] => [x]
  | y :: l' =>
      if precedes (attr_at tstamp 0%Q T y) (attr_at tstamp 0%Q T x)
      then y :: sorted_insert precedes T x l'
      else x :: y :: l'
  end.

Definition sorted_nodes (tree : TreeNode) (oldest_to_youngest : bool) : list ref :=
  foldr (sorted_insert (if oldest_to_youngest then (λ a b, Qlt_bool b a) else Qlt_bool) tree)
        [] (preorder tree).

(** ** EvolutionRates: rate asymmetry *)

Inductive Mark := conserved | divergent.

Global Instance Mark_eq_dec : EqDecision Mark.
Proof. solve_decision. Defined.

(** The dictionaries of [_divergent_rates] and the number of random calls
    made so far. *)
Record RateState := mkRateState {
  rates : gmap (ref * ref) (list (Q * Q));
  gene_counter : gmap Color (list ref);
  marked : gmap ref Mark;
  calls : nat
}.

Definition set_rates (f : gmap (ref * ref) (list (Q * Q)) → gmap (ref * ref) (list (Q * Q)))
    (st : RateState) : RateState :=
  mkRateState (f (rates st)) (gene_counter st) (marked st) (calls st).
Definition set_gene_counter (f : gmap Color (list ref) → gmap Color (list ref))
    (st : RateState) : RateState :=
  mkRateState (rates st) (f (gene_counter st)) (marked st) (calls st).
Definition set_marked (f : gmap ref Mark → gmap ref Mark) (st : RateState) : RateState :=
  mkRateState (rates st) (gene_counter st) (f (marked st)) (calls st).
Definition bump_calls (st : RateState) : RateState :=
  mkRateState (rates st) (gene_counter st) (marked st) (S (calls st)).

(** [rates[e].append(x)] *)
Definition rates_append (e : ref * ref) (x : Q * Q) (st : RateState) : Result RateState :=
  l ← getitem (rates st) e;
  Ok (set_rates <[e := l ++ [x]]> st).

(** [gene_counter[c].append(v)] *)
Definition counter_append (c : Color) (v : ref) (st : RateState) : Result RateState :=
  l ← getitem (gene_counter st) c;
  Ok (set_gene_counter <[c := l ++ [v]]> st).

(** [gene_counter[c].remove(u)] *)
Definition counter_remove (c : Color) (u : ref) (st : RateState) : Result RateState :=
  l ← getitem (gene_counter st) c;
  l' ← list_remove u l;
  Ok (set_gene_counter <[c := l']> st).

(** [new_rate = sampler.draw() if marked[v] == 'divergent' else 1.0] *)
Definition new_rate `{Numpy} (sampler : Sampler) (v : ref) (st : RateState) :
    Result (Q * RateState) :=
  m ← getitem (marked st) v;
  match m with
  | divergent => Ok (draw sampler (calls st), bump_calls st)
  | conserved => Ok (1%Q, st)
  end.

(** [_adjust_distances]: [np.dot(-np.diff(time_points), rate_values)]. *)
Definition np_diff (a : list Q) : list Q :=
  zip_with (λ x y, (y - x)%Q) a (tail a).

Definition np_dot (a b : list Q) : Q :=
  foldl Qplus 0%Q (zip_with Qmult a b).

Definition collapse (rate_list : list (Q * Q)) (child_tstamp : Q) : Q :=
  let time_points := (fst <$> rate_list) ++ [child_tstamp] in
  let rate_values := snd <$> rate_list in
  np_dot (Qopp <$> np_diff time_points) rate_values.

(** The [dist] fields of the nodes of a tree, the only fields written. *)
Definition init_dist (T : TreeNode) : gmap ref Q :=
  list_to_map ((λ v, (v, attr_at dist 0%Q T v)) <$> preorder T).

(** The dictionary [rates] is filled from [T.edges()] and keeps that order
    of keys, so [rates.items()] runs along [T.edges()]. *)
Definition _adjust_distances (T : TreeNode) (rates : gmap (ref * ref) (list (Q * Q)))
    (d : gmap ref Q) : gmap ref Q :=
  foldl (λ d e,
           match rates !! e with
           | Some rate_list => <[e.2 := collapse rate_list (attr_at tstamp 0%Q T e.2)]> d
           | None => d
           end) d (edges T).

Definition _duplication_type `{Numpy} (marked_as : Mark) (CSN_weights : list Q) (k : nat) :
    (Mark * Mark) * nat :=
  match marked_as with
  | divergent => ((divergent, divergent), k)
  | conserved =>
      let r := np_random_choice k CSN_weights in
      match r with
      | 0%nat => ((conserved, conserved), S k)
      | 1%nat => ((divergent, divergent), S k)
      | _ =>
          if Qlt_le_dec (np_random_uniform (S k)) (1 # 2)
          then ((divergent, conserved), S (S k))
          else ((conserved, divergent), S (S k))
      end
  end.

(** [v.color if not isinstance(v.color, (tuple, list)) else v.color[1]] *)
Definition color_edge_ID (c : Color) : Z :=
  match c with Single s => s | Pair _ b => b end.

(** The key [(S_u, S_v)]; a tuple in the place of [S_u] is never a key of
    [gene_counter]. *)
Definition speciation_key (cu cv : Color) : Result Color :=
  match cu with
  | Single s => Ok (Pair s (color_edge_ID cv))
  | Pair _ _ => Raise KeyError
  end.

Section divergent_rates.
Context `{Numpy}.
Variables (T S_tree : TreeNode) (sampler : Sampler) (CSN_weights : list Q).

Let col (v : ref) : Color := attr_at color (Single 0) T v.
Let ts (v : ref) : Q := attr_at tstamp 0%Q T v.

(** [{v.label: v.parent.label for v in S.preorder() if v.parent}]: the
    comprehension writes its entries in preorder, so of two nodes with the
    same label the later one decides the value. *)
Definition S_parents : gmap Z Z :=
  foldl (λ m e, <[attr_at label 0%Z S_tree e.2 := attr_at label 0%Z S_tree e.1]> m)
        ∅ (edges S_tree).

(** The key under which the transferred copy is counted: its colour when
    that is a tuple, else [(S_parents[v2.color], v2.color)]. *)
Definition transfer_key (c : Color) : Result Color :=
  match c with
  | Pair a b => Ok (Pair a b)
  | Single s => ps ← getitem S_parents s; Ok (Pair ps s)
  end.

Definition speciation_child (u : ref) (st : RateState) (v : ref) : Result RateState :=
  m ← getitem (marked st) u;
  let st := set_marked <[v := m]> st in
  key ← speciation_key (col u) (col v);
  st ← counter_append key v st;
  '(r, st) ← new_rate sampler v st;
  rates_append (u, v) (ts u, r) st.

Definition duplication_child (u : ref) (st : RateState) (v : ref) : Result RateState :=
  st ← counter_append (col u) v st;
  '(r, st) ← new_rate sampler v st;
  rates_append (u, v) (ts u, r) st.

Fixpoint for_children (body : RateState → ref → Result RateState)
    (st : RateState) (vs : list ref) : Result RateState :=
  match vs with
  | [] => Ok st
  | v :: vs' => st' ← body st v; for_children body st' vs'
  end.

Definition speciation (u : ref) (st : RateState) : Result RateState :=
  for_children (speciation_child u) st (children T u).

Definition duplication (u : ref) (st : RateState) : Result RateState :=
  m ← getitem (marked st) u;
  let '((m0, m1), k) := _duplication_type m CSN_weights (calls st) in
  let st := mkRateState (rates st) (gene_counter st) (marked st) k in
  match children T u with
  | c0 :: c1 :: _ =>
      let st := set_marked (λ mk, <[c1 := m1]> (<[c0 := m0]> mk)) st in
      st ← counter_remove (col u) u st;
      for_children (duplication_child u) st (children T u)
  | _ => Raise IndexError
  end.

Definition loss (u : ref) (st : RateState) : Result RateState :=
  st ← counter_remove (col u) u st;
  l ← getitem (gene_counter st) (col u);
  match l with
  | [v] =>
      m ← getitem (marked st) v;
      match m with
      | divergent =>
          let st := set_marked <[v := conserved]> st in
          match parent v with
          | Some p => rates_append (p, v) (ts u, 1%Q) st
          | None => Raise KeyError
          end
      | conserved => Ok st
      end
  | _ => Ok st
  end.

Definition hgt (u : ref) (st : RateState) : Result RateState :=
  match children T u with
  | [c1; c2] =>
      let '(v1, v2) :=
        if attr_at transferred false T c1 then (c2, c1) else (c1, c2) in
      (* untransferred copy *)
      m ← getitem (marked st) u;
      let st := set_marked <[v1 := m]> st in
      st ← counter_remove (col u) u st;
      st ← counter_append (col u) v1 st;
      st ← match parent u with
           | Some p =>
               _ ← getitem (rates st) (u, v1);
               l ← getitem (rates st) (p, u);
               match last l with
               | Some tr => rates_append (u, v1) (ts u, tr.2) st
               | None => Raise IndexError
               end
           | None =>
               '(r, st) ← new_rate sampler v1 st;
               rates_append (u, v1) (ts u, r) st
           end;
      (* transferred copy *)
      let st := set_marked <[v2 := divergent]> st in
      key ← transfer_key (col v2);
      st ← counter_append key v2 st;
      '(r, st) ← new_rate sampler v2 st;
      rates_append (u, v2) (ts u, r) st
  | _ => Raise (ValueError "wrong number of values to unpack")
  end.

(** The body of the loop over [T_nodes]. *)
Definition process_node (st : RateState) (u : ref) : Result RateState :=
  let ev := attr_at event None T u in
  if bool_decide (ev = Some "S"%string ∨ ev = Some ""%string ∨ ev = None) then speciation u st
  else if bool_decide (ev = Some "D"%string) then duplication u st
  else if bool_decide (ev = Some "L"%string) then loss u st
  else if bool_decide (ev = Some "H"%string) then hgt u st
  else Ok st.

Fixpoint process_nodes (st : RateState) (us : list ref) : Result RateState :=
  match us with
  | [] => Ok st
  | u :: us' => st' ← process_node st u; process_nodes st' us'
  end.

Definition initial_state (k : nat) : RateState :=
  mkRateState
    (list_to_map ((λ e, (e, [])) <$> edges T))
    (list_to_map ((λ e, (Pair (attr_at label 0%Z S_tree e.1) (attr_at label 0%Z S_tree e.2), []))
                    <$> edges S_tree))
    (list_to_map ((λ v, (v, conserved)) <$> sorted_nodes T true))
    k.

(** [_divergent_rates]: the new [dist] fields and the number of random
    calls made. *)
Definition _divergent_rates (d : gmap ref Q) (k : nat) : Result (gmap ref Q * nat) :=
  st ← process_nodes (initial_state k) (sorted_nodes T true);
  Ok (_adjust_distances T (rates st) d, calls st).
End divergent_rates.

(** ** EvolutionRates: autocorrelation *)

Section autocorrelation.
Context `{Numpy}.

(** The body of the loop of [autocorrelation_factors], on the triple
    (node_rates, edge_rates, random calls made). *)
Definition autocorrelation_step (tree : TreeNode) (variance : Q)
    (st : gmap Z Q * gmap Z Q * nat) (v : ref) : Result (gmap Z Q * gmap Z Q * nat) :=
  let '(node_rates, edge_rates, k) := st in
  let lv := attr_at label 0%Z tree v in
  match parent v with
  | None => Ok (<[lv := 1%Q]> node_rates, <[lv := 1%Q]> edge_rates, k)
  | Some u =>
      let lu := attr_at label 0%Z tree u in
      let var := (variance * attr_at dist 0%Q tree v)%Q in
      ru ← getitem node_rates lu;
      let mu := (np_log ru - var / 2)%Q in
      let node_rates := <[lv := np_exp (np_random_normal k mu (np_sqrt var))]> node_rates in
      ru' ← getitem node_rates lu;
      rv ← getitem node_rates lv;
      Ok (node_rates, <[lv := ((ru' + rv) / 2)%Q]> edge_rates, S k)
  end.

Fixpoint autocorrelation_loop (tree : TreeNode) (variance : Q)
    (st : gmap Z Q * gmap Z Q * nat) (vs : list ref) : Result (gmap Z Q * gmap Z Q * nat) :=
  match vs with
  | [] => Ok st
  | v :: vs' =>
      st' ← autocorrelation_step tree variance st v;
      autocorrelation_loop tree variance st' vs'
  end.

Definition autocorrelation_factors (tree : TreeNode) (variance : Q) (k : nat) :
    Result (gmap Z Q * gmap Z Q * nat) :=
  autocorrelation_loop tree variance (∅, ∅, k) (preorder tree).

(** [v.dist *= edge_rates[edge_ID]] for every node with a parent. *)
Fixpoint _apply_autocorrelation_loop (T : TreeNode) (edge_rates : gmap Z Q)
    (d : gmap ref Q) (vs : list ref) : Result (gmap ref Q) :=
  match vs with
  | [] => Ok d
  | v :: vs' =>
      match parent v with
      | Some _ =>
          f ← getitem edge_rates (color_edge_ID (attr_at color (Single 0) T v));
          _apply_autocorrelation_loop T edge_rates (alter (λ x, (x * f)%Q) v d) vs'
      | None => _apply_autocorrelation_loop T edge_rates d vs'
      end
  end.

Definition _apply_autocorrelation (T : TreeNode) (edge_rates : gmap Z Q)
    (d : gmap ref Q) : Result (gmap ref Q) :=
  _apply_autocorrelation_loop T edge_rates d (preorder T).

(** The last loop of [assign_rates]: [v.dist *= base_rate]. *)
Definition apply_base_rate (T : TreeNode) (base_rate : Q) (d : gmap ref Q) : gmap ref Q :=
  foldl (λ d v, alter (λ x, (x * base_rate)%Q) v d) d (preorder T).

Definition sum_Q (l : list Q) : Q := foldl Qplus 0%Q l.

(** [assign_rates] on the [dist] fields [d] of [T]; with [inplace=False]
    the fields written are those of a copy.  An empty dictionary of
    factors is falsy, like [None]. *)
Definition assign_rates (T S_tree : TreeNode) (base_rate : Q)
    (autocorr_factors : option (gmap Z Q)) (autocorr_variance : Q)
    (rate_increase : Dist) (CSN_weights : list Q)
    (d : gmap ref Q) (k : nat) : Result (gmap ref Q * nat) :=
  let CSN_weights := (λ w, (w / sum_Q CSN_weights)%Q) <$> CSN_weights in
  let sampler := mkSampler rate_increase 1 in
  '(d, k) ← _divergent_rates T S_tree sampler CSN_weights d k;
  '(d, k) ←
    match autocorr_factors with
    | Some f =>
        if bool_decide (f ≠ ∅)
        then d ← _apply_autocorrelation T f d; Ok (d, k)
        else
          if Qlt_le_dec 0 autocorr_variance
          then '(_, edge_rates, k) ← autocorrelation_factors S_tree autocorr_variance k;
               d ← _apply_autocorrelation T edge_rates d; Ok (d, k)
          else Ok (d, k)
    | None =>
        if Qlt_le_dec 0 autocorr_variance
        then '(_, edge_rates, k) ← autocorrelation_factors S_tree autocorr_variance k;
             d ← _apply_autocorrelation T edge_rates d; Ok (d, k)
        else Ok (d, k)
    end;
  Ok (apply_base_rate T base_rate d, k).

Definition default_rate_increase : Dist := Named "gamma" [1 # 2; 22 # 10]%Q.
Definition default_CSN_weights : list Q := [1; 1; 1]%Q.

(** A simulated gene tree: the tree and its [dist] fields after
    [assign_rates]. *)
Definition GeneTree : Type := TreeNode * gmap ref Q.

(** One pass through the loop of [simulate_gene_trees]. *)
Definition simulate_iteration (S_tree : TreeNode)
    (dupl_rate_sampler loss_rate_sampler hgt_rate_sampler base_rate_sampler : Sampler)
    (autocorr_factors : gmap Z Q) (kwargs : Kwargs) (k : nat) : Result (GeneTree * nat) :=
  let dr := draw dupl_rate_sampler k in
  let lr := draw loss_rate_sampler (S k) in
  let hr := draw hgt_rate_sampler (S (S k)) in
  let '(TGT, k) := simulator_simulate S_tree dr lr hr (kw_simulate kwargs) (S (S (S k))) in
  let br := draw base_rate_sampler k in
  '(d, k) ← assign_rates TGT S_tree br (Some autocorr_factors) 0
              (default default_rate_increase (kw_rate_increase kwargs))
              (default default_CSN_weights (kw_CSN_weights kwargs))
              (init_dist TGT) (S k);
  Ok ((TGT, d), k).

Fixpoint simulate_loop (S_tree : TreeNode)
    (dupl_rate_sampler loss_rate_sampler hgt_rate_sampler base_rate_sampler : Sampler)
    (autocorr_factors : gmap Z Q) (kwargs : Kwargs)
    (N : nat) (gene_trees : list GeneTree) (k : nat) : Result (list GeneTree * nat) :=
  match N with
  | O => Ok (gene_trees, k)
  | S N' =>
      '(TGT, k) ← simulate_iteration S_tree dupl_rate_sampler loss_rate_sampler
                    hgt_rate_sampler base_rate_sampler autocorr_factors kwargs k;
      simulate_loop S_tree dupl_rate_sampler loss_rate_sampler hgt_rate_sampler
        base_rate_sampler autocorr_factors kwargs N' (gene_trees ++ [TGT]) k
  end.

(** [gene_trees[0] if N == 1 else gene_trees] *)
Inductive Simulated :=
  | OneTree (t : GeneTree)
  | TreeList (l : list GeneTree).

Definition simulate_gene_trees (S_tree : TreeNode) (N : nat)
    (dupl_rate loss_rate hgt_rate base_rate : Dist) (kwargs : Kwargs) (k : nat) :
    Result (Simulated * nat) :=
  let dupl_rate_sampler := mkSampler dupl_rate 0 in
  let loss_rate_sampler := mkSampler loss_rate 0 in
  let hgt_rate_sampler := mkSampler hgt_rate 0 in
  let base_rate_sampler := mkSampler dupl_rate 0 in
  let autocorr_variance := default 0%Q (kw_autocorr_variance kwargs) in
  '(_, autocorr_factors, k) ← autocorrelation_factors S_tree autocorr_variance k;
  '(gene_trees, k) ← simulate_loop S_tree dupl_rate_sampler loss_rate_sampler
                       hgt_rate_sampler base_rate_sampler autocorr_factors kwargs N [] k;
  match N, gene_trees with
  | 1%nat, t :: _ => Ok (OneTree t, k)
  | 1%nat, [] => Raise IndexError
  | _, _ => Ok (TreeList gene_trees, k)
  end.
End autocorrelation.

(** ** PhyloTreeTools.random_colored_tree *)

(** An iterable as the code uses it: [len(colors)] and [colors[i]], each
    with the exception it raises where the object does not support it;
    [random.choice(colors)] goes through the same two operations. *)
Record PyIterable := mkIterable {
  py_len : Result nat;
  py_getitem : nat → Result Z
}.

(** A list or a tuple. *)
Definition py_list (l : list Z) : PyIterable :=
  mkIterable (Ok (length l))
    (λ i, match l !! i with Some c => Ok c | None => Raise IndexError end).

(** A set or frozenset with the elements [l]: it has a length, it cannot be
    indexed. *)
Definition py_set (l : list Z) : PyIterable :=
  mkIterable (Ok (length l))
    (λ _, Raise (TypeError "'set' object is not subscriptable")).

(** A generator: it has no length and cannot be indexed. *)
Definition py_generator : PyIterable :=
  mkIterable (Raise (TypeError "object of type 'generator' has no len()"))
    (λ _, Raise (TypeError "'generator' object is not subscriptable")).

(** A dict with int keys: [len] counts the keys, [d[i]] looks [i] up among
    them. *)
Definition py_dict (d : gmap Z Z) : PyIterable :=
  mkIterable (Ok (size d)) (λ i, getitem d (Z.of_nat i)).

(** The argument [colors]: an int, a list of reconciliations, another
    iterable, or a value that is neither an int nor iterable. *)
Inductive PyColors :=
  | ColorsInt (c : Z)
  | ColorsList (l : list Z)
  | ColorsIterable (it : PyIterable)
  | ColorsOther.

(** [[i+1 for i in range(colors)]] *)
Definition range_plus_one (c : Z) : list Z :=
  (λ i, (Z.of_nat i + 1)%Z) <$> seq 0 (Z.to_nat c).

(** The two [isinstance] tests at the head of [random_colored_tree]. *)
Definition to_iterable (colors : PyColors) : Result PyIterable :=
  match colors with
  | ColorsInt c => Ok (py_list (range_plus_one c))
  | ColorsList l => Ok (py_list l)
  | ColorsIterable it => Ok it
  | ColorsOther => Raise (TypeError "'colors' must be of type 'int' or iterable")
  end.

Section random_colored_tree.
Context `{Numpy}.

(** The code of this section returns or raises, and in both cases it leaves
    a state behind: the [reconc] fields written to the leaves of the new
    tree and the number of random calls made. *)
Definition ColorState : Type := gmap ref Z * nat.

(** [random.choice(colors)] (random.py, Python 3.11): IndexError when
    [len(colors)] is 0, else [colors[i]] at a random index [i]. *)
Definition choose (colors : PyIterable) (k : nat) : Result Z * nat :=
  match py_len colors with
  | Raise e => (Raise e, k)
  | Ok O => (Raise IndexError, k)
  | Ok n => (py_getitem colors (random_choice k n), S k)
  end.

(** [leaves[permutation[i]].reconc = c]: the target is evaluated after the
    right-hand side. *)
Definition set_reconc_at (leaves : list ref) (permutation : list nat) (i : nat) (c : Z)
    (reconc : gmap ref Z) : Result (gmap ref Z) :=
  match permutation !! i with
  | None => Raise IndexError
  | Some p =>
      match leaves !! p with
      | None => Raise IndexError
      | Some leaf => Ok (<[leaf := c]> reconc)
      end
  end.

(** The loop [for i in range(len(leaves))] of the branch that forces all
    colors; [reconc] holds the [reconc] fields written so far. *)
Fixpoint color_forced (leaves : list ref) (permutation : list nat) (colors : PyIterable)
    (indices : list nat) (reconc : gmap ref Z) (k : nat) : Result unit * ColorState :=
  match indices with
  | [] => (Ok (), (reconc, k))
  | i :: indices' =>
      match py_len colors with
      | Raise e => (Raise e, (reconc, k))
      | Ok n =>
          let '(c, k) := if bool_decide (i < n)%nat then (py_getitem colors i, k)
                         else choose colors k in
          match c with
          | Raise e => (Raise e, (reconc, k))
          | Ok c =>
              match set_reconc_at leaves permutation i c reconc with
              | Raise e => (Raise e, (reconc, k))
              | Ok reconc => color_forced leaves permutation colors indices' reconc k
              end
          end
      end
  end.

(** The loop [for leaf in leaves: leaf.reconc = random.choice(colors)]. *)
Fixpoint color_randomly (leaves : list ref) (colors : PyIterable)
    (reconc : gmap ref Z) (k : nat) : Result unit * ColorState :=
  match leaves with
  | [] => (Ok (), (reconc, k))
  | leaf :: leaves' =>
      match choose colors k with
      | (Raise e, k) => (Raise e, (reconc, k))
      | (Ok c, k) => color_randomly leaves' colors (<[leaf := c]> reconc) k
      end
  end.

(** The result: the tree or the exception, with the [reconc] fields given
    to the leaves of the tree and the number of random calls made up to
    the return or the raise. *)
Definition random_colored_tree (n : Z) (colors : PyColors) (binary force_all_colors : bool)
    (k : nat) : Result TreeNode * ColorState :=
  match Tree_random_tree n binary k with
  | (Raise e, k) => (Raise e, (∅, k))
  | (Ok tree, k) =>
      match to_iterable colors with
      | Raise e => (Raise e, (∅, k))
      | Ok colors =>
          match py_len colors with
          | Raise e => (Raise e, (∅, k))
          | Ok m =>
              if bool_decide (Z.of_nat m > n)%Z && force_all_colors
              then (Raise (ValueError "cannot force all colors since #colors > n"), (∅, k))
              else
                let leaves := supply_leaves tree in
                let '(r, st) :=
                  if force_all_colors
                  then color_forced leaves (np_random_permutation k (length leaves)) colors
                         (seq 0 (length leaves)) ∅ (S k)
                  else color_randomly leaves colors ∅ k in
                match r with
                | Ok _ => (Ok tree, st)
                | Raise e => (Raise e, st)
                end
          end
      end
  end.
End random_colored_tree.

(** ** Predicates used in the statements about the rate engine *)

(** [u] is met before [v] in the list [l]. *)
Definition before (l : list ref) (u v : ref) : Prop :=
  ∃ pre post, l = pre ++ v :: post ∧ u ∈ pre.

(** What the two dictionaries of [autocorrelation_factors] hold for [v]. *)
Definition rates_of_node `{Numpy} (tree : TreeNode) (variance : Q)
    (node_rates edge_rates : gmap Z Q) (v : ref) : Prop :=
  match parent v with
  | None => node_rates !! attr_at label 0%Z tree v = Some 1%Q
  | Some u =>
      ∃ j ru rv,
        node_rates !! attr_at label 0%Z tree u = Some ru ∧
        node_rates !! attr_at label 0%Z tree v = Some rv ∧
        rv = np_exp (np_random_normal j
               (np_log ru - variance * attr_at dist 0%Q tree v / 2)%Q
               (np_sqrt (variance * attr_at dist 0%Q tree v)%Q)) ∧
        edge_rates !! attr_at label 0%Z tree v = Some ((ru + rv) / 2)%Q
  end.

(** The time at which the history [h] starts; [t_end] when it is empty. *)
Definition first_time (h : list (Q * Q)) (t_end : Q) : Q :=
  match h with [] => t_end | (t, _) :: _ => t end.

(** The sum over the segments of a history of duration times rate; the last
    segment ends at [t_end]. *)
Fixpoint segment_sum (h : list (Q * Q)) (t_end : Q) : Q :=
  match h with
  | [] => 0
  | (t, r) :: h' => ((t - first_time h' t_end) * r + segment_sum h' t_end)%Q
  end.

(** The dictionary of factors that [assign_rates] applies, called after
    [k] random calls: [autocorr_factors] when it is given and not empty;
    else, for a positive [autocorr_variance], the edge rates that
    [autocorrelation_factors] draws; else none. *)
Definition applied_factors `{Numpy} (S_tree : TreeNode)
    (autocorr_factors : option (gmap Z Q)) (autocorr_variance : Q) (k : nat) :
    Result (option (gmap Z Q)) :=
  if bool_decide (default ∅ autocorr_factors ≠ ∅) then Ok autocorr_factors
  else if Qlt_le_dec 0 autocorr_variance
       then '(_, edge_rates, _) ← autocorrelation_factors S_tree autocorr_variance k;
            Ok (Some edge_rates)
       else Ok None.

(** The factor of a node of colour [c]: the entry of its species edge in
    the dictionary applied, 1 when none is applied. *)
Definition edge_factor (factors : option (gmap Z Q)) (c : Color) : option Q :=
  match factors with
  | Some edge_rates => edge_rates !! color_edge_ID c
  | None => Some 1%Q
  end.

(** The times of a history do not increase and end at or above [t_end];
    its rates are positive. *)
Fixpoint descending (h : list (Q * Q)) (t_end : Q) : bool :=
  match h with
  | [] => true
  | (t, r) :: h' =>
      Qle_bool (first_time h' t_end) t && Qlt_bool 0 r && descending h' t_end
  end.

(** A history of the edge into a node: it starts at the parent's tstamp. *)
Definition history_ok (t_parent t_child : Q) (h : list (Q * Q)) : bool :=
  match h with
  | [] => false
  | (t, _) :: _ => Qeq_bool t t_parent && descending h t_child
  end.

(** ** Example inputs *)

(** Oracles for the examples: exp is constantly 1, every sampler draws its
    shift plus 1, and a duplication makes both copies divergent;
    Tree.random_tree gives a star tree with n leaves and raises for n <= 0. *)
Definition example_numpy : Numpy := {|
  np_exp := λ _, 1%Q;
  np_log := λ x, x;
  np_sqrt := λ x, x;
  np_random_normal := λ _ mu sigma, (mu + sigma)%Q;
  np_random_choice := λ _ _, 1%nat;
  np_random_uniform := λ _, 0%Q;
  np_random_permutation := λ _ n, seq 0 n;
  random_choice := λ _ _, 0%nat;
  Sampler_draw := λ _ shift _, (shift + 1)%Q;
  simulator_simulate := λ S_tree _ _ _ _ k, (S_tree, k);
  Tree_random_tree := λ n _ k,
    if bool_decide (0 < n)%Z
    then (Ok (Node (mkAttrs 0 0 (Single 0) None 1 1 false)
                ((λ i, Node (mkAttrs (Z.of_nat i) (Z.of_nat i) (Single 0) None 1 0 false) [])
                   <$> seq 1 (Z.to_nat n))), S k)
    else (Raise (TypeError "n must be an int > 0"), k)
|}.

Definition node (l : Z) (c : Color) (e : option string) (t : Q) (tr : bool)
    (cs : list TreeNode) : TreeNode :=
  Node (mkAttrs l l c e 1 t tr) cs.

(** Species trees: a root 0 above species 1, and a root 0 above the species
    1 and 2. *)
Definition S_one : TreeNode :=
  node 0 (Single 0) None 3 false [node 1 (Single 1) None 0 false []].

Definition S_two : TreeNode :=
  node 0 (Single 0) None 3 false
    [node 1 (Single 1) None 0 false []; node 2 (Single 2) None 0 false []].

(** A gene with one surviving copy. *)
Definition T_plain : TreeNode :=
  node 10 (Single 0) None 1 false [node 11 (Single 1) None 0 false []].

(** A duplication in the branch (0, 1) at time 2; one copy is lost at
    time 1, the other survives. *)
Definition T_loss : TreeNode :=
  node 10 (Single 0) None 3 false
    [node 11 (Pair 0 1) (Some "D"%string) 2 false
       [node 12 (Pair 0 1) (Some "L"%string) 1 false [];
        node 13 (Single 1) None 0 false []]].

(** A transfer at time 2 out of the branch (0, 1) into the species 2. *)
Definition T_hgt : TreeNode :=
  node 10 (Single 0) None 3 false
    [node 11 (Pair 0 1) (Some "H"%string) 2 false
       [node 12 (Single 1) None 0 false [];
        node 13 (Single 2) None 0 true []];
     node 14 (Single 2) None 0 false []].

(** The list of colours that an int or a list given as [colors] stands for. *)
Definition colors_list (colors : PyColors) : option (list Z) :=
  match colors with
  | ColorsInt c => Some (range_plus_one c)
  | ColorsList l => Some l
  | ColorsIterable _ | ColorsOther => None
  end.

(** The only exception a computation can end in is an IndexError. *)
Definition index_error_only {A} (r : Result A) : Prop :=
  ∀ e, r = Raise e → e = IndexError.

(** ** Well-formed dated gene trees *)

(** The events at which [process_node] gives the children of a node their
    first rate, and the events at which it takes the node off its branch. *)
Definition is_speciation (ev : option string) : bool :=
  bool_decide (ev = Some "S"%string ∨ ev = Some ""%string ∨ ev = None).

Definition adds_children (ev : option string) : bool :=
  is_speciation ev || bool_decide (ev = Some "D"%string) || bool_decide (ev = Some "H"%string).

Definition leaves_counter (ev : option string) : bool :=
  bool_decide (ev = Some "D"%string ∨ ev = Some "L"%string ∨ ev = Some "H"%string).

Definition result_to_option {A} (r : Result A) : option A :=
  match r with Ok a => Some a | Raise _ => None end.

(** The pair (untransferred copy, transferred copy) below a transfer node. *)
Definition hgt_children (T : TreeNode) (u : ref) : option (ref * ref) :=
  match children T u with
  | [c1; c2] => Some (if attr_at transferred false T c1 then (c2, c1) else (c1, c2))
  | _ => None
  end.

(** The species branch on which [_divergent_rates] counts the node [v]: the
    key of [gene_counter] under which the parent of [v] appends it. *)
Definition counter_key (T S_tree : TreeNode) (v : ref) : option Color :=
  match parent v with
  | None => None
  | Some u =>
      let ev := attr_at event None T u in
      if is_speciation ev then
        result_to_option (speciation_key (attr_at color (Single 0) T u)
                                         (attr_at color (Single 0) T v))
      else if bool_decide (ev = Some "D"%string) then Some (attr_at color (Single 0) T u)
      else if bool_decide (ev = Some "H"%string) then
        match hgt_children T u with
        | Some (v1, _) =>
            if decide (v = v1) then Some (attr_at color (Single 0) T u)
            else result_to_option (transfer_key S_tree (attr_at color (Single 0) T v))
        | None => None
        end
      else None
  end.

(** A dated gene tree is well formed when
    - no child is older than its parent, and every node with a child is a
      speciation, duplication or transfer node;
    - a copy that stays on its branch (it is not a duplication, loss or
      transfer node) is not older than any loss on that branch. *)
Definition well_formed_edge (T : TreeNode) (e : ref * ref) : bool :=
  Qle_bool (attr_at tstamp 0%Q T e.2) (attr_at tstamp 0%Q T e.1) &&
  adds_children (attr_at event None T e.1).

Definition well_formed_loss (T S_tree : TreeNode) (w v : ref) : bool :=
  negb (bool_decide (attr_at event None T w = Some "L"%string)) ||
  negb (bool_decide (counter_key T S_tree v = Some (attr_at color (Single 0) T w))) ||
  leaves_counter (attr_at event None T v) ||
  Qle_bool (attr_at tstamp 0%Q T v) (attr_at tstamp 0%Q T w).

Definition well_formed (T S_tree : TreeNode) : bool :=
  forallb (well_formed_edge T) (edges T) &&
  forallb (λ w, forallb (well_formed_loss T S_tree w) (preorder T)) (preorder T).

(** ** Invariants of the loop of [_divergent_rates] *)

(** The history [h] of the edge (p, v): its times do not increase, stay at
    or above the tstamp of [v] and at or above [bound]; its rates are
    positive; it starts at the tstamp of [p]; it is empty unless [p] is
    among the nodes in [active]. *)
Definition edge_history_inv (T : TreeNode) (active : list ref) (bound : Q)
    (p v : ref) (h : list (Q * Q)) : Prop :=
  descending h (attr_at tstamp 0%Q T v) = true ∧
  Forall (λ tr, (bound <= tr.1)%Q) h ∧
  first_time h (attr_at tstamp 0%Q T p) = attr_at tstamp 0%Q T p ∧
  (p ∉ active → h = []).

Definition rates_inv (T : TreeNode) (active : list ref) (bound : Q)
    (rs : gmap (ref * ref) (list (Q * Q))) : Prop :=
  ∀ p v, (p, v) ∈ edges T → ∃ h, rs !! (p, v) = Some h ∧ edge_history_inv T active bound p v h.

(** The children of the processed nodes that add children have a rate. *)
Definition rates_filled (T : TreeNode) (done : list ref)
    (rs : gmap (ref * ref) (list (Q * Q))) : Prop :=
  ∀ p v h, (p, v) ∈ edges T → p ∈ done →
    adds_children (attr_at event None T p) = true → rs !! (p, v) = Some h → h ≠ [].

(** Every list of [gene_counter] is free of repetitions; a node in the list
    of the key [c] is counted on the branch [c], its incoming edge has a
    rate, and if it was processed it is a node that stays on its branch. *)
Definition counter_inv (T S_tree : TreeNode) (done : list ref)
    (rs : gmap (ref * ref) (list (Q * Q))) (gc : gmap Color (list ref)) : Prop :=
  ∀ c l, gc !! c = Some l →
    NoDup l ∧
    ∀ v, v ∈ l →
      ∃ p h, (p, v) ∈ edges T ∧ rs !! (p, v) = Some h ∧ h ≠ [] ∧
             counter_key T S_tree v = Some c ∧
             (v ∈ done → leaves_counter (attr_at event None T v) = false).

(** The invariant between two passes of the loop, [done] being the nodes
    processed so far, and the invariant while the node [u] is processed. *)
Definition loop_inv (T S_tree : TreeNode) (done : list ref) (bound : Q)
    (st : RateState) : Prop :=
  rates_inv T done bound (rates st) ∧
  rates_filled T done (rates st) ∧
  counter_inv T S_tree done (rates st) (gene_counter st).

Definition node_inv (T S_tree : TreeNode) (done : list ref) (u : ref)
    (st : RateState) : Prop :=
  rates_inv T (done ++ [u]) (attr_at tstamp 0%Q T u) (rates st) ∧
  rates_filled T done (rates st) ∧
  counter_inv T S_tree (done ++ [u]) (rates st) (gene_counter st).

(** * Further properties of the code *)

(** ** Invariants of the two loops of [fitch] on the node dictionary *)

(** After the loop over the leaves in [done]: no node object is a node of
    the graph, and the integer keys are the IDs of the leaves met, each
    with the label and the color of a leaf with that ID. *)
Definition fitch_id_nodes (T : TreeNode) (done : list ref) (G : DiGraph) : Prop :=
  (∀ x, dg_node G !! KeyObj x = None) ∧
  ∀ i, (∃ x, x ∈ done ∧ attr_at ID 0%Z T x = i ∧
             dg_node G !! KeyID i = Some (leaf_attr T x)) ∨
       ((∀ x, x ∈ done → attr_at ID 0%Z T x ≠ i) ∧ dg_node G !! KeyID i = None).

(** During the loop over the pairs: an object is a node iff it is an
    endpoint of an edge, and its attribute dictionary is empty. *)
Definition fitch_obj_nodes (G : DiGraph) : Prop :=
  ∀ x, (dg_node G !! KeyObj x = Some ∅ ∧
        ∃ n, (KeyObj x, n) ∈ dg_edge G ∨ (n, KeyObj x) ∈ dg_edge G) ∨
       (dg_node G !! KeyObj x = None ∧
        ∀ n, ((KeyObj x, n) ∉ dg_edge G) ∧ ((n, KeyObj x) ∉ dg_edge G)).


(** ** Further example inputs *)

(** A gene tree that is a single loss node. *)
Definition T_lost : TreeNode := node 10 (Pair 0 1) (Some "L"%string) 1 false [].

(** ** The loop of [_divergent_rates] on a tree without duplications and
    transfers *)

(** While the node [u] is processed, [cd] being its children met so far and
    [done] the nodes processed before: no random call was made, every mark
    is conserved, and the history of an edge (p, v) is [(p.tstamp, 1.0)]
    when [p] is a processed speciation node or [p] is [u] and [v] is in
    [cd], and empty otherwise. *)
Definition clock_inv (T : TreeNode) (k : nat) (done : list ref) (u : ref) (cd : list ref)
    (st : RateState) : Prop :=
  calls st = k ∧
  (∀ v m, marked st !! v = Some m → m = conserved) ∧
  ∀ p v, (p, v) ∈ edges T →
    rates st !! (p, v) =
    Some (if (bool_decide (p ∈ done) && is_speciation (attr_at event None T p)) ||
             (bool_decide (p = u) && bool_decide (v ∈ cd))
          then [(attr_at tstamp 0%Q T p, 1%Q)] else []).

(** ** PhyloTreeTools.sorted_edges *)

(** Python's stable [sorted], as [sorted_nodes] has it, on any list:
    [precedes a b] says that the key of [a] must come strictly before the
    key of [b]; an entry goes in front of the first entry that need not
    precede it. *)
Fixpoint insert_sorted {A} (precedes : A → A → bool) (x : A) (l : list A) : list A :=
  match l with
  | [] => [x]
  | y :: l' =>
      if precedes y x then y :: insert_sorted precedes x l' else x :: y :: l'
  end.

Definition sorted_by {A} (precedes : A → A → bool) (l : list A) : list A :=
  foldr (insert_sorted precedes) [] l.

(** The order of Python on pairs of floats: the first entries decide unless
    they are equal. *)
Definition pair_lt (a b : Q * Q) : bool :=
  Qlt_bool a.1 b.1 || (Qeq_bool a.1 b.1 && Qlt_bool a.2 b.2).

(** The key [(e[0].tstamp, e[1].tstamp)] of an edge. *)
Definition edge_key (T : TreeNode) (e : ref * ref) : Q * Q :=
  (attr_at tstamp 0%Q T e.1, attr_at tstamp 0%Q T e.2).

(** [sorted(tree.edges(), key=..., reverse=True)] *)
Definition sorted_edges (tree : TreeNode) : list (ref * ref) :=
  sorted_by (λ e1 e2, pair_lt (edge_key tree e2) (edge_key tree e1)) (edges tree).

(** ** PhyloTreeTools: distances and time stamps *)

(** A float field of the nodes ([dist], [tstamp]) is a function from the
    nodes to its values; an assignment [v.dist = x] updates the function
    at [v].  The field as the tree comes is [attr_at dist 0 T] or
    [attr_at tstamp 0 T]. *)

Definition set_field (f : ref → Q) (v : ref) (x : Q) : ref → Q :=
  λ w, if decide (w = v) then x else f w.

(** [abs(x)] *)
Definition abs (x : Q) : Q := if Qlt_le_dec x 0 then (- x)%Q else x.

(** [distance_from_timing(tree)]: the [dist] field after the call, from the
    [tstamp] field and the [dist] field before it.  A tree always has a
    root here. *)
Definition distance_from_timing (tree : TreeNode) (tstamps dists : ref → Q) : ref → Q :=
  foldl (λ d e, set_field d e.2 (abs (tstamps e.1 - tstamps e.2)))
        (set_field dists [] 0%Q) (edges tree).

(** [distances_from_root(tree)]: the dictionary [distance_dict]. *)
Definition distances_from_root_step (dists : ref → Q) (distance_dict : gmap ref Q) (v : ref) :
    Result (gmap ref Q) :=
  match parent v with
  | None => Ok (<[v := 0%Q]> distance_dict)
  | Some p =>
      x ← getitem distance_dict p;
      let depth := (x + dists v)%Q in
      Ok (<[v := depth]> distance_dict)
  end.

Fixpoint distances_from_root_loop (dists : ref → Q) (distance_dict : gmap ref Q)
    (vs : list ref) : Result (gmap ref Q) :=
  match vs with
  | [] => Ok distance_dict
  | v :: vs' =>
      distance_dict ← distances_from_root_step dists distance_dict v;
      distances_from_root_loop dists distance_dict vs'
  end.

Definition distances_from_root (tree : TreeNode) (dists : ref → Q) : Result (gmap ref Q) :=
  distances_from_root_loop dists ∅ (preorder tree).

(** [reconstruct_timestamps(tree)]: the [tstamp] field after the call. *)
Definition reconstruct_timestamps (tree : TreeNode) (dists tstamps : ref → Q) : ref → Q :=
  foldl (λ ts v, match parent v with
                 | Some p => set_field ts v (ts p - dists v)%Q
                 | None => ts
                 end)
        (set_field tstamps [] 1%Q) (preorder tree).

(** ** PhyloTreeTools.random_ultrametric_timing *)

Section random_ultrametric_timing.
Context `{Numpy}.

(** [np.random.randint(n)] when [k] random calls were made before it. *)
Variable np_random_randint : nat → nat → nat.

(** The random walk to a leaf from the node [t]:
    [while pos.children: length += 1; pos = pos.children[randint(len(pos.children))]];
    the result is the path length and the number of random calls. *)
Fixpoint random_walk (t : TreeNode) (len : nat) (k : nat) : Result (nat * nat) :=
  match t with
  | Node _ [] => Ok (len, k)
  | Node _ cs =>
      (fix pick (cs' : list TreeNode) (i : nat) : Result (nat * nat) :=
         match cs', i with
         | c :: _, O => random_walk c (S len) (S k)
         | _ :: cs'', S i' => pick cs'' i'
         | [], _ => Raise IndexError
         end) cs (np_random_randint k (length cs))
  end.

(** The body of the loop over [tree.preorder()], on the [tstamp] field and
    the number of random calls. *)
Definition random_ultrametric_timing_step (tree : TreeNode)
    (st : (ref → Q) * nat) (v : ref) : Result ((ref → Q) * nat) :=
  let '(ts, k) := st in
  if is_leaf tree v then Ok (set_field ts v 0%Q, k)
  else
    match parent v with
    | None => Ok (set_field ts v 1%Q, k)
    | Some p =>
        '(len, k) ← match node_at tree v with
                    | Some pos => random_walk pos 0 k
                    | None => Ok (0%nat, k)
                    end;
        Ok (set_field ts v
              (ts p * (1 - 2 * np_random_uniform k / (inject_Z (Z.of_nat len) + 1)))%Q,
            S k)
    end.

Fixpoint random_ultrametric_timing_loop (tree : TreeNode)
    (st : (ref → Q) * nat) (vs : list ref) : Result ((ref → Q) * nat) :=
  match vs with
  | [] => Ok st
  | v :: vs' =>
      st' ← random_ultrametric_timing_step tree st v;
      random_ultrametric_timing_loop tree st' vs'
  end.

(** [random_ultrametric_timing]: the [tstamp] and the [dist] field of the
    tree returned (a copy unless [inplace]) and the number of random
    calls. *)
Definition random_ultrametric_timing (tree : TreeNode) (adjust_distances : bool)
    (tstamps dists : ref → Q) (k : nat) : Result ((ref → Q) * (ref → Q) * nat) :=
  '(ts, k) ← random_ultrametric_timing_loop tree (tstamps, k) (preorder tree);
  Ok (ts, if adjust_distances then distance_from_timing tree ts dists else dists, k).
End random_ultrametric_timing.

(** ** PhyloTreeTools.count_node_types *)

(** [counts[key] += 1] *)
Definition increment (key : string) (counts : gmap string nat) : Result (gmap string nat) :=
  x ← getitem counts key;
  Ok (<[key := S x]> counts).

Definition count_node_types_step (tree : TreeNode) (counts : gmap string nat) (v : ref) :
    Result (gmap string nat) :=
  let ev := attr_at event None tree v in
  if is_leaf tree v then
    if bool_decide (ev = Some "L"%string) then increment "L" counts
    else increment "extant" counts
  else if bool_decide (ev = Some "S"%string) then increment "S" counts
  else if bool_decide (ev = Some "D"%string) then increment "D" counts
  else if bool_decide (ev = Some "H"%string) then increment "H" counts
  else Ok counts.

Fixpoint count_node_types_loop (tree : TreeNode) (counts : gmap string nat) (vs : list ref) :
    Result (gmap string nat) :=
  match vs with
  | [] => Ok counts
  | v :: vs' =>
      counts ← count_node_types_step tree counts v;
      count_node_types_loop tree counts vs'
  end.

Definition count_node_types (tree : TreeNode) : Result (gmap string nat) :=
  count_node_types_loop tree
    (list_to_map [("S", 0); ("D", 0); ("L", 0); ("H", 0); ("extant", 0)]%string%nat)
    (preorder tree).

(** The key that [count_node_types] counts the node [v] under. *)
Definition node_type (tree : TreeNode) (v : ref) : option string :=
  let ev := attr_at event None tree v in
  if is_leaf tree v then
    if bool_decide (ev = Some "L"%string) then Some "L"%string else Some "extant"%string
  else if bool_decide (ev = Some "S"%string) then Some "S"%string
  else if bool_decide (ev = Some "D"%string) then Some "D"%string
  else if bool_decide (ev = Some "H"%string) then Some "H"%string
  else None.

(** ** PhyloTreeTools.phylo_tree_attributes *)

(** The values of [default_attributes]. *)
Inductive PyVal :=
  | PyNone
  | PyStr (s : string)
  | PyFloat (q : Q)
  | PyInt (z : Z).

(** The attributes of the nodes as dictionaries: [hasattr(v, key)] asks for
    the key, [setattr(v, key, value)] writes it. *)
Abbreviation AttrStore := (gmap ref (gmap string PyVal)).

Definition hasattr (st : AttrStore) (v : ref) (key : string) : bool :=
  bool_decide (is_Some (default ∅ (st !! v) !! key)).

Definition setattr (st : AttrStore) (v : ref) (key : string) (value : PyVal) : AttrStore :=
  <[v := <[key := value]> (default ∅ (st !! v))]> st.

(** The items of [default_attributes], in the order of the dictionary. *)
Definition default_attributes : list (string * PyVal) :=
  [("label", PyStr ""); ("event", PyNone); ("reconc", PyNone);
   ("dist", PyFloat 1); ("tstamp", PyNone); ("transferred", PyInt 0)]%string.

(** The loops of [phylo_tree_attributes]; the attribute is set at
    [tree.root], as the source has it. *)
Definition phylo_tree_attributes (tree : TreeNode) (st : AttrStore) : AttrStore :=
  foldl (λ st v,
           foldl (λ st kv, if hasattr st v kv.1 then st else setattr st [] kv.1 kv.2)
                 st default_attributes)
        st (preorder tree).

(** ** PhyloTreeTools.reconc_sorted_leaves *)

Section reconc_sorted_leaves.
(** The values of the attribute [reconc], hashable, and the attribute. *)
Context {R : Type} `{EqDecision R}.
Variable reconc : ref → R.

(** [if leaf.reconc not in reconc_dict: reconc_dict[leaf.reconc] = []]
    followed by [reconc_dict[leaf.reconc].append(leaf)]; the dictionary
    keeps its keys in the order of their insertion. *)
Fixpoint reconc_dict_add (reconc_dict : list (R * list ref)) (leaf : ref) :
    list (R * list ref) :=
  match reconc_dict with
  | [] => [(reconc leaf, [leaf])]
  | (key, leaf_list) :: rest =>
      if decide (key = reconc leaf) then (key, leaf_list ++ [leaf]) :: rest
      else (key, leaf_list) :: reconc_dict_add rest leaf
  end.

(** [reconc_sorted_leaves(tree, return_list=True)]: the dictionary and the
    list of the leaves. *)
Definition reconc_sorted_leaves (tree : TreeNode) :
    list (R * list ref) * list ref :=
  let reconc_dict := foldl reconc_dict_add [] (supply_leaves tree) in
  (reconc_dict, mjoin (reconc_dict.*2)).
End reconc_sorted_leaves.

(** * Facts *)

Lemma TreeNode_ind' (P : TreeNode → Prop) :
  (∀ a cs, Forall P cs → P (Node a cs)) → ∀ t, P t.
Proof.
  intros H. fix IH 1. intros [a cs]. apply H.
  induction cs as [|c cs IHcs]; constructor; [apply IH|exact IHcs].
Qed.

Lemma preorder_from_unfold t r :
  preorder_from t r = r :: preorder_children (children_of t) r 0.
Proof.
  destruct t as [a cs]. simpl. f_equal.
  generalize 0%nat. induction cs as [|c cs IH]; intros i; [done|].
  simpl. by rewrite IH.
Qed.


(** ** References and the LCA oracle *)

Lemma suffix_cons_r_inv (l k : ref) (i : nat) :
  l `suffix_of` i :: k → l = i :: k ∨ l `suffix_of` k.
Proof.
  intros [[|j pre] Heq]; simpl in Heq.
  - by left.
  - right. exists pre. congruence.
Qed.

Lemma ancestor_or_equal_spec a b : ancestor_or_equal a b = true ↔ a `suffix_of` b.
Proof. unfold ancestor_or_equal. by rewrite bool_decide_eq_true. Qed.

Lemma ancestor_not_equal_spec o a b :
  ancestor_not_equal o a b = true ↔ strict_ancestor a b.
Proof.
  unfold ancestor_not_equal, strict_ancestor.
  by rewrite andb_true_iff, bool_decide_eq_true, ancestor_or_equal_spec.
Qed.

Lemma lca_walk_suffix_l a b : lca_walk a b `suffix_of` a.
Proof.
  induction a as [|i a IH]; simpl.
  - by destruct (ancestor_or_equal [] b).
  - destruct (ancestor_or_equal (i :: a) b); [done|].
    by apply suffix_cons_r.
Qed.

Lemma lca_walk_suffix_r a b : lca_walk a b `suffix_of` b.
Proof.
  induction a as [|i a IH]; simpl.
  - destruct (ancestor_or_equal [] b); apply suffix_nil.
  - destruct (ancestor_or_equal (i :: a) b) eqn:E; [|done].
    by apply ancestor_or_equal_spec.
Qed.

(** The oracle's answer is the lowest common ancestor: every common ancestor
    of [a] and [b] lies on or above it. *)
Lemma lca_walk_lowest a b c :
  c `suffix_of` a → c `suffix_of` b → c `suffix_of` lca_walk a b.
Proof.
  induction a as [|i a IH]; simpl; intros Ha Hb.
  - by destruct (ancestor_or_equal [] b).
  - destruct (ancestor_or_equal (i :: a) b) eqn:E; [done|].
    apply IH; [|done].
    apply suffix_cons_r_inv in Ha as [->|Ha]; [|done].
    apply ancestor_or_equal_spec in Hb. congruence.
Qed.

(** ** The walk to the first transfer edge *)

Lemma first_transfer_walk_Some T y f :
  first_transfer_walk T y = Some f ↔
  f `suffix_of` y ∧ attr_at transferred false T f = true ∧
  ∀ g, g `suffix_of` y → strict_ancestor f g → attr_at transferred false T g = false.
Proof.
  induction y as [|i y IH]; simpl.
  - destruct (attr_at transferred false T []) eqn:E.
    + split.
      * intros [= <-]. split_and!; [done..|].
        intros g Hg [Hne _]. apply suffix_nil_inv in Hg. congruence.
      * intros (Hf & _ & _). apply suffix_nil_inv in Hf. by subst.
    + split; [done|]. intros (Hf & Ht & _). apply suffix_nil_inv in Hf. congruence.
  - destruct (attr_at transferred false T (i :: y)) eqn:E.
    + split.
      * intros [= <-]. split_and!; [done..|].
        intros g Hg [Hne Hfg]. destruct Hne. by apply (anti_symm suffix).
      * intros (Hf & Ht & Hmin).
        destruct (decide (f = i :: y)) as [->|Hne]; [done|].
        rewrite (Hmin (i :: y)) in E; [done..|]. by split.
    + rewrite IH. split.
      * intros (Hf & Ht & Hmin). split_and!; [by apply suffix_cons_r|done|].
        intros g Hg Hs. apply suffix_cons_r_inv in Hg as [->|Hg]; [done|]. by apply Hmin.
      * intros (Hf & Ht & Hmin).
        apply suffix_cons_r_inv in Hf as [->|Hf]; [congruence|].
        split_and!; [done..|]. intros g Hg. apply Hmin. by apply suffix_cons_r.
Qed.

(** ** The two loops of [fitch] *)

Lemma permutations2_elem {A} (l : list A) (x y : A) :
  (x, y) ∈ permutations2 l ↔ ∃ i j, i ≠ j ∧ l !! i = Some x ∧ l !! j = Some y.
Proof.
  unfold permutations2. rewrite list_elem_of_join. split.
  - intros (k & Hk & Hin).
    apply elem_of_lookup_imap in Hin as (i & a & -> & Hi).
    apply list_elem_of_join in Hk as (k' & Hk' & Hin').
    apply elem_of_lookup_imap in Hin' as (j & b & -> & Hj).
    case_bool_decide; [by apply elem_of_nil in Hk'|].
    apply list_elem_of_singleton in Hk'. simplify_eq. eauto.
  - intros (i & j & Hne & Hi & Hj).
    exists (mjoin (imap (λ j y0, if bool_decide (i = j) then [] else [(x, y0)]) l)).
    split.
    + apply list_elem_of_join. exists [(x, y)].
      split; [by apply list_elem_of_singleton|].
      pose proof (elem_of_lookup_imap_2
        (λ j y0, if bool_decide (i = j) then [] else [(x, y0)]) l y j Hj) as H.
      simpl in H. by rewrite bool_decide_eq_false_2 in H.
    + apply (elem_of_lookup_imap_2
        (λ i x, mjoin (imap (λ j y0, if bool_decide (i = j) then [] else [(x, y0)]) l))
        l x i Hi).
Qed.

Lemma permutations2_distinct (l : list ref) (x y : ref) :
  x ∈ l → y ∈ l → x ≠ y → (x, y) ∈ permutations2 l.
Proof.
  intros [i Hi]%list_elem_of_lookup [j Hj]%list_elem_of_lookup Hne.
  apply permutations2_elem. exists i, j. split_and!; [|done..]. congruence.
Qed.

Lemma permutations2_members {A} (l : list A) (x y : A) :
  (x, y) ∈ permutations2 l → x ∈ l ∧ y ∈ l.
Proof.
  intros (i & j & _ & Hi & Hj)%permutations2_elem.
  split; apply list_elem_of_lookup; eauto.
Qed.

Lemma fitch_leaf_loop_edges T ls st :
  dg_edge (foldl (fitch_leaf_step T) st ls).1 = dg_edge st.1.
Proof.
  revert st. induction ls as [|x ls IH]; intros st; [done|]. simpl.
  rewrite IH. unfold fitch_leaf_step. by destruct (first_transfer_walk T x).
Qed.

Lemma fitch_leaf_loop_first_transfer T ls st y :
  (foldl (fitch_leaf_step T) st ls).2 !! y =
  if decide (y ∈ ls) then
    match first_transfer_walk T y with Some f => Some f | None => st.2 !! y end
  else st.2 !! y.
Proof.
  revert st. induction ls as [|x ls IH]; intros st; [done|]. simpl.
  rewrite IH. unfold fitch_leaf_step.
  destruct (decide (y = x)) as [->|Hne].
  - rewrite (decide_True (P := x ∈ x :: ls)) by left.
    destruct (first_transfer_walk T x) eqn:E; simpl.
    + rewrite lookup_insert_eq. by destruct (decide (x ∈ ls)).
    + by destruct (decide (x ∈ ls)).
  - assert (st.2 !! y =
      (match first_transfer_walk T x with
       | Some c => (add_node (KeyID (attr_at ID 0%Z T x)) (leaf_attr T x) st.1, <[x:=c]> st.2)
       | None => (add_node (KeyID (attr_at ID 0%Z T x)) (leaf_attr T x) st.1, st.2)
       end).2 !! y) as <-.
    { destruct (first_transfer_walk T x); simpl; [|done]. by rewrite lookup_insert_ne. }
    destruct (decide (y ∈ ls)) as [Hin|Hin].
    + rewrite decide_True; [done|by right].
    + rewrite decide_False; [done|]. intros [?|?]%elem_of_cons; done.
Qed.

Definition fitch_edge_test (o : LCA) (m : gmap ref ref) (x y : ref) : Prop :=
  ∃ f, m !! y = Some f ∧ ancestor_not_equal o (lca_get o x y) f = true.

Lemma fitch_pair_loop_edges o m ps G e :
  e ∈ dg_edge (foldl (fitch_pair_step o m) G ps) ↔
  e ∈ dg_edge G ∨
  ∃ x y, e = (KeyObj x, KeyObj y) ∧ (x, y) ∈ ps ∧ fitch_edge_test o m x y.
Proof.
  revert G. induction ps as [|[x y] ps IH]; intros G; simpl.
  - split; [by left|]. intros [?|(x & y & _ & Hin & _)]; [done|]. by apply elem_of_nil in Hin.
  - rewrite IH. unfold fitch_pair_step, fitch_edge_test. simpl.
    destruct (m !! y) as [f|] eqn:Hf;
      [destruct (ancestor_not_equal o (lca_get o x y) f) eqn:Ht|]; simpl.
    + rewrite elem_of_union, elem_of_singleton. split.
      * intros [[->|?]|(x' & y' & -> & Hin & Hp)]; [|by left|].
        -- right. exists x, y. split_and!; [done|left|eauto].
        -- right. exists x', y'. split_and!; [done|by right|done].
      * intros [?|(x' & y' & -> & Hin & Hp)]; [by left; right|].
        apply elem_of_cons in Hin as [[= -> ->]|Hin]; [by left; left|].
        right. exists x', y'. done.
    + split.
      * intros [?|(x' & y' & -> & Hin & Hp)]; [by left|].
        right. exists x', y'. split_and!; [done|by right|done].
      * intros [?|(x' & y' & -> & Hin & (f' & Hf' & Hp))]; [by left|].
        apply elem_of_cons in Hin as [[= -> ->]|Hin]; [congruence|].
        right. exists x', y'. split_and!; [done..|]. eauto.
    + split.
      * intros [?|(x' & y' & -> & Hin & Hp)]; [by left|].
        right. exists x', y'. split_and!; [done|by right|done].
      * intros [?|(x' & y' & -> & Hin & (f' & Hf' & Hp))]; [by left|].
        apply elem_of_cons in Hin as [[= -> ->]|Hin]; [congruence|].
        right. exists x', y'. split_and!; [done..|]. eauto.
Qed.

(** The edge set of the directed Fitch graph. *)
Lemma fitch_digraph_edge T te lca_T e :
  e ∈ dg_edge (fitch_digraph T te lca_T) ↔
  ∃ x y f, e = (KeyObj x, KeyObj y) ∧
    (x, y) ∈ permutations2 (supply_leaves T) ∧
    first_transfer_walk T y = Some f ∧
    strict_ancestor (lca_walk x y) f.
Proof.
  unfold fitch_digraph. rewrite fitch_pair_loop_edges, fitch_leaf_loop_edges. simpl.
  split.
  - intros [Hin|(x & y & -> & Hin & (f & Hf & Ht))]; [by apply not_elem_of_empty in Hin|].
    rewrite fitch_leaf_loop_first_transfer in Hf. simpl in Hf.
    apply permutations2_members in Hin as Hm. destruct Hm as [_ Hy].
    rewrite decide_True in Hf by done. rewrite lookup_empty in Hf.
    apply ancestor_not_equal_spec in Ht.
    exists x, y, f. split_and!; [done..| |done].
    by destruct (first_transfer_walk T y).
  - intros (x & y & f & -> & Hin & Hf & Ht). right.
    exists x, y. split_and!; [done..|]. exists f. split.
    + rewrite fitch_leaf_loop_first_transfer. simpl.
      apply permutations2_members in Hin as [_ Hy].
      rewrite decide_True by done. by rewrite Hf.
    + by apply ancestor_not_equal_spec.
Qed.

(** ** Topology and flags *)

Lemma preorder_from_topology_and_flags t r :
  preorder_from (topology_and_flags t) r = preorder_from t r.
Proof.
  revert r. induction t as [a cs IH] using TreeNode_ind'; intros r.
  rewrite !preorder_from_unfold. simpl. f_equal.
  generalize 0%nat. induction IH as [|c cs Hc _ IHcs]; intros i; [done|].
  simpl. by rewrite Hc, IHcs.
Qed.

Lemma subtree_topology_and_flags t p :
  subtree (topology_and_flags t) p = topology_and_flags <$> subtree t p.
Proof.
  revert t. induction p as [|i p IH]; intros [a cs]; [done|]. simpl.
  rewrite list_lookup_fmap. destruct (cs !! i) as [c|]; simpl; [apply IH|done].
Qed.

Lemma is_leaf_topology_and_flags T r :
  is_leaf (topology_and_flags T) r = is_leaf T r.
Proof.
  unfold is_leaf, node_at. rewrite subtree_topology_and_flags.
  destruct (subtree T (rev r)) as [[a [|c cs]]|]; done.
Qed.

Lemma supply_leaves_topology_and_flags T :
  supply_leaves (topology_and_flags T) = supply_leaves T.
Proof.
  unfold supply_leaves, preorder. rewrite preorder_from_topology_and_flags.
  apply list_filter_iff. intros r. by rewrite is_leaf_topology_and_flags.
Qed.

Lemma transferred_topology_and_flags T r :
  attr_at transferred false (topology_and_flags T) r = attr_at transferred false T r.
Proof.
  unfold attr_at, node_at. rewrite subtree_topology_and_flags.
  by destruct (subtree T (rev r)) as [[a cs]|].
Qed.

Lemma first_transfer_walk_topology_and_flags T y :
  first_transfer_walk (topology_and_flags T) y = first_transfer_walk T y.
Proof.
  induction y as [|i y IH]; simpl; rewrite transferred_topology_and_flags; [done|].
  by rewrite IH.
Qed.

Lemma preorder_from_identity_and_flags t r :
  preorder_from (identity_and_flags t) r = preorder_from t r.
Proof.
  revert r. induction t as [a cs IH] using TreeNode_ind'; intros r.
  rewrite !preorder_from_unfold. simpl. f_equal.
  generalize 0%nat. induction IH as [|c cs Hc _ IHcs]; intros i; [done|].
  simpl. by rewrite Hc, IHcs.
Qed.

Lemma subtree_identity_and_flags t p :
  subtree (identity_and_flags t) p = identity_and_flags <$> subtree t p.
Proof.
  revert t. induction p as [|i p IH]; intros [a cs]; [done|]. simpl.
  rewrite list_lookup_fmap. destruct (cs !! i) as [c|]; simpl; [apply IH|done].
Qed.

Lemma supply_leaves_identity_and_flags T :
  supply_leaves (identity_and_flags T) = supply_leaves T.
Proof.
  unfold supply_leaves, preorder. rewrite preorder_from_identity_and_flags.
  apply list_filter_iff. intros r. unfold is_leaf, node_at.
  rewrite subtree_identity_and_flags.
  destruct (subtree T (rev r)) as [[a [|c cs]]|]; done.
Qed.

Lemma attr_at_identity_and_flags T r :
  attr_at transferred false (identity_and_flags T) r = attr_at transferred false T r ∧
  attr_at ID 0%Z (identity_and_flags T) r = attr_at ID 0%Z T r ∧
  attr_at label 0%Z (identity_and_flags T) r = attr_at label 0%Z T r ∧
  attr_at color (Single 0) (identity_and_flags T) r = attr_at color (Single 0) T r.
Proof.
  unfold attr_at, node_at. rewrite subtree_identity_and_flags.
  by destruct (subtree T (rev r)) as [[a cs]|].
Qed.

Lemma first_transfer_walk_identity_and_flags T y :
  first_transfer_walk (identity_and_flags T) y = first_transfer_walk T y.
Proof.
  induction y as [|i y IH]; simpl;
    rewrite (proj1 (attr_at_identity_and_flags T _)); [done|].
  by rewrite IH.
Qed.

Lemma foldl_ext_all {A B} (f g : A → B → A) (l : list B) (a : A) :
  (∀ a b, f a b = g a b) → foldl f a l = foldl g a l.
Proof.
  intros Hfg. revert a. induction l as [|b l IH]; intros a; [done|].
  simpl. by rewrite Hfg, IH.
Qed.

(** The graph is the one of the tree stripped to what [fitch] reads,
    whatever LCA instance and transfer edges are passed. *)
Lemma fitch_digraph_identity_and_flags T te te' lca_T lca_T' :
  fitch_digraph (identity_and_flags T) te lca_T = fitch_digraph T te' lca_T'.
Proof.
  unfold fitch_digraph. cbv zeta. rewrite supply_leaves_identity_and_flags.
  rewrite (foldl_ext_all (fitch_leaf_step (identity_and_flags T)) (fitch_leaf_step T)).
  - by apply foldl_ext_all.
  - intros st x. unfold fitch_leaf_step, leaf_attr.
    destruct (attr_at_identity_and_flags T x) as (_ & -> & -> & ->).
    by rewrite first_transfer_walk_identity_and_flags.
Qed.

(** ** The symmetric part *)

Lemma symmetric_part_edge D u v :
  (u, v) ∈ g_edge (symmetric_part D) ↔ (u, v) ∈ dg_edge D ∨ (v, u) ∈ dg_edge D.
Proof.
  unfold symmetric_part.
  rewrite <- !(elem_of_elements (dg_edge D)).
  induction (elements (dg_edge D)) as [|[a b] l IH]; simpl.
  - split; [by intros ?%not_elem_of_empty|].
    by intros [?%not_elem_of_nil|?%not_elem_of_nil].
  - rewrite !elem_of_cons, !elem_of_union, !elem_of_singleton, IH.
    intuition congruence.
Qed.

(** ** Statements about [fitch] *)

(** C1 (as amended): for distinct leaves x and y the directed Fitch graph
    has the edge x→y iff first_transfer[y] is defined and the LCA of x and y
    is a strict ancestor of first_transfer[y]. *)
Theorem fitch_edge_iff_lca_strictly_above T te su lca_T x y :
  x ∈ supply_leaves T → y ∈ supply_leaves T → x ≠ y →
  has_edge (directed_of (fitch T te su lca_T)) (KeyObj x) (KeyObj y) = true ↔
  ∃ f, first_transfer_walk T y = Some f ∧
       strict_ancestor (lca_get (mkLCA T) x y) f.
Proof.
  intros Hx Hy Hne.
  assert (directed_of (fitch T te su lca_T) = fitch_digraph T te lca_T) as ->.
  { unfold fitch. by destruct su. }
  unfold has_edge. rewrite bool_decide_eq_true, fitch_digraph_edge. split.
  - intros (x' & y' & f & [= <- <-] & _ & Hf & Hs). eauto.
  - intros (f & Hf & Hs). exists x, y, f. split_and!; [done| |done..].
    by apply permutations2_distinct.
Qed.

Lemma fitch_edge_iff_lca_strictly_above_witness :
  has_edge (directed_of (fitch T_two ∅ false None)) (KeyObj [1%nat]) (KeyObj [0%nat]) = true ↔
  ∃ f, first_transfer_walk T_two [0%nat] = Some f ∧
       strict_ancestor (lca_get (mkLCA T_two) [1%nat] [0%nat]) f.
Proof.
  apply (fitch_edge_iff_lca_strictly_above T_two ∅ false None [1%nat] [0%nat]).
  - vm_compute. apply list_elem_of_In. simpl. tauto.
  - vm_compute. apply list_elem_of_In. simpl. tauto.
  - discriminate.
Defined.

(** C1 as stated fails: in the tree with a transferred leaf [0] and a plain
    leaf [1] the graph has the edge [1]→[0], although the LCA (the root) does
    not lie below first_transfer[[0]] = [0]. *)
Lemma fitch_edge_not_iff_lca_strictly_below :
  ¬ (∀ T te su lca_T x y,
       x ∈ supply_leaves T → y ∈ supply_leaves T → x ≠ y →
       has_edge (directed_of (fitch T te su lca_T)) (KeyObj x) (KeyObj y) = true ↔
       lca_strictly_below_first_transfer T x y).
Proof.
  intros H.
  destruct (H T_two ∅ false None [1%nat] [0%nat]) as [H1 _].
  - vm_compute. apply list_elem_of_In. simpl. tauto.
  - vm_compute. apply list_elem_of_In. simpl. tauto.
  - discriminate.
  - destruct H1 as (f & Hf & Hne & Hs); [by vm_compute|].
    vm_compute in Hf. injection Hf as <-.
    apply suffix_nil_inv in Hs. discriminate.
Qed.

(** C2: the undirected Fitch graph has the edge {x, y} iff the directed
    Fitch graph of the same inputs has x→y or y→x. *)
Theorem undirected_fitch_is_symmetric_closure T te lca_T :
  ∃ U, undirected_fitch T te lca_T = Some U ∧
       fitch T te true lca_T = WithUndirected (directed_of (fitch T te false lca_T)) U ∧
       ∀ x y, Graph_has_edge U x y = true ↔
              has_edge (directed_of (fitch T te false lca_T)) x y = true ∨
              has_edge (directed_of (fitch T te false lca_T)) y x = true.
Proof.
  exists (symmetric_part (fitch_digraph T te lca_T)). split_and!; [done..|].
  intros x y. unfold Graph_has_edge, has_edge. simpl.
  rewrite !bool_decide_eq_true. apply symmetric_part_edge.
Qed.

(** C10 (as amended): fitch returns the same for any two values of
    transfer_edges, which it never reads.  With lca_T left out or the LCA
    instance of the tree, the edge set of the graph depends only on the
    topology and the transferred flags; the whole output depends on these
    and on the ID, label and color of the nodes, and on nothing else. *)
Theorem fitch_ignores_transfer_edges T te1 te2 su lca_T :
  fitch T te1 su lca_T = fitch T te2 su lca_T ∧
  ∀ T' lca_T', lca_for T lca_T → lca_for T' lca_T' →
    (topology_and_flags T = topology_and_flags T' →
       dg_edge (directed_of (fitch T te1 su lca_T)) =
       dg_edge (directed_of (fitch T' te2 su lca_T'))) ∧
    (identity_and_flags T = identity_and_flags T' →
       fitch T te1 su lca_T = fitch T' te2 su lca_T').
Proof.
  split; [done|]. intros T' lca_T' _ _. split.
  - intros Heq.
    assert (∀ T te su l, directed_of (fitch T te su l) = fitch_digraph T te l) as E.
    { intros ? ? [] ?; done. }
    rewrite !E. apply set_eq. intros e. rewrite !fitch_digraph_edge.
    rewrite <- (supply_leaves_topology_and_flags T), Heq, supply_leaves_topology_and_flags.
    assert (∀ y, first_transfer_walk T y = first_transfer_walk T' y) as Hft.
    { intros y. by rewrite <- (first_transfer_walk_topology_and_flags T), Heq,
        first_transfer_walk_topology_and_flags. }
    by setoid_rewrite Hft.
  - intros Heq. unfold fitch.
    rewrite <- (fitch_digraph_identity_and_flags T te1 te1 lca_T lca_T), Heq.
    by rewrite (fitch_digraph_identity_and_flags T' te1 te2 lca_T lca_T').
Qed.

Lemma fitch_ignores_transfer_edges_witness :
  fitch T_two ∅ true None = fitch T_two {[ [0%nat] ]} true None ∧
  dg_edge (directed_of (fitch T_two ∅ true None)) =
    dg_edge (directed_of (fitch T_two_relabelled {[ [0%nat] ]} true None)) ∧
  fitch T_two ∅ true None = fitch T_two_redated {[ [0%nat] ]} true None.
Proof.
  pose proof (fitch_ignores_transfer_edges T_two ∅ {[ [0%nat] ]} true None) as [H1 H2].
  split; [exact H1|]. split.
  - apply (H2 T_two_relabelled None); [by left|by left|reflexivity].
  - apply (H2 T_two_redated None); [by left|by left|reflexivity].
Defined.

(** C10 as stated fails: the graph does not depend on the topology and the
    transferred flags alone.  Two trees that agree in both and differ in the
    label of a leaf give graphs with different node dictionaries. *)
Lemma fitch_depends_on_leaf_attributes :
  ¬ (∀ T T' te su,
       topology_and_flags T = topology_and_flags T' →
       fitch T te su None = fitch T' te su None).
Proof.
  intros Hclaim. specialize (Hclaim T_two T_two_relabelled ∅ false eq_refl).
  apply (f_equal (λ r, dg_node (directed_of r) !! KeyID 1)) in Hclaim.
  vm_compute in Hclaim. discriminate Hclaim.
Qed.

(** C3 at the failing input: the graph of the two-leaf tree has four nodes;
    the two endpoints of its edge are node objects without attributes, and
    the nodes that carry label and color (keyed by ID) have no edge. *)
Lemma fitch_T_two_nodes :
  let G := directed_of (fitch T_two ∅ false None) in
  dom (dg_node G) = {[KeyID 1; KeyID 2; KeyObj [0%nat]; KeyObj [1%nat]]} ∧
  elements (dg_edge G) = [(KeyObj [1%nat], KeyObj [0%nat])] ∧
  dg_node G !! KeyObj [0%nat] = Some ∅ ∧
  dg_node G !! KeyObj [1%nat] = Some ∅ ∧
  dg_node G !! KeyID 1 = Some (leaf_attr T_two [0%nat]) ∧
  has_edge G (KeyID 2) (KeyID 1) = false.
Proof. vm_compute. done. Qed.

(** ** Preorder *)

Lemma preorder_children_segment cs r i j c :
  cs !! j = Some c →
  ∃ X Y, preorder_children cs r i = X ++ preorder_from c ((i + j)%nat :: r) ++ Y.
Proof.
  revert i j. induction cs as [|c' cs IH]; intros i j Hj; [done|].
  destruct j as [|j]; simpl in *.
  - injection Hj as ->. exists [], (preorder_children cs r (S i)).
    by rewrite Nat.add_0_r.
  - destruct (IH (S i) j Hj) as (X & Y & ->).
    exists (preorder_from c' (i :: r) ++ X), Y.
    rewrite <- (assoc_L (++)). by rewrite Nat.add_succ_r.
Qed.

Lemma preorder_children_elem cs r i v :
  v ∈ preorder_children cs r i ↔
  ∃ j c, cs !! j = Some c ∧ v ∈ preorder_from c ((i + j)%nat :: r).
Proof.
  revert i. induction cs as [|c' cs IH]; intros i; simpl.
  - split; [by intros ?%not_elem_of_nil|]. by intros (j & c & Hj & _).
  - rewrite elem_of_app, IH. split.
    + intros [Hv|(j & c & Hj & Hv)].
      * exists 0%nat, c'. by rewrite Nat.add_0_r.
      * exists (S j), c. by rewrite Nat.add_succ_r.
    + intros ([|j] & c & Hj & Hv); simpl in Hj.
      * injection Hj as ->. left. by rewrite Nat.add_0_r in Hv.
      * right. exists j, c. by rewrite Nat.add_succ_r in Hv.
Qed.

Lemma preorder_from_suffix t r v : v ∈ preorder_from t r → r `suffix_of` v.
Proof.
  revert r v. induction t as [a cs IH] using TreeNode_ind'; intros r v.
  rewrite preorder_from_unfold. simpl.
  intros [->|Hv]%elem_of_cons; [done|].
  apply preorder_children_elem in Hv as (j & c & Hj & Hv).
  rewrite Forall_forall in IH.
  apply (IH c) in Hv; [|by eapply list_elem_of_lookup_2].
  by eapply suffix_cons_l.
Qed.

Lemma preorder_children_suffix cs r i v :
  v ∈ preorder_children cs r i → ∃ j, (i ≤ j)%nat ∧ (j :: r) `suffix_of` v.
Proof.
  intros (j & c & _ & Hv)%preorder_children_elem.
  exists (i + j)%nat. split; [lia|]. by eapply preorder_from_suffix.
Qed.

Lemma suffix_same_length (a b v : ref) :
  a `suffix_of` v → b `suffix_of` v → length a = length b → a = b.
Proof.
  intros [ka ->] [kb Hb] Hlen.
  assert (length ka = length kb) as Hk.
  { apply (f_equal length) in Hb. rewrite !length_app in Hb. lia. }
  by apply app_inj_1 in Hb as [_ ->].
Qed.

Lemma preorder_from_NoDup t r : NoDup (preorder_from t r).
Proof.
  revert r. induction t as [a cs IH] using TreeNode_ind'; intros r.
  rewrite preorder_from_unfold. simpl. apply NoDup_cons. split.
  - intros (j & _ & Hs)%preorder_children_suffix.
    by apply suffix_cons_not in Hs.
  - generalize 0%nat. induction IH as [|c cs Hc _ IHcs]; intros i; simpl.
    + constructor.
    + apply NoDup_app. split_and!; [apply Hc| |apply IHcs].
      intros v Hv (j & Hj & Hs)%preorder_children_suffix.
      apply preorder_from_suffix in Hv.
      assert (i :: r = j :: r) as [= ->]; [|lia].
      by eapply suffix_same_length.
Qed.

Lemma preorder_NoDup T : NoDup (preorder T).
Proof. apply preorder_from_NoDup. Qed.

Lemma preorder_from_parent_before t r v :
  v ∈ preorder_from t r → v ≠ r →
  ∃ u, parent v = Some u ∧ before (preorder_from t r) u v.
Proof.
  revert r v. induction t as [a cs IH] using TreeNode_ind'; intros r v.
  rewrite preorder_from_unfold. simpl.
  intros [->|Hv]%elem_of_cons Hne; [done|].
  apply preorder_children_elem in Hv as Hv'. destruct Hv' as (j & c & Hj & Hvc).
  simpl in Hvc.
  destruct (decide (v = j :: r)) as [->|Hne'].
  - exists r. split; [done|].
    apply list_elem_of_split in Hv as (p1 & p2 & ->).
    exists (r :: p1), p2. split; [done|]. left.
  - rewrite Forall_forall in IH.
    destruct (IH c (list_elem_of_lookup_2 _ _ _ Hj) (j :: r) v Hvc Hne')
      as (u & Hu & pre & post & Heq & Hin).
    exists u. split; [done|].
    destruct (preorder_children_segment cs r 0 j c Hj) as (X & Y & ->).
    simpl. rewrite Heq.
    exists (r :: X ++ pre), (post ++ Y). split.
    + simpl. f_equal. rewrite <- !(assoc_L (++)). done.
    + right. apply elem_of_app. by right.
Qed.

Lemma preorder_root T : ∃ l, preorder T = [] :: l.
Proof. unfold preorder. rewrite preorder_from_unfold. eauto. Qed.

Lemma preorder_parent_before T v u :
  v ∈ preorder T → parent v = Some u → before (preorder T) u v.
Proof.
  intros Hv Hu.
  destruct (preorder_from_parent_before T [] v Hv) as (u' & Hu' & Hb).
  - by intros ->.
  - unfold preorder. by simplify_eq.
Qed.

Lemma before_cons_head (l : list ref) u v : v ∉ l → ¬ before (v :: l) u v.
Proof.
  intros Hv (pre & post & Heq & Hu).
  destruct pre as [|x pre]; [by apply not_elem_of_nil in Hu|].
  injection Heq as -> ->. apply Hv. apply elem_of_app. right. left.
Qed.

Lemma before_cons_tail (l : list ref) u v w :
  before (v :: l) u w → u = v ∨ before l u w.
Proof.
  intros (pre & post & Heq & Hu).
  destruct pre as [|x pre]; [by apply not_elem_of_nil in Hu|].
  injection Heq as -> ->.
  apply elem_of_cons in Hu as [->|Hu]; [by left|].
  right. by exists pre, post.
Qed.

Lemma getitem_Some `{Countable K} {V} (d : gmap K V) (k : K) (v : V) :
  d !! k = Some v → getitem d k = Ok v.
Proof. unfold getitem. by intros ->. Qed.

Lemma getitem_None `{Countable K} {V} (d : gmap K V) (k : K) :
  d !! k = None → getitem d k = Raise KeyError.
Proof. unfold getitem. by intros ->. Qed.

(** ** Autocorrelation *)

Section autocorrelation_facts.
Context `{Numpy} (tree : TreeNode) (variance : Q).

Local Abbreviation lab := (attr_at label 0%Z tree).
Local Abbreviation var v := (variance * attr_at dist 0%Q tree v)%Q.

Local Abbreviation rates_of_node := (rates_of_node tree variance).

Lemma rates_of_node_is_Some nr er v : rates_of_node nr er v → is_Some (nr !! lab v).
Proof.
  unfold rates_of_node. destruct (parent v); [|by eauto].
  intros (j & ru & rv & _ & Hv & _). eauto.
Qed.

Lemma rates_of_node_insert nr er v l x y :
  rates_of_node nr er v → nr !! l = None →
  rates_of_node (<[l := x]> nr) (<[l := y]> er) v.
Proof.
  unfold rates_of_node. intros Hv Hl. destruct (parent v) as [u|].
  - destruct Hv as (j & ru & rv & Hu & Hv & Hrv & He).
    exists j, ru, rv.
    rewrite !lookup_insert_ne by congruence. done.
  - rewrite lookup_insert_ne by congruence. done.
Qed.

Lemma autocorrelation_step_root nr er k v :
  parent v = None →
  autocorrelation_step tree variance (nr, er, k) v =
  Ok (<[lab v := 1%Q]> nr, <[lab v := 1%Q]> er, k).
Proof. intros Hv. unfold autocorrelation_step. by rewrite Hv. Qed.

Lemma autocorrelation_step_child nr er k v u ru :
  parent v = Some u → nr !! lab u = Some ru → lab u ≠ lab v →
  let rv := np_exp (np_random_normal k (np_log ru - var v / 2)%Q (np_sqrt (var v))) in
  autocorrelation_step tree variance (nr, er, k) v =
  Ok (<[lab v := rv]> nr, <[lab v := ((ru + rv) / 2)%Q]> er, S k).
Proof.
  intros Hv Hu Hne rv. unfold autocorrelation_step. rewrite Hv.
  rewrite (getitem_Some _ _ _ Hu). cbn [mbind Result_bind].
  rewrite (getitem_Some (<[lab v := rv]> nr) (lab u) ru),
    (getitem_Some (<[lab v := rv]> nr) (lab v) rv); [done| |].
  - by rewrite lookup_insert_eq.
  - by rewrite lookup_insert_ne.
Qed.

Lemma autocorrelation_loop_spec todo done nr er k :
  NoDup (lab <$> (done ++ todo)) →
  (∀ w u, w ∈ todo → parent w = Some u → u ∈ done ∨ before todo u w) →
  (∀ v, v ∈ done → rates_of_node nr er v) →
  (∀ l, is_Some (nr !! l) → l ∈ lab <$> done) →
  ∃ nr' er' k',
    autocorrelation_loop tree variance (nr, er, k) todo = Ok (nr', er', k') ∧
    ∀ v, v ∈ done ++ todo → rates_of_node nr' er' v.
Proof.
  revert done nr er k.
  induction todo as [|v todo IH]; intros done nr er k Hnd Hpar Hdone Hdom.
  { exists nr, er, k. split; [done|]. intros v. rewrite app_nil_r. apply Hdone. }
  assert (NoDup (lab <$> ((done ++ [v]) ++ todo))) as Hnd'.
  { by rewrite <- (assoc_L (++)). }
  assert (lab v ∉ lab <$> done) as Hfresh.
  { rewrite fmap_app, fmap_cons in Hnd.
    apply NoDup_app in Hnd as (_ & Hdis & _).
    intros Hin. apply (Hdis _ Hin). left. }
  assert (nr !! lab v = None) as Hnone.
  { destruct (nr !! lab v) eqn:E; [|done]. destruct Hfresh. apply Hdom. eauto. }
  assert (v ∉ todo) as Hvtodo.
  { apply NoDup_fmap_1 in Hnd. apply NoDup_app in Hnd as (_ & _ & Hnd).
    by apply NoDup_cons in Hnd as [? _]. }
  assert (∀ w u, w ∈ todo → parent w = Some u → u ∈ done ++ [v] ∨ before todo u w) as Hpar'.
  { intros w u Hw Hu.
    destruct (Hpar w u) as [?|Hb]; [by right|done|left; apply elem_of_app; by left|].
    apply before_cons_tail in Hb as [->|Hb]; [|by right].
    left. apply elem_of_app. right. left. }
  assert (∀ l, is_Some (<[lab v := l.1]> nr !! l.2) → l.2 ∈ lab <$> (done ++ [v])) as Hdom'.
  { intros [x l] [y Hy]. simpl in *. rewrite fmap_app. apply elem_of_app.
    destruct (decide (lab v = l)) as [<-|Hne]; [right; left|].
    left. apply Hdom. rewrite lookup_insert_ne in Hy by done. eauto. }
  cbn [autocorrelation_loop].
  destruct (parent v) as [u|] eqn:Hu.
  - destruct (Hpar v u) as [Hud|Hb]; [left|done| |by apply before_cons_head in Hb].
    destruct (rates_of_node_is_Some nr er u (Hdone u Hud)) as [ru Hru].
    assert (lab u ≠ lab v) as Hne.
    { intros Heq. apply Hfresh. rewrite <- Heq. by apply list_elem_of_fmap_2. }
    rewrite (autocorrelation_step_child nr er k v u ru Hu Hru Hne).
    set (rv := np_exp (np_random_normal k (np_log ru - var v / 2)%Q (np_sqrt (var v)))).
    cbn [mbind Result_bind].
    destruct (IH (done ++ [v]) (<[lab v := rv]> nr) (<[lab v := ((ru + rv) / 2)%Q]> er) (S k))
      as (nr' & er' & k' & Hrun & Hall); [done..| | |].
    + intros w [Hw|Hw]%elem_of_app.
      * apply rates_of_node_insert; [by apply Hdone|done].
      * apply list_elem_of_singleton in Hw as ->.
        unfold rates_of_node. rewrite Hu. exists k, ru, rv.
        rewrite lookup_insert_ne by done. rewrite !lookup_insert_eq. done.
    + intros l. apply (Hdom' (rv, l)).
    + exists nr', er', k'. split; [done|].
      intros w Hw. apply Hall. by rewrite <- (assoc_L (++)).
  - rewrite (autocorrelation_step_root nr er k v Hu). cbn [mbind Result_bind].
    destruct (IH (done ++ [v]) (<[lab v := 1%Q]> nr) (<[lab v := 1%Q]> er) k)
      as (nr' & er' & k' & Hrun & Hall); [done..| | |].
    + intros w [Hw|Hw]%elem_of_app.
      * apply rates_of_node_insert; [by apply Hdone|done].
      * apply list_elem_of_singleton in Hw as ->.
        unfold rates_of_node. rewrite Hu. by rewrite lookup_insert_eq.
    + intros l. apply (Hdom' (1%Q, l)).
    + exists nr', er', k'. split; [done|].
      intros w Hw. apply Hall. by rewrite <- (assoc_L (++)).
Qed.

(** C7: the root gets node rate 1; a node v with parent u gets
    exp(normal(ln(node_rate[u]) - var/2, sqrt(var))) with
    var = variance * v.dist, and the edge rate (node_rate[u] + node_rate[v])/2;
    the parent is met before the child, and no lookup fails. *)
Theorem autocorrelation_factors_spec k :
  NoDup (lab <$> preorder tree) →
  ∃ node_rates edge_rates k',
    autocorrelation_factors tree variance k = Ok (node_rates, edge_rates, k') ∧
    node_rates !! lab [] = Some 1%Q ∧
    ∀ v u, v ∈ preorder tree → parent v = Some u →
      before (preorder tree) u v ∧
      ∃ j ru rv,
        node_rates !! lab u = Some ru ∧
        node_rates !! lab v = Some rv ∧
        rv = np_exp (np_random_normal j (np_log ru - var v / 2)%Q (np_sqrt (var v))) ∧
        edge_rates !! lab v = Some ((ru + rv) / 2)%Q.
Proof.
  intros Hnd.
  destruct (autocorrelation_loop_spec (preorder tree) [] ∅ ∅ k)
    as (nr & er & k' & Hrun & Hall); [done| | | |].
  - intros w u Hw Hu. right. by apply preorder_parent_before.
  - by intros v ?%not_elem_of_nil.
  - intros l [x Hx]. by rewrite lookup_empty in Hx.
  - exists nr, er, k'. split_and!; [done| |].
    + destruct (preorder_root tree) as [l Hl].
      specialize (Hall []). simpl in Hall. apply Hall. rewrite Hl. left.
    + intros v u Hv Hu. split; [by apply preorder_parent_before|].
      specialize (Hall v Hv). unfold rates_of_node in Hall. by rewrite Hu in Hall.
Qed.
End autocorrelation_facts.

(** ** Collapsing a rate history *)

Section collapse_facts.
Local Open Scope Q_scope.

Lemma Qlt_bool_iff a b : Qlt_bool a b = true ↔ a < b.
Proof.
unfold Qlt_bool. rewrite andb_true_iff, negb_true_iff, Qle_bool_iff.
rewrite <- not_true_iff_false, Qeq_bool_iff. split.
- intros [Hle Hne]. apply Qle_lteq in Hle as [?|?]; [done|by destruct Hne].
- intros Hlt. split; [by apply Qlt_le_weak|]. intros Heq. rewrite Heq in Hlt.
  by apply Qlt_irrefl in Hlt.
Qed.

Lemma foldl_Qplus_acc (l : list Q) (acc : Q) :
foldl Qplus acc l == acc + foldl Qplus 0 l.
Proof.
revert acc. induction l as [|x l IH]; intros acc; simpl.
- lra.
- rewrite (IH (acc + x)), (IH (0 + x)). lra.
Qed.

Lemma np_dot_cons a b (x y : Q) : np_dot (x :: a) (y :: b) == x * y + np_dot a b.
Proof.
unfold np_dot. simpl. rewrite foldl_Qplus_acc. lra.
Qed.

Lemma collapse_nil t_end : collapse [] t_end = 0.
Proof. done. Qed.

Lemma collapse_cons t r h t_end :
collapse ((t, r) :: h) t_end == (t - first_time h t_end) * r + collapse h t_end.
Proof.
unfold collapse. destruct h as [|[t' r'] h].
- unfold np_dot. simpl. lra.
- change (np_dot (- (t' - t) :: (Qopp <$> np_diff ((fst <$> (t', r') :: h) ++ [t_end])))
                 (r :: (snd <$> (t', r') :: h)) ==
          (t - t') * r +
          np_dot (Qopp <$> np_diff ((fst <$> (t', r') :: h) ++ [t_end]))
                 (snd <$> (t', r') :: h)).
  rewrite np_dot_cons. lra.
Qed.

(** The collapse is the sum over the segments of duration times rate. *)
Lemma collapse_segment_sum h t_end : collapse h t_end == segment_sum h t_end.
Proof.
induction h as [|[t r] h IH]; [done|].
rewrite collapse_cons. simpl. by rewrite IH.
Qed.

(** A segment of duration zero adds nothing, whatever its rate. *)
Lemma collapse_zero_duration t r h t_end :
t == first_time h t_end → collapse ((t, r) :: h) t_end == collapse h t_end.
Proof. intros Heq. rewrite collapse_cons, Heq. lra. Qed.

Lemma first_time_app_zero_duration h1 t r h2 t_end :
t == first_time h2 t_end →
first_time (h1 ++ (t, r) :: h2) t_end == first_time (h1 ++ h2) t_end.
Proof. intros Heq. destruct h1 as [|[t1 r1] h1]; [done|reflexivity]. Qed.

(** The same anywhere in a history, on the sum of the segments. *)
Lemma segment_sum_zero_duration h1 t r h2 t_end :
t == first_time h2 t_end →
segment_sum (h1 ++ (t, r) :: h2) t_end == segment_sum (h1 ++ h2) t_end.
Proof.
intros Heq. induction h1 as [|[t1 r1] h1 IH]; simpl.
- rewrite Heq. lra.
- rewrite IH, (first_time_app_zero_duration h1 t r h2 t_end Heq). reflexivity.
Qed.

Lemma descending_collapse h t_end :
descending h t_end = true →
t_end <= first_time h t_end ∧ 0 <= collapse h t_end ∧
(collapse h t_end == 0 ↔ first_time h t_end == t_end).
Proof.
induction h as [|[t r] h IH]; simpl.
- intros _. rewrite collapse_nil. split_and!; [lra..|done].
- rewrite !andb_true_iff, Qle_bool_iff, Qlt_bool_iff.
  intros [[Hle Hr] Hd]. destruct (IH Hd) as (Hend & Hnn & Hz).
  rewrite collapse_cons.
  assert (0 <= (t - first_time h t_end) * r) as Hseg.
  { apply Qmult_le_0_compat; lra. }
  split_and!; [lra..|]. split.
  + intros Hsum.
    assert ((t - first_time h t_end) * r == 0) as Hs0 by lra.
    assert (collapse h t_end == 0) as Hc0 by lra.
    apply Hz in Hc0.
    apply Qmult_integral in Hs0 as [?|?]; lra.
  + intros Heq.
    assert (first_time h t_end == t_end) as Hf by lra.
    apply Hz in Hf. rewrite Hf.
    assert (t - first_time h t_end == 0) as -> by lra. lra.
Qed.

Lemma history_ok_collapse t_parent t_child h :
history_ok t_parent t_child h = true →
0 <= collapse h t_child ∧ (collapse h t_child == 0 ↔ t_parent == t_child).
Proof.
unfold history_ok. destruct h as [|[t r] h]; [done|].
rewrite andb_true_iff, Qeq_bool_iff. intros [Ht Hd].
apply descending_collapse in Hd as (_ & Hnn & Hz). simpl in Hz.
split; [done|]. by rewrite Hz, Ht.
Qed.
End collapse_facts.

(** ** The [dist] fields after [assign_rates] *)

Lemma bind_Ok {A B} (r : Result A) (f : A → Result B) (y : B) :
  r ≫= f = Ok y → ∃ x, r = Ok x ∧ f x = Ok y.
Proof. destruct r as [x|e]; [|done]. intros Hf. by exists x. Qed.

Lemma edges_elem T u v : (u, v) ∈ edges T ↔ v ∈ preorder T ∧ parent v = Some u.
Proof.
  unfold edges. rewrite list_elem_of_omap. split.
  - intros (w & Hw & Hp). destruct (parent w) as [p|] eqn:E; [|done].
    by injection Hp as -> ->.
  - intros [Hv Hp]. exists v. by rewrite Hp.
Qed.

Lemma edges_snd_NoDup T : NoDup ((edges T).*2).
Proof.
  unfold edges. generalize (preorder_NoDup T).
  induction (preorder T) as [|w l IH]; intros Hnd; simpl; [constructor|].
  apply NoDup_cons in Hnd as [Hw Hnd].
  destruct (parent w) as [p|] eqn:E; simpl; [|by apply IH].
  apply NoDup_cons. split; [|by apply IH].
  intros Hin. apply Hw.
  apply list_elem_of_fmap in Hin as ([u v] & -> & Hin). simpl.
  apply list_elem_of_omap in Hin as (w' & Hw' & Hp).
  destruct (parent w'); [|done]. by injection Hp as -> ->.
Qed.

Section adjust_distances.
Variables (T : TreeNode) (rates : gmap (ref * ref) (list (Q * Q))).

Let body (d : gmap ref Q) (e : ref * ref) : gmap ref Q :=
  match rates !! e with
  | Some rate_list => <[e.2 := collapse rate_list (attr_at tstamp 0%Q T e.2)]> d
  | None => d
  end.

Lemma adjust_loop_other es d v : v ∉ es.*2 → foldl body d es !! v = d !! v.
Proof.
  revert d. induction es as [|[u' v'] es IH]; intros d Hv; [done|].
  simpl in *. rewrite IH by (intros ?; apply Hv; by right).
  unfold body. destruct (rates !! (u', v')); [|done]. simpl.
  rewrite lookup_insert_ne; [done|]. intros ->. apply Hv. left.
Qed.

Lemma adjust_loop_lookup es d u v h :
  NoDup es.*2 → (u, v) ∈ es → rates !! (u, v) = Some h →
  foldl body d es !! v = Some (collapse h (attr_at tstamp 0%Q T v)).
Proof.
  revert d. induction es as [|[u' v'] es IH]; intros d Hnd Hin Hh.
  { by apply not_elem_of_nil in Hin. }
  simpl in Hnd. apply NoDup_cons in Hnd as [Hv' Hnd].
  apply elem_of_cons in Hin as [[= <- <-]|Hin].
  - simpl. rewrite adjust_loop_other by done.
    unfold body. rewrite Hh. simpl. by rewrite lookup_insert_eq.
  - simpl. by apply IH.
Qed.

Lemma _adjust_distances_lookup d u v h :
  (u, v) ∈ edges T → rates !! (u, v) = Some h →
  _adjust_distances T rates d !! v = Some (collapse h (attr_at tstamp 0%Q T v)).
Proof. apply adjust_loop_lookup, edges_snd_NoDup. Qed.
End adjust_distances.

Lemma foldl_alter_lookup (g : Q → Q) (l : list ref) (d : gmap ref Q) (v : ref) :
  NoDup l →
  foldl (λ d v, alter g v d) d l !! v =
  if decide (v ∈ l) then g <$> d !! v else d !! v.
Proof.
  revert d. induction l as [|w l IH]; intros d Hnd; [done|].
  apply NoDup_cons in Hnd as [Hw Hnd]. simpl. rewrite IH by done.
  destruct (decide (v = w)) as [->|Hne].
  - rewrite decide_False by done. rewrite decide_True by left.
    by rewrite lookup_alter_eq.
  - rewrite lookup_alter_ne by done.
    destruct (decide (v ∈ l)) as [Hin|Hin].
    + rewrite decide_True; [done|by right].
    + rewrite decide_False; [done|]. by intros [?|?]%elem_of_cons.
Qed.

Lemma apply_base_rate_lookup T base_rate d v :
  v ∈ preorder T →
  apply_base_rate T base_rate d !! v = (λ x, x * base_rate)%Q <$> d !! v.
Proof.
  intros Hv. unfold apply_base_rate.
  rewrite foldl_alter_lookup by apply preorder_NoDup. by rewrite decide_True.
Qed.

Section apply_autocorrelation.
Context `{Numpy} (T : TreeNode) (edge_rates : gmap Z Q).

Lemma autocorrelation_loop_other vs d d' v :
  v ∉ vs → _apply_autocorrelation_loop T edge_rates d vs = Ok d' → d' !! v = d !! v.
Proof.
  revert d. induction vs as [|w vs IH]; intros d Hv Hrun; simpl in Hrun.
  { by injection Hrun as ->. }
  assert (v ≠ w) by (intros ->; apply Hv; left).
  assert (v ∉ vs) by (intros ?; apply Hv; by right).
  destruct (parent w).
  - apply bind_Ok in Hrun as (f & _ & Hrun).
    rewrite (IH _ ltac:(done) Hrun). by rewrite lookup_alter_ne.
  - by apply IH.
Qed.

(** A node with a parent has its [dist] multiplied once, by the factor of
    the species edge it sits on. *)
Lemma _apply_autocorrelation_lookup d d' v u :
  _apply_autocorrelation T edge_rates d = Ok d' →
  v ∈ preorder T → parent v = Some u →
  ∃ f, edge_rates !! color_edge_ID (attr_at color (Single 0) T v) = Some f ∧
       d' !! v = (λ x, x * f)%Q <$> d !! v.
Proof.
  unfold _apply_autocorrelation. generalize (preorder_NoDup T).
  revert d. induction (preorder T) as [|w vs IH]; intros d Hnd Hrun Hv Hu.
  { by apply not_elem_of_nil in Hv. }
  apply NoDup_cons in Hnd as [Hw Hnd]. simpl in Hrun.
  apply elem_of_cons in Hv as [->|Hv].
  - rewrite Hu in Hrun. apply bind_Ok in Hrun as (f & Hf & Hrun).
    exists f. split.
    + unfold getitem in Hf. by destruct (edge_rates !! _) eqn:E; simplify_eq.
    + rewrite (autocorrelation_loop_other _ _ _ _ Hw Hrun). by rewrite lookup_alter_eq.
  - assert (v ≠ w) by (by intros ->).
    destruct (parent w).
    + apply bind_Ok in Hrun as (f & _ & Hrun).
      destruct (IH _ Hnd Hrun Hv Hu) as (f' & Hf' & ->).
      exists f'. split; [done|]. by rewrite lookup_alter_ne.
    + by apply IH.
Qed.
End apply_autocorrelation.

Section assign_rates_facts.
Context `{Numpy}.
Local Open Scope Q_scope.

Lemma getitem_Ok `{Countable K} {V} (d : gmap K V) (k : K) (v : V) :
  getitem d k = Ok v → d !! k = Some v.
Proof. unfold getitem. destruct (d !! k); [|done]. by intros [= ->]. Qed.

Lemma autocorrelation_loop_pos tree variance vs nr er k nr' er' k' :
  (∀ x, 0 < np_exp x) →
  map_Forall (λ _ q, 0 < q) nr → map_Forall (λ _ q, 0 < q) er →
  autocorrelation_loop tree variance (nr, er, k) vs = Ok (nr', er', k') →
  map_Forall (λ _ q, 0 < q) nr' ∧ map_Forall (λ _ q, 0 < q) er'.
Proof.
  intros Hexp. revert nr er k.
  induction vs as [|v vs IH]; intros nr er k Hnr Her Hrun; simpl in Hrun.
  { by injection Hrun as <- <- <-. }
  apply bind_Ok in Hrun as ([[nr1 er1] k1] & Hstep & Hrun).
  apply (IH nr1 er1 k1); [| |done]; clear IH Hrun;
    unfold autocorrelation_step in Hstep; destruct (parent v) as [u|].
  - apply bind_Ok in Hstep as (ru & _ & Hstep).
    apply bind_Ok in Hstep as (ru' & _ & Hstep).
    apply bind_Ok in Hstep as (rv & _ & Hstep).
    injection Hstep as <- <- <-. by apply map_Forall_insert_2.
  - injection Hstep as <- <- <-. by apply map_Forall_insert_2.
  - apply bind_Ok in Hstep as (ru & _ & Hstep).
    apply bind_Ok in Hstep as (ru' & Hru' & Hstep).
    apply bind_Ok in Hstep as (rv & Hrv & Hstep).
    injection Hstep as <- <- <-.
    assert (map_Forall (λ _ q, 0 < q)
      (<[attr_at label 0%Z tree v :=
         np_exp (np_random_normal k
           (np_log ru - variance * attr_at dist 0 tree v / 2)
           (np_sqrt (variance * attr_at dist 0 tree v)))]> nr)) as Hnr1.
    { by apply map_Forall_insert_2. }
    apply getitem_Ok in Hru', Hrv.
    apply Hnr1 in Hru', Hrv. simpl in *.
    apply map_Forall_insert_2; [|done].
    apply Qlt_shift_div_l; lra.
  - injection Hstep as <- <- <-. by apply map_Forall_insert_2.
Qed.

Lemma autocorrelation_loop_nonneg tree variance vs nr er k nr' er' k' :
  (∀ x, 0 <= np_exp x) →
  map_Forall (λ _ q, 0 <= q) nr → map_Forall (λ _ q, 0 <= q) er →
  autocorrelation_loop tree variance (nr, er, k) vs = Ok (nr', er', k') →
  map_Forall (λ _ q, 0 <= q) nr' ∧ map_Forall (λ _ q, 0 <= q) er'.
Proof.
  intros Hexp. revert nr er k.
  induction vs as [|v vs IH]; intros nr er k Hnr Her Hrun; simpl in Hrun.
  { by injection Hrun as <- <- <-. }
  apply bind_Ok in Hrun as ([[nr1 er1] k1] & Hstep & Hrun).
  apply (IH nr1 er1 k1); [| |done]; clear IH Hrun;
    unfold autocorrelation_step in Hstep; destruct (parent v) as [u|].
  - apply bind_Ok in Hstep as (ru & _ & Hstep).
    apply bind_Ok in Hstep as (ru' & _ & Hstep).
    apply bind_Ok in Hstep as (rv & _ & Hstep).
    injection Hstep as <- <- <-. by apply map_Forall_insert_2.
  - injection Hstep as <- <- <-. apply map_Forall_insert_2; [lra|done].
  - apply bind_Ok in Hstep as (ru & _ & Hstep).
    apply bind_Ok in Hstep as (ru' & Hru' & Hstep).
    apply bind_Ok in Hstep as (rv & Hrv & Hstep).
    injection Hstep as <- <- <-.
    assert (map_Forall (λ _ q, 0 <= q)
      (<[attr_at label 0%Z tree v :=
         np_exp (np_random_normal k
           (np_log ru - variance * attr_at dist 0 tree v / 2)
           (np_sqrt (variance * attr_at dist 0 tree v)))]> nr)) as Hnr1.
    { by apply map_Forall_insert_2. }
    apply getitem_Ok in Hru', Hrv.
    apply Hnr1 in Hru', Hrv. simpl in *.
    apply map_Forall_insert_2; [|done].
    apply Qle_shift_div_l; lra.
  - injection Hstep as <- <- <-. apply map_Forall_insert_2; [lra|done].
Qed.

Lemma autocorrelation_factors_nonneg tree variance k nr er k' :
  (∀ x, 0 <= np_exp x) →
  autocorrelation_factors tree variance k = Ok (nr, er, k') →
  map_Forall (λ _ q, 0 <= q) er.
Proof.
  intros Hexp Hrun.
  by eapply (autocorrelation_loop_nonneg tree variance _ ∅ ∅); [|apply map_Forall_empty..|].
Qed.

(** Where [assign_rates] returns, the [dist] of a node below the root is
    the collapsed history of its incoming edge, times the factor of its
    species edge in the dictionary applied, times [base_rate]. *)
Lemma assign_rates_dist_exact T S_tree base_rate af av ri csn d k d' k' :
  assign_rates T S_tree base_rate af av ri csn d k = Ok (d', k') →
  ∃ st factors,
    process_nodes T S_tree (mkSampler ri 1) ((λ w, w / sum_Q csn) <$> csn)
      (initial_state T S_tree k) (sorted_nodes T true) = Ok st ∧
    applied_factors S_tree af av (calls st) = Ok factors ∧
    ∀ u v h, (u, v) ∈ edges T → rates st !! (u, v) = Some h →
      ∃ f x, edge_factor factors (attr_at color (Single 0) T v) = Some f ∧
        d' !! v = Some x ∧ x == collapse h (attr_at tstamp 0 T v) * f * base_rate.
Proof.
  intros Hrun. unfold assign_rates in Hrun.
  apply bind_Ok in Hrun as ([d1 k1] & Hdiv & Hrun).
  apply bind_Ok in Hrun as ([d2 k2] & Hauto & Hfin).
  injection Hfin as <- <-.
  unfold _divergent_rates in Hdiv.
  apply bind_Ok in Hdiv as (st & Hst & Hd1). injection Hd1 as <- <-.
  exists st.
  assert (∀ er d2', 
    _apply_autocorrelation T er (_adjust_distances T (rates st) d) = Ok d2' →
    ∀ u v h, (u, v) ∈ edges T → rates st !! (u, v) = Some h →
      ∃ f x, edge_factor (Some er) (attr_at color (Single 0) T v) = Some f ∧
        apply_base_rate T base_rate d2' !! v = Some x ∧
        x == collapse h (attr_at tstamp 0 T v) * f * base_rate) as Happly.
  { intros er d2' Hap u v h Hedge Hh.
    pose proof (_adjust_distances_lookup T (rates st) d u v h Hedge Hh) as Hd1.
    apply edges_elem in Hedge as [Hv Hu].
    destruct (_apply_autocorrelation_lookup T er _ _ v u Hap Hv Hu) as (f & Hf & Hd2).
    exists f. eexists. split; [done|]. rewrite apply_base_rate_lookup, Hd2, Hd1 by done.
    split; [done|reflexivity]. }
  assert (∀ dk, 
    (if Qlt_le_dec 0 av
     then '(_, edge_rates, k) ← autocorrelation_factors S_tree av (calls st);
          d0 ← _apply_autocorrelation T edge_rates (_adjust_distances T (rates st) d);
          Ok (d0, k)
     else Ok (_adjust_distances T (rates st) d, calls st)) = Ok dk →
    ∃ factors,
      (if Qlt_le_dec 0 av
       then '(_, edge_rates, _) ← autocorrelation_factors S_tree av (calls st);
            Ok (Some edge_rates)
       else Ok None) = Ok factors ∧
      ∀ u v h, (u, v) ∈ edges T → rates st !! (u, v) = Some h →
        ∃ f x, edge_factor factors (attr_at color (Single 0) T v) = Some f ∧
          apply_base_rate T base_rate dk.1 !! v = Some x ∧
          x == collapse h (attr_at tstamp 0 T v) * f * base_rate) as Hgen.
  { intros dk Hdk. destruct (Qlt_le_dec 0 av).
    - apply bind_Ok in Hdk as ([[nr er] k3] & Hfac & Hdk).
      apply bind_Ok in Hdk as (d2' & Hap & Hdk). injection Hdk as <-.
      exists (Some er). rewrite Hfac. split; [done|]. by apply Happly.
    - injection Hdk as <-. exists None. split; [done|].
      intros u v h Hedge Hh.
      pose proof (_adjust_distances_lookup T (rates st) d u v h Hedge Hh) as Hd1.
      apply edges_elem in Hedge as [Hv Hu].
      exists 1. eexists. split; [done|]. cbn [fst].
      rewrite apply_base_rate_lookup, Hd1 by done. split; [done|]. simpl. lra. }
  unfold applied_factors. destruct af as [f|]; simpl.
  - case_bool_decide.
    + apply bind_Ok in Hauto as (d2' & Hap & Hauto). injection Hauto as <- <-.
      exists (Some f). split_and!; [done..|]. by apply Happly.
    + destruct (Hgen _ Hauto) as (factors & Hfac & Hall). by exists factors.
  - rewrite bool_decide_eq_false_2 by (by intros []).
    destruct (Hgen _ Hauto) as (factors & Hfac & Hall). by exists factors.
Qed.

End assign_rates_facts.


(** ** The loss and the transfer transitions *)

Ltac red_state :=
  unfold set_gene_counter, set_marked, set_rates, bump_calls;
  cbn [mbind Result_bind rates gene_counter marked calls fst snd].

Lemma counter_append_Ok c v st l :
  gene_counter st !! c = Some l →
  counter_append c v st = Ok (set_gene_counter <[c := l ++ [v]]> st).
Proof. intros Hl. unfold counter_append. by rewrite (getitem_Some _ _ _ Hl). Qed.

Lemma counter_remove_Ok c u st l l' :
  gene_counter st !! c = Some l → list_remove u l = Ok l' →
  counter_remove c u st = Ok (set_gene_counter <[c := l']> st).
Proof.
  intros Hl Hrm. unfold counter_remove. rewrite (getitem_Some _ _ _ Hl).
  cbn [mbind Result_bind]. by rewrite Hrm.
Qed.

Lemma rates_append_Ok e x st l :
  rates st !! e = Some l →
  rates_append e x st = Ok (set_rates <[e := l ++ [x]]> st).
Proof. intros Hl. unfold rates_append. by rewrite (getitem_Some _ _ _ Hl). Qed.

Lemma new_rate_divergent `{Numpy} sampler v st :
  marked st !! v = Some divergent →
  new_rate sampler v st = Ok (draw sampler (calls st), bump_calls st).
Proof. intros Hv. unfold new_rate. by rewrite (getitem_Some _ _ _ Hv). Qed.

Lemma new_rate_conserved `{Numpy} sampler v st :
  marked st !! v = Some conserved → new_rate sampler v st = Ok (1%Q, st).
Proof. intros Hv. unfold new_rate. by rewrite (getitem_Some _ _ _ Hv). Qed.

Section transitions.
Context `{Numpy} (T S_tree : TreeNode) (sampler : Sampler) (CSN_weights : list Q).

Local Abbreviation col := (attr_at color (Single 0) T).
Local Abbreviation ts := (attr_at tstamp 0%Q T).
Local Abbreviation step := (process_node T S_tree sampler CSN_weights).

Lemma process_node_loss st u :
  attr_at event None T u = Some "L"%string → step st u = loss T u st.
Proof.
  intros Hev. unfold process_node. rewrite Hev.
  rewrite bool_decide_eq_false_2 by (intros [?|[?|?]]; discriminate).
  rewrite bool_decide_eq_false_2 by discriminate.
  by rewrite bool_decide_eq_true_2.
Qed.

Lemma process_node_hgt st u :
  attr_at event None T u = Some "H"%string → step st u = hgt T S_tree sampler u st.
Proof.
  intros Hev. unfold process_node. rewrite Hev.
  rewrite bool_decide_eq_false_2 by (intros [?|[?|?]]; discriminate).
  rewrite !bool_decide_eq_false_2 by discriminate.
  by rewrite bool_decide_eq_true_2.
Qed.

(** C5: at a loss node u whose removal leaves exactly one copy v on the
    branch, a divergent v becomes conserved and (u.tstamp, 1.0) is appended
    to the history of the edge into v; when v is conserved, or the branch
    keeps no copy or more than one, neither the marks nor the histories
    change. *)
Theorem loss_reverts_last_copy st u l l' :
  attr_at event None T u = Some "L"%string →
  gene_counter st !! col u = Some l →
  list_remove u l = Ok l' →
  (∀ v p h, l' = [v] → marked st !! v = Some divergent →
            parent v = Some p → rates st !! (p, v) = Some h →
     step st u =
     Ok (mkRateState (<[(p, v) := h ++ [(ts u, 1%Q)]]> (rates st))
                     (<[col u := [v]]> (gene_counter st))
                     (<[v := conserved]> (marked st))
                     (calls st))) ∧
  ((length l' ≠ 1%nat ∨ ∃ v, l' = [v] ∧ marked st !! v = Some conserved) →
     step st u =
     Ok (mkRateState (rates st) (<[col u := l']> (gene_counter st))
                     (marked st) (calls st))).
Proof.
  intros Hev Hl Hrm. rewrite process_node_loss by done.
  unfold loss. rewrite (counter_remove_Ok _ _ _ _ _ Hl Hrm). red_state.
  rewrite (getitem_Some _ _ l') by apply lookup_insert_eq.
  red_state. split.
  - intros v p h -> Hv Hp Hh.
    rewrite (getitem_Some _ _ _ Hv). red_state. rewrite Hp.
    by rewrite (rates_append_Ok _ _ _ h).
  - intros [Hlen|(v & -> & Hv)].
    + destruct l' as [|v [|w l']]; [done| |done]. by destruct Hlen.
    + by rewrite (getitem_Some _ _ _ Hv).
Qed.

(** C6: at a transfer node u with a parent p, the child v1 that is not
    flagged transferred takes the mark of u, and the history of its edge
    starts with the last rate on the edge (p, u), with no draw; the
    transferred child v2 is marked divergent and the history of its edge
    starts with the one rate drawn at u. *)
Theorem hgt_children_rates st u p c1 c2 v1 v2 m l l' hu t r key lk :
  attr_at event None T u = Some "H"%string →
  children T u = [c1; c2] →
  (c1 = v1 ∧ c2 = v2) ∨ (c1 = v2 ∧ c2 = v1) →
  attr_at transferred false T v1 = false →
  attr_at transferred false T v2 = true →
  parent u = Some p →
  marked st !! u = Some m →
  gene_counter st !! col u = Some l →
  list_remove u l = Ok l' →
  rates st !! (p, u) = Some hu → last hu = Some (t, r) →
  rates st !! (u, v1) = Some [] → rates st !! (u, v2) = Some [] →
  transfer_key S_tree (col v2) = Ok key →
  <[col u := l' ++ [v1]]> (gene_counter st) !! key = Some lk →
  ∃ st',
    step st u = Ok st' ∧
    marked st' !! v1 = Some m ∧
    rates st' !! (u, v1) = Some [(ts u, r)] ∧
    marked st' !! v2 = Some divergent ∧
    rates st' !! (u, v2) = Some [(ts u, draw sampler (calls st))] ∧
    calls st' = S (calls st).
Proof.
  intros Hev Hch Hcs Hv1 Hv2 Hp Hm Hl Hrm Hhu Hlast Hr1 Hr2 Hkey Hlk.
  assert (v1 ≠ v2) as Hne by (intros ->; congruence).
  assert ((if attr_at transferred false T c1 then (c2, c1) else (c1, c2)) = (v1, v2))
    as Hsel.
  { destruct Hcs as [[-> ->]|[-> ->]]; by rewrite ?Hv1, ?Hv2. }
  rewrite process_node_hgt by done. unfold hgt. rewrite Hch, Hsel.
  rewrite (getitem_Some _ _ _ Hm). red_state.
  rewrite (counter_remove_Ok _ _ _ l l') by done. red_state.
  rewrite (counter_append_Ok _ _ _ l') by apply lookup_insert_eq. red_state.
  rewrite insert_insert_eq. rewrite Hp.
  rewrite (getitem_Some _ _ _ Hr1). red_state.
  rewrite (getitem_Some _ _ _ Hhu). red_state. rewrite Hlast.
  rewrite (rates_append_Ok _ _ _ []) by done. red_state.
  rewrite Hkey. red_state.
  rewrite (counter_append_Ok _ _ _ lk) by done. red_state.
  rewrite new_rate_divergent by apply lookup_insert_eq. red_state.
  rewrite (rates_append_Ok _ _ _ [])
    by (red_state; rewrite lookup_insert_ne by congruence; done).
  red_state.
  eexists. split; [done|]. red_state. split_and!.
  - rewrite lookup_insert_ne by done. apply lookup_insert_eq.
  - rewrite lookup_insert_ne by congruence. apply lookup_insert_eq.
  - apply lookup_insert_eq.
  - apply lookup_insert_eq.
  - done.
Qed.
End transitions.

Lemma loss_reverts_last_copy_witness :
  ∃ st,
    process_nodes (H:=example_numpy) T_loss S_one (mkSampler default_rate_increase 1)
      default_CSN_weights (initial_state T_loss S_one 0) [[]; [0%nat]] = Ok st ∧
    (∀ v p h, [[1%nat; 0%nat]] = [v] → marked st !! v = Some divergent →
              parent v = Some p → rates st !! (p, v) = Some h →
       process_node (H:=example_numpy) T_loss S_one (mkSampler default_rate_increase 1)
         default_CSN_weights st [0%nat; 0%nat] =
       Ok (mkRateState
             (<[(p, v) := h ++ [(attr_at tstamp 0%Q T_loss [0%nat; 0%nat], 1%Q)]]> (rates st))
             (<[attr_at color (Single 0) T_loss [0%nat; 0%nat] := [v]]> (gene_counter st))
             (<[v := conserved]> (marked st))
             (calls st))) ∧
    ((length [[1%nat; 0%nat]] ≠ 1%nat ∨
      ∃ v, [[1%nat; 0%nat]] = [v] ∧ marked st !! v = Some conserved) →
       process_node (H:=example_numpy) T_loss S_one (mkSampler default_rate_increase 1)
         default_CSN_weights st [0%nat; 0%nat] =
       Ok (mkRateState (rates st)
             (<[attr_at color (Single 0) T_loss [0%nat; 0%nat] := [[1%nat; 0%nat]]]>
                (gene_counter st))
             (marked st) (calls st))).
Proof.
  eexists. split; [vm_compute; reflexivity|].
  apply (loss_reverts_last_copy (H:=example_numpy) T_loss S_one
           (mkSampler default_rate_increase 1) default_CSN_weights _
           [0%nat; 0%nat] [[0%nat; 0%nat]; [1%nat; 0%nat]] [[1%nat; 0%nat]]).
  - vm_compute. reflexivity.
  - vm_compute. reflexivity.
  - vm_compute. reflexivity.
Defined.

Lemma hgt_children_rates_witness :
  ∃ st,
    process_nodes (H:=example_numpy) T_hgt S_two (mkSampler default_rate_increase 1)
      default_CSN_weights (initial_state T_hgt S_two 0) [[]] = Ok st ∧
    ∃ st',
      process_node (H:=example_numpy) T_hgt S_two (mkSampler default_rate_increase 1)
        default_CSN_weights st [0%nat] = Ok st' ∧
      marked st' !! [0%nat; 0%nat] = Some conserved ∧
      rates st' !! ([0%nat], [0%nat; 0%nat]) =
        Some [(attr_at tstamp 0%Q T_hgt [0%nat], 1%Q)] ∧
      marked st' !! [1%nat; 0%nat] = Some divergent ∧
      rates st' !! ([0%nat], [1%nat; 0%nat]) =
        Some [(attr_at tstamp 0%Q T_hgt [0%nat],
               draw (H:=example_numpy) (mkSampler default_rate_increase 1) (calls st))] ∧
      calls st' = S (calls st).
Proof.
  eexists. split; [vm_compute; reflexivity|].
  apply (hgt_children_rates (H:=example_numpy) T_hgt S_two
           (mkSampler default_rate_increase 1) default_CSN_weights _
           [0%nat] [] [0%nat; 0%nat] [1%nat; 0%nat] [0%nat; 0%nat] [1%nat; 0%nat]
           conserved [[0%nat]] [] [(3%Q, 1%Q)] 3%Q 1%Q (Pair 0 2) [[1%nat]]).
  - vm_compute. reflexivity.
  - vm_compute. reflexivity.
  - left. split; reflexivity.
  - vm_compute. reflexivity.
  - vm_compute. reflexivity.
  - reflexivity.
  - vm_compute. reflexivity.
  - vm_compute. reflexivity.
  - vm_compute. reflexivity.
  - vm_compute. reflexivity.
  - reflexivity.
  - vm_compute. reflexivity.
  - vm_compute. reflexivity.
  - vm_compute. reflexivity.
  - vm_compute. reflexivity.
Defined.

Lemma autocorrelation_factors_spec_witness :
  ∃ node_rates edge_rates k',
    autocorrelation_factors (H:=example_numpy) S_two 1 0 = Ok (node_rates, edge_rates, k') ∧
    node_rates !! attr_at label 0%Z S_two [] = Some 1%Q ∧
    ∀ v u, v ∈ preorder S_two → parent v = Some u →
      before (preorder S_two) u v ∧
      ∃ j ru rv,
        node_rates !! attr_at label 0%Z S_two u = Some ru ∧
        node_rates !! attr_at label 0%Z S_two v = Some rv ∧
        rv = np_exp (Numpy:=example_numpy)
               (np_random_normal (Numpy:=example_numpy) j
                  (np_log (Numpy:=example_numpy) ru - 1 * attr_at dist 0%Q S_two v / 2)%Q
                  (np_sqrt (Numpy:=example_numpy) (1 * attr_at dist 0%Q S_two v)%Q)) ∧
        edge_rates !! attr_at label 0%Z S_two v = Some ((ru + rv) / 2)%Q.
Proof.
  apply (autocorrelation_factors_spec (H:=example_numpy) S_two 1%Q 0%nat).
  apply (bool_decide_unpack _). vm_compute. exact I.
Defined.

(** ** simulate_gene_trees *)

Section simulate_gene_trees_facts.
Context `{Numpy}.

(** Every pass of the loop simulates a tree with rates drawn from the first
    three samplers and hands the draw of the fourth, made right after the
    simulation, to assign_rates as base_rate. *)
Lemma simulate_loop_runs S_tree ds ls hs bs af kwargs N : ∀ acc k l k',
  simulate_loop S_tree ds ls hs bs af kwargs N acc k = Ok (l, k') →
  ∃ new, l = acc ++ new ∧ length new = N ∧
    ∀ i TGT d, new !! i = Some (TGT, d) →
      ∃ ki j k2,
        simulator_simulate S_tree (draw ds ki) (draw ls (S ki)) (draw hs (S (S ki)))
          (kw_simulate kwargs) (S (S (S ki))) = (TGT, j) ∧
        assign_rates TGT S_tree (draw bs j) (Some af) 0
          (default default_rate_increase (kw_rate_increase kwargs))
          (default default_CSN_weights (kw_CSN_weights kwargs))
          (init_dist TGT) (S j) = Ok (d, k2).
Proof.
  induction N as [|N IH]; intros acc k l k' Hrun; simpl in Hrun.
  - injection Hrun as <- <-. exists []. rewrite app_nil_r. split_and!; [done..|].
    intros i TGT d Hi. by rewrite lookup_nil in Hi.
  - apply bind_Ok in Hrun as ([[TGT d] k1] & Hit & Hrun).
    apply IH in Hrun as (new & -> & Hlen & Hall).
    exists ((TGT, d) :: new). rewrite <- app_assoc. split_and!; [done|by simpl; f_equal|].
    intros [|i] TGT' d' Hi; [|by apply (Hall i)].
    injection Hi as <- <-. unfold simulate_iteration in Hit. cbv zeta in Hit.
    destruct (simulator_simulate _ _ _ _ _ _) as [TGT0 j] eqn:Hsim.
    apply bind_Ok in Hit as ([d0 k2] & Hassign & [= <- <- <-]).
    exists k, j, k2. by rewrite Hsim.
Qed.

(** C9: in a call of simulate_gene_trees that returns, each of the N trees
    carries the dist fields written by assign_rates on the tree of that run
    with, as base_rate, a draw of the sampler Sampler(dupl_rate); the call
    returns the same for every value of the argument base_rate. *)
Theorem simulate_gene_trees_base_rate S_tree N dupl_rate loss_rate hgt_rate base_rate
    kwargs k result k' :
  simulate_gene_trees S_tree N dupl_rate loss_rate hgt_rate base_rate kwargs k =
    Ok (result, k') →
  (∀ base_rate',
     simulate_gene_trees S_tree N dupl_rate loss_rate hgt_rate base_rate' kwargs k =
       Ok (result, k')) ∧
  ∃ node_rates autocorr_factors k0 gene_trees,
    autocorrelation_factors S_tree (default 0%Q (kw_autocorr_variance kwargs)) k =
      Ok (node_rates, autocorr_factors, k0) ∧
    length gene_trees = N ∧
    (result = TreeList gene_trees ∧ N ≠ 1%nat ∨
     ∃ t, result = OneTree t ∧ gene_trees = [t]) ∧
    ∀ i TGT d, gene_trees !! i = Some (TGT, d) →
      ∃ ki j k2,
        simulator_simulate S_tree (draw (mkSampler dupl_rate 0) ki)
          (draw (mkSampler loss_rate 0) (S ki)) (draw (mkSampler hgt_rate 0) (S (S ki)))
          (kw_simulate kwargs) (S (S (S ki))) = (TGT, j) ∧
        assign_rates TGT S_tree (draw (mkSampler dupl_rate 0) j) (Some autocorr_factors) 0
          (default default_rate_increase (kw_rate_increase kwargs))
          (default default_CSN_weights (kw_CSN_weights kwargs))
          (init_dist TGT) (S j) = Ok (d, k2).
Proof.
  intros Hrun. split; [done|].
  unfold simulate_gene_trees in Hrun. cbv zeta in Hrun.
  apply bind_Ok in Hrun as ([[nr af] k0] & Hfac & Hrun).
  apply bind_Ok in Hrun as ([l k1] & Hloop & Hres).
  apply simulate_loop_runs in Hloop as (gene_trees & -> & Hlen & Hall).
  simpl in Hres. exists nr, af, k0, gene_trees. split_and!; [done..| |done].
  destruct N as [|[|N]].
  - injection Hres as <- <-. by left.
  - destruct gene_trees as [|t [|? ?]]; [done| |done].
    injection Hres as <- <-. right. by exists t.
  - injection Hres as <- <-. by left.
Qed.
End simulate_gene_trees_facts.

Lemma simulate_gene_trees_base_rate_witness :
  ∃ result k',
    simulate_gene_trees (H:=example_numpy) S_one 2 (Constant 0) (Constant 0) (Constant 0)
      (Constant 1) (mkKwargs None None None []) 0 = Ok (result, k') ∧
    (∀ base_rate',
       simulate_gene_trees (H:=example_numpy) S_one 2 (Constant 0) (Constant 0) (Constant 0)
         base_rate' (mkKwargs None None None []) 0 = Ok (result, k')) ∧
    ∃ node_rates autocorr_factors k0 gene_trees,
      autocorrelation_factors (H:=example_numpy) S_one 0 0 =
        Ok (node_rates, autocorr_factors, k0) ∧
      length gene_trees = 2%nat ∧
      (result = TreeList gene_trees ∧ 2%nat ≠ 1%nat ∨
       ∃ t, result = OneTree t ∧ gene_trees = [t]) ∧
      ∀ i TGT d, gene_trees !! i = Some (TGT, d) →
        ∃ ki j k2,
          simulator_simulate (Numpy:=example_numpy) S_one
            (draw (H:=example_numpy) (mkSampler (Constant 0) 0) ki)
            (draw (H:=example_numpy) (mkSampler (Constant 0) 0) (S ki))
            (draw (H:=example_numpy) (mkSampler (Constant 0) 0) (S (S ki)))
            [] (S (S (S ki))) = (TGT, j) ∧
          assign_rates (H:=example_numpy) TGT S_one
            (draw (H:=example_numpy) (mkSampler (Constant 0) 0) j) (Some autocorr_factors) 0
            default_rate_increase default_CSN_weights (init_dist TGT) (S j) = Ok (d, k2).
Proof.
  eexists _, _. split; [vm_compute; reflexivity|].
  eapply (simulate_gene_trees_base_rate (H:=example_numpy) S_one 2 (Constant 0) (Constant 0)
            (Constant 0) (Constant 1) (mkKwargs None None None []) 0%nat).
  vm_compute. reflexivity.
Defined.

(** ** random_colored_tree *)

Section random_colored_tree_facts.
Context `{Numpy}.

Lemma to_iterable_colors_list colors cs :
  colors_list colors = Some cs → to_iterable colors = Ok (py_list cs).
Proof. destruct colors; intros [= <-]; done. Qed.

Lemma py_list_getitem_errors cs i : index_error_only (py_getitem (py_list cs) i).
Proof. intros e. simpl. destruct (cs !! i); [done|]. by intros [= <-]. Qed.

Lemma choose_errors cs k : index_error_only (choose (py_list cs) k).1.
Proof.
  unfold choose. simpl. destruct (length cs) as [|m]; simpl.
  - by intros e [= <-].
  - apply py_list_getitem_errors.
Qed.

Lemma set_reconc_at_errors leaves permutation i c reconc :
  index_error_only (set_reconc_at leaves permutation i c reconc).
Proof.
  intros e. unfold set_reconc_at.
  destruct (permutation !! i) as [p|]; [|by intros [= <-]].
  destruct (leaves !! p); [done|]. by intros [= <-].
Qed.

Lemma color_randomly_errors leaves cs reconc k :
  index_error_only (color_randomly leaves (py_list cs) reconc k).1.
Proof.
  revert reconc k. induction leaves as [|leaf leaves IH]; intros reconc k; simpl.
  - done.
  - pose proof (choose_errors cs k) as Hc.
    destruct (choose (py_list cs) k) as [[c|e'] k1]; [apply IH|].
    intros e [= <-]. by apply Hc.
Qed.

Lemma color_forced_errors leaves permutation cs indices reconc k :
  index_error_only (color_forced leaves permutation (py_list cs) indices reconc k).1.
Proof.
  revert reconc k. induction indices as [|i indices IH]; intros reconc k; [done|].
  cbn [color_forced py_len py_list].
  assert (index_error_only
            (if bool_decide (i < length cs)%nat then (py_getitem (py_list cs) i, k)
             else choose (py_list cs) k).1) as Hc.
  { case_bool_decide; [apply py_list_getitem_errors|apply choose_errors]. }
  destruct (if bool_decide (i < length cs)%nat then _ else _) as [[c|e'] k1].
  - pose proof (set_reconc_at_errors leaves permutation i c reconc) as Hs.
    destruct (set_reconc_at leaves permutation i c reconc) as [reconc1|e']; [apply IH|].
    intros e [= <-]. by apply Hs.
  - intros e [= <-]. by apply Hc.
Qed.

(** C8 (as amended): the call first runs Tree.random_tree, and an
    exception of that call is what it raises, whatever colors is.  Once
    Tree.random_tree has returned, a value of colors that is neither an int
    nor iterable raises the TypeError, and more colors than n together with
    force_all_colors raises the ValueError; at either raise no leaf has
    been given a reconc and no random number has been drawn since
    Tree.random_tree returned.  With an int or a list of at most n colors,
    or without force_all_colors, neither a TypeError nor a ValueError is
    raised. *)
Theorem random_colored_tree_errors n colors binary force_all_colors k :
  (∀ e k1, Tree_random_tree n binary k = (Raise e, k1) →
     random_colored_tree n colors binary force_all_colors k = (Raise e, (∅, k1))) ∧
  (∀ tree k1, Tree_random_tree n binary k = (Ok tree, k1) →
     (colors = ColorsOther →
        random_colored_tree n colors binary force_all_colors k =
        (Raise (TypeError "'colors' must be of type 'int' or iterable"), (∅, k1))) ∧
     (∀ it m, to_iterable colors = Ok it → py_len it = Ok m →
        (Z.of_nat m > n)%Z → force_all_colors = true →
        random_colored_tree n colors binary force_all_colors k =
        (Raise (ValueError "cannot force all colors since #colors > n"), (∅, k1))) ∧
     (∀ cs, colors_list colors = Some cs →
        (Z.of_nat (length cs) ≤ n)%Z ∨ force_all_colors = false →
        ∀ msg,
          (random_colored_tree n colors binary force_all_colors k).1 ≠ Raise (TypeError msg) ∧
          (random_colored_tree n colors binary force_all_colors k).1 ≠ Raise (ValueError msg))).
Proof.
  split.
  { intros e k1 Htree. unfold random_colored_tree. by rewrite Htree. }
  intros tree k1 Htree. unfold random_colored_tree. rewrite Htree. split_and!.
  - by intros ->.
  - intros it m -> -> Hlen ->. by rewrite bool_decide_eq_true_2.
  - intros cs Hcs Hok msg. rewrite (to_iterable_colors_list _ _ Hcs).
    cbn [py_len py_list].
    assert (bool_decide (Z.of_nat (length cs) > n)%Z && force_all_colors = false) as ->.
    { destruct Hok as [Hle| ->]; [|by rewrite andb_false_r].
      rewrite bool_decide_eq_false_2; [done|lia]. }
    cbv zeta.
    assert (index_error_only
      (if force_all_colors
       then color_forced (supply_leaves tree)
              (np_random_permutation k1 (length (supply_leaves tree))) (py_list cs)
              (seq 0 (length (supply_leaves tree))) ∅ (S k1)
       else color_randomly (supply_leaves tree) (py_list cs) ∅ k1).1) as Herr.
    { destruct force_all_colors; [apply color_forced_errors|apply color_randomly_errors]. }
    destruct (if force_all_colors then _ else _) as [[[]|e] st]; [done|].
    simpl in *. rewrite (Herr e eq_refl). done.
Qed.
End random_colored_tree_facts.

Lemma random_colored_tree_errors_witness :
  random_colored_tree (H:=example_numpy) 0 ColorsOther false true 0 =
    (Raise (TypeError "n must be an int > 0"), (∅, 0%nat)) ∧
  random_colored_tree (H:=example_numpy) 2 ColorsOther false true 0 =
    (Raise (TypeError "'colors' must be of type 'int' or iterable"), (∅, 1%nat)) ∧
  random_colored_tree (H:=example_numpy) 2 (ColorsList [1; 2; 3]%Z) false true 0 =
    (Raise (ValueError "cannot force all colors since #colors > n"), (∅, 1%nat)) ∧
  ∀ msg,
    (random_colored_tree (H:=example_numpy) 2 (ColorsInt 2) false true 0).1 ≠
      Raise (TypeError msg) ∧
    (random_colored_tree (H:=example_numpy) 2 (ColorsInt 2) false true 0).1 ≠
      Raise (ValueError msg).
Proof.
  split_and!.
  - apply (proj1 (random_colored_tree_errors (H:=example_numpy) 0 ColorsOther false true
                    0%nat)).
    reflexivity.
  - eapply (proj1 (proj2 (random_colored_tree_errors (H:=example_numpy) 2 ColorsOther false
                            true 0%nat) _ 1%nat eq_refl)).
    reflexivity.
  - eapply (proj1 (proj2 (proj2 (random_colored_tree_errors (H:=example_numpy) 2
                             (ColorsList [1; 2; 3]%Z) false true 0%nat) _ 1%nat eq_refl))).
    + reflexivity.
    + reflexivity.
    + simpl. lia.
    + reflexivity.
  - eapply (proj2 (proj2 (proj2 (random_colored_tree_errors (H:=example_numpy) 2
                             (ColorsInt 2) false true 0%nat) _ 1%nat eq_refl))).
    + reflexivity.
    + left. vm_compute. discriminate.
Defined.

(** C8 as stated fails for an iterable that is not a sequence: a set of two
    colors passes the test for iterables and has no more colors than the
    two leaves asked for, and the call raises a TypeError at colors[0], or at
    random.choice(colors) without force_all_colors; a generator raises it at
    len(colors). *)
Lemma random_colored_tree_set_raises_TypeError :
  to_iterable (ColorsIterable (py_set [1; 2]%Z)) = Ok (py_set [1; 2]%Z) ∧
  py_len (py_set [1; 2]%Z) = Ok 2%nat ∧
  (random_colored_tree (H:=example_numpy) 2 (ColorsIterable (py_set [1; 2]%Z)) false true 0).1 =
    Raise (TypeError "'set' object is not subscriptable") ∧
  (random_colored_tree (H:=example_numpy) 2 (ColorsIterable (py_set [1; 2]%Z)) false false 0).1 =
    Raise (TypeError "'set' object is not subscriptable") ∧
  (random_colored_tree (H:=example_numpy) 2 (ColorsIterable py_generator) false false 0).1 =
    Raise (TypeError "object of type 'generator' has no len()").
Proof. vm_compute. done. Qed.

(** ** Nodes, children and the order of processing *)

Lemma subtree_app t p q :
  subtree t (p ++ q) = subtree t p ≫= λ n, subtree n q.
Proof.
  revert t. induction p as [|i p IH]; intros t; [done|]. simpl.
  destruct (children_of t !! i) as [c|]; [apply IH|done].
Qed.

Lemma preorder_from_elem t r v :
  v ∈ preorder_from t r ↔ ∃ path, v = rev path ++ r ∧ is_Some (subtree t path).
Proof.
  revert r v. induction t as [a cs IH] using TreeNode_ind'; intros r v.
  rewrite preorder_from_unfold, elem_of_cons, preorder_children_elem. simpl.
  rewrite Forall_forall in IH. split.
  - intros [->|(j & c & Hj & Hv)].
    + exists []. split; [done|]. by eexists.
    + apply (IH c) in Hv as (path & -> & Hs); [|by eapply list_elem_of_lookup_2].
      exists (j :: path). split.
      * simpl. by rewrite <- (assoc_L (++)).
      * simpl. by rewrite Hj.
  - intros ([|j path] & -> & Hs); [by left|]. right. simpl in Hs.
    destruct (cs !! j) as [c|] eqn:Hj; [|by destruct Hs].
    exists j, c. split; [done|].
    apply (IH c); [by eapply list_elem_of_lookup_2|].
    exists path. split; [|done]. simpl. by rewrite <- (assoc_L (++)).
Qed.

Lemma preorder_elem T v : v ∈ preorder T ↔ is_Some (node_at T v).
Proof.
  unfold preorder, node_at. rewrite preorder_from_elem. split.
  - intros (path & -> & Hs). by rewrite (right_id_L [] (++)), rev_involutive.
  - intros Hs. exists (rev v). by rewrite (right_id_L [] (++)), rev_involutive.
Qed.

Lemma children_elem T u v :
  v ∈ children T u ↔ v ∈ preorder T ∧ parent v = Some u.
Proof.
  unfold children. rewrite preorder_elem. unfold node_at. split.
  - destruct (subtree T (rev u)) as [n|] eqn:Hn; [|by intros ?%not_elem_of_nil].
    intros (i & c & -> & Hi)%elem_of_lookup_imap. split; [|done].
    simpl. rewrite subtree_app, Hn. simpl. rewrite Hi. by eexists.
  - intros [Hs Hp]. destruct v as [|i v]; [done|]. injection Hp as ->.
    simpl in Hs. rewrite subtree_app in Hs.
    destruct (subtree T (rev u)) as [n|]; [|by destruct Hs]. simpl in Hs.
    destruct (children_of n !! i) as [c|] eqn:Hi; [|by destruct Hs].
    apply (elem_of_lookup_imap_2 (λ i _, i :: u) _ _ _ Hi).
Qed.

Lemma children_edges T u v : v ∈ children T u ↔ (u, v) ∈ edges T.
Proof. by rewrite children_elem, edges_elem. Qed.

Lemma children_NoDup T u : NoDup (children T u).
Proof.
  unfold children. destruct (node_at T u) as [n|]; [|constructor].
  apply NoDup_alt. intros i j v Hi Hj.
  apply list_lookup_imap_Some in Hi as (c & _ & ->).
  apply list_lookup_imap_Some in Hj as (c' & _ & Heq). by injection Heq.
Qed.

Section sorting.
Variables (T : TreeNode) (precedes : Q → Q → bool).

Local Abbreviation ts := (attr_at tstamp 0%Q T).

Lemma sorted_insert_split x l :
  ∃ l1 l2, sorted_insert precedes T x l = l1 ++ x :: l2 ∧ l = l1 ++ l2 ∧
           Forall (λ y, precedes (ts y) (ts x) = true) l1 ∧
           match l2 with [] => True | z :: _ => precedes (ts z) (ts x) = false end.
Proof.
  induction l as [|y l IH]; simpl.
  - by exists [], [].
  - destruct (precedes (ts y) (ts x)) eqn:Hy.
    + destruct IH as (l1 & l2 & -> & -> & Hall & Hz).
      exists (y :: l1), l2. split_and!; [done..| |done]. by constructor.
    + exists [], (y :: l). split_and!; [done..| |done]. constructor.
Qed.

Lemma sorted_insert_perm x l : sorted_insert precedes T x l ≡ₚ x :: l.
Proof.
  destruct (sorted_insert_split x l) as (l1 & l2 & -> & -> & _).
  by rewrite Permutation_middle.
Qed.

Lemma sorted_insert_before x l a b :
  before l a b → before (sorted_insert precedes T x l) a b.
Proof.
  intros (pre & post & -> & Ha).
  destruct (sorted_insert_split x (pre ++ b :: post)) as (l1 & l2 & -> & Heq & _).
  apply app_eq_inv in Heq as [(k & -> & ->)|(k & -> & Hk)].
  - exists (l1 ++ x :: k), post. split; [by rewrite <- (assoc_L (++))|].
    apply elem_of_app in Ha as [?|?]; apply elem_of_app; [by left|].
    right. by right.
  - destruct k as [|b' k]; simpl in Hk.
    + subst l2. rewrite (right_id_L [] (++)). exists (pre ++ [x]), post.
      split; [by rewrite <- (assoc_L (++))|]. apply elem_of_app. by left.
    + injection Hk as <- ->.
      exists pre, (k ++ x :: l2). split; [by rewrite <- (assoc_L (++))|done].
Qed.
End sorting.

Section sorted_nodes_facts.
Variable T : TreeNode.
Local Open Scope Q_scope.

Local Abbreviation ts := (attr_at tstamp 0 T).
Local Abbreviation older := (λ a b : Q, Qlt_bool b a).
Local Abbreviation sorted := (foldr (sorted_insert older T) []).

Lemma sorted_perm l : sorted l ≡ₚ l.
Proof.
  induction l as [|x l IH]; [done|]. simpl.
  by rewrite sorted_insert_perm, IH.
Qed.

Lemma sorted_descending l :
  StronglySorted (λ x y, ts y <= ts x) (sorted l).
Proof.
  induction l as [|x l IH]; simpl; [constructor|].
  destruct (sorted_insert_split T older x (sorted l)) as (l1 & l2 & -> & Heq & Hl1 & Hl2).
  rewrite Heq in IH. apply StronglySorted_app in IH as (Hcross & Hs1 & Hs2).
  apply StronglySorted_app. split_and!; [|done|].
  - intros y z Hy [->|Hz]%elem_of_cons.
    + rewrite Forall_forall in Hl1. apply Hl1 in Hy.
      apply Qlt_bool_iff in Hy. by apply Qlt_le_weak.
    + by apply Hcross.
  - apply StronglySorted_cons. split; [|done].
    destruct l2 as [|z l2]; [constructor|].
    assert (ts z <= ts x) as Hzx.
    { apply Qnot_lt_le. intros Hlt%Qlt_bool_iff. congruence. }
    apply StronglySorted_cons in Hs2 as [Hz _]. constructor; [done|].
    eapply Forall_impl; [exact Hz|]. intros w Hw. simpl in Hw. lra.
Qed.

Lemma sorted_stable l x y :
  before l x y → ts y <= ts x → before (sorted l) x y.
Proof.
  intros (pre & post & -> & Hx) Hle.
  induction pre as [|a pre IH]; [by apply not_elem_of_nil in Hx|].
  simpl. apply elem_of_cons in Hx as [->|Hx].
  - destruct (sorted_insert_split T older a (sorted (pre ++ y :: post)))
      as (l1 & l2 & -> & Heq & Hl1 & _).
    assert (y ∈ l1 ++ l2) as [Hy|Hy]%elem_of_app.
    { rewrite <- Heq, sorted_perm. apply elem_of_app. right. left. }
    + rewrite Forall_forall in Hl1. apply Hl1, Qlt_bool_iff in Hy. lra.
    + apply list_elem_of_split in Hy as (m1 & m2 & ->).
      exists (l1 ++ a :: m1), m2. split; [by rewrite <- (assoc_L (++))|].
      apply elem_of_app. right. left.
  - by apply sorted_insert_before, IH.
Qed.

Lemma sorted_nodes_perm : sorted_nodes T true ≡ₚ preorder T.
Proof. apply sorted_perm. Qed.

Lemma sorted_nodes_elem v : v ∈ sorted_nodes T true ↔ v ∈ preorder T.
Proof. by rewrite sorted_nodes_perm. Qed.

Lemma sorted_nodes_NoDup : NoDup (sorted_nodes T true).
Proof. rewrite sorted_nodes_perm. apply preorder_NoDup. Qed.

(** The nodes still to come are not older than the node at hand. *)
Lemma sorted_nodes_descending done u todo w :
  sorted_nodes T true = done ++ u :: todo → w ∈ todo → ts w <= ts u.
Proof.
  intros Heq Hw. pose proof (sorted_descending (preorder T)) as Hs.
  change (sorted (preorder T)) with (sorted_nodes T true) in Hs.
  rewrite Heq in Hs. apply StronglySorted_app_1_r, StronglySorted_cons in Hs as [Hall _].
  rewrite Forall_forall in Hall. by apply Hall.
Qed.

(** A parent that is not younger than its child is processed first. *)
Lemma sorted_nodes_parent_first u v :
  (u, v) ∈ edges T → ts v <= ts u → before (sorted_nodes T true) u v.
Proof.
  intros [Hv Hu]%edges_elem Hle. apply sorted_stable; [|done].
  by apply preorder_parent_before.
Qed.
End sorted_nodes_facts.

(** ** Histories *)

Section history_facts.
Local Open Scope Q_scope.

Lemma first_time_app h x t : h ≠ [] → first_time (h ++ x) t = first_time h t.
Proof. by destruct h as [|[]]. Qed.

Lemma descending_pos h t_end tr : descending h t_end = true → tr ∈ h → 0 < tr.2.
Proof.
  induction h as [|[t r] h IH]; simpl; [by intros _ ?%not_elem_of_nil|].
  rewrite !andb_true_iff, Qlt_bool_iff. intros [[_ Hr] Hd] [->|Hin]%elem_of_cons; [done|].
  by apply IH.
Qed.

Lemma descending_app h t_end t r :
  descending h t_end = true → Forall (λ tr, t <= tr.1) h → t_end <= t → 0 < r →
  descending (h ++ [(t, r)]) t_end = true.
Proof.
  intros Hd Hall Hend Hr. induction h as [|[t0 r0] h IH]; simpl.
  - rewrite !andb_true_iff, Qle_bool_iff, Qlt_bool_iff. done.
  - simpl in Hd. rewrite !andb_true_iff in Hd. destruct Hd as [[Hle Hr0] Hd].
    apply Forall_cons in Hall as [Ht0 Hall]. simpl in Ht0.
    rewrite !andb_true_iff. split_and!; [|done|by apply IH].
    destruct h as [|[t1 r1] h]; simpl; [by apply Qle_bool_iff|done].
Qed.

Lemma last_elem {A} (l : list A) (x : A) : last l = Some x → x ∈ l.
Proof.
  intros Hl. apply last_Some in Hl as [l' ->]. apply elem_of_app. right. left.
Qed.
End history_facts.

(** ** Removing a node from a list *)

Lemma list_remove_Ok (u : ref) (l l' : list ref) :
  list_remove u l = Ok l' →
  u ∈ l ∧ (∀ x, x ∈ l' → x ∈ l) ∧ (NoDup l → NoDup l' ∧ u ∉ l').
Proof.
  revert l'. induction l as [|y l IH]; intros l'; simpl; [done|].
  destruct (decide (u = y)) as [->|Hne].
  - intros [= ->]. split_and!; [left|by right|].
    intros [??]%NoDup_cons. done.
  - destruct (list_remove u l) as [l''|e] eqn:E; [|done]. simpl. intros [= <-].
    destruct (IH l'' eq_refl) as (Hin & Hsub & Hnd). split_and!.
    + by right.
    + intros x [->|Hx]%elem_of_cons; [left|right; by apply Hsub].
    + intros [Hy Hl]%NoDup_cons. destruct (Hnd Hl) as [Hnd' Hu]. split.
      * apply NoDup_cons. split; [|done]. intros Hy'. by apply Hy, Hsub.
      * by intros [?|?]%elem_of_cons.
Qed.

(** ** Preservation of the invariants by the updates of the dictionaries *)

Section invariant_updates.
Variables (T S_tree : TreeNode).
Local Open Scope Q_scope.

Local Abbreviation ts := (attr_at tstamp 0 T).
Local Abbreviation ev := (attr_at event None T).

Lemma rates_inv_weaken act act' b b' rs :
  rates_inv T act b rs → (∀ p, p ∈ act → p ∈ act') → b' <= b →
  rates_inv T act' b' rs.
Proof.
  intros Hinv Hact Hb p v He. destruct (Hinv p v He) as (h & Hh & Hd & Hall & Hf & He').
  exists h. split; [done|]. split_and!; [done| |done|].
  - eapply Forall_impl; [exact Hall|]. intros tr Htr. simpl in Htr. lra.
  - intros Hp. apply He'. intros Hp'. by apply Hp, Hact.
Qed.

Lemma rates_inv_append act b rs p v h r :
  rates_inv T act b rs → (p, v) ∈ edges T → rs !! (p, v) = Some h →
  p ∈ act → (h = [] → b = ts p) → ts v <= b → 0 < r →
  rates_inv T act b (<[(p, v) := h ++ [(b, r)]]> rs).
Proof.
  intros Hinv He Hh Hp Hfirst Hv Hr p' v' He'.
  destruct (decide ((p, v) = (p', v'))) as [[= <- <-]|Hne].
  - exists (h ++ [(b, r)]). split; [apply lookup_insert_eq|].
    destruct (Hinv p v He) as (h' & Hh' & Hd & Hall & Hf & _).
    assert (h' = h) as -> by congruence. split_and!.
    + apply descending_app; [done| |done..].
      eapply Forall_impl; [exact Hall|]. done.
    + apply Forall_app. split; [done|]. constructor; [simpl; lra|constructor].
    + destruct h as [|[t0 r0] h]; [|done]. simpl. by apply Hfirst.
    + done.
  - rewrite lookup_insert_ne by done. by apply Hinv.
Qed.

Lemma rates_filled_append done rs e h x :
  rates_filled T done rs → rs !! e = Some h →
  rates_filled T done (<[e := h ++ [x]]> rs).
Proof.
  intros Hinv Hh p v h' He Hp Hadd Hh'.
  destruct (decide (e = (p, v))) as [->|Hne].
  - rewrite lookup_insert_eq in Hh'. injection Hh' as <-. by destruct h.
  - rewrite lookup_insert_ne in Hh' by done. by eapply Hinv.
Qed.

Lemma counter_inv_rates_append done rs gc e h x :
  counter_inv T S_tree done rs gc → rs !! e = Some h →
  counter_inv T S_tree done (<[e := h ++ [x]]> rs) gc.
Proof.
  intros Hinv Hh c l Hl. destruct (Hinv c l Hl) as [Hnd Hall]. split; [done|].
  intros v Hv. destruct (Hall v Hv) as (p & h' & He & Hh' & Hne & Hk & Hd).
  destruct (decide (e = (p, v))) as [->|Hne'].
  - exists p, (h ++ [x]). split_and!; [done|apply lookup_insert_eq|by destruct h|done..].
  - exists p, h'. split_and!; [done| |done..]. by rewrite lookup_insert_ne.
Qed.

Lemma counter_inv_remove done rs gc c u l l' :
  counter_inv T S_tree done rs gc → gc !! c = Some l → list_remove u l = Ok l' →
  counter_inv T S_tree done rs (<[c := l']> gc) ∧
  ∀ c' l'', <[c := l']> gc !! c' = Some l'' → u ∉ l''.
Proof.
  intros Hinv Hl Hrm.
  destruct (list_remove_Ok u l l' Hrm) as (Hu & Hsub & Hnd).
  destruct (Hinv c l Hl) as [Hndl Hall]. destruct (Hnd Hndl) as [Hndl' Hul'].
  split.
  - intros c' l'' Hl''. destruct (decide (c = c')) as [<-|Hne].
    + rewrite lookup_insert_eq in Hl''. injection Hl'' as <-. split; [done|].
      intros v Hv. by apply Hall, Hsub.
    + rewrite lookup_insert_ne in Hl'' by done. by apply Hinv.
  - intros c' l'' Hl''. destruct (decide (c = c')) as [<-|Hne].
    + rewrite lookup_insert_eq in Hl''. by injection Hl'' as <-.
    + rewrite lookup_insert_ne in Hl'' by done. intros Hu'.
      destruct (Hinv c' l'' Hl'') as [_ Hall'].
      destruct (Hall u Hu) as (_ & _ & _ & _ & _ & Hk & _).
      destruct (Hall' u Hu') as (_ & _ & _ & _ & _ & Hk' & _). congruence.
Qed.

Lemma counter_inv_add_child done rs gc key l p v x :
  counter_inv T S_tree done rs gc → gc !! key = Some l → rs !! (p, v) = Some [] →
  (p, v) ∈ edges T → counter_key T S_tree v = Some key →
  (v ∈ done → leaves_counter (ev v) = false) →
  counter_inv T S_tree done (<[(p, v) := [] ++ [x]]> rs) (<[key := l ++ [v]]> gc).
Proof.
  intros Hinv Hl Hh He Hk Hdone.
  assert (∀ c' l', gc !! c' = Some l' → v ∉ l') as Hfresh.
  { intros c' l' Hl' Hv. destruct (Hinv c' l' Hl') as [_ Hall].
    destruct (Hall v Hv) as (p' & h' & He' & Hh' & Hne & _).
    apply edges_elem in He as [_ Hp], He' as [_ Hp'].
    assert (p' = p) as -> by congruence. congruence. }
  assert (∀ c' l' w, gc !! c' = Some l' → w ∈ l' →
    ∃ p' h', (p', w) ∈ edges T ∧ <[(p, v) := [] ++ [x]]> rs !! (p', w) = Some h' ∧
             h' ≠ [] ∧ counter_key T S_tree w = Some c' ∧
             (w ∈ done → leaves_counter (ev w) = false)) as Hold.
  { intros c' l' w Hl' Hw. destruct (Hinv c' l' Hl') as [_ Hall].
    destruct (Hall w Hw) as (p' & h' & He' & Hh' & Hne & Hk' & Hd').
    exists p', h'. split_and!; [done| |done..].
    rewrite lookup_insert_ne; [done|]. intros [= -> ->]. by eapply Hfresh. }
  intros c' l' Hl'. destruct (decide (key = c')) as [<-|Hne].
  - rewrite lookup_insert_eq in Hl'. injection Hl' as <-.
    destruct (Hinv key l Hl) as [Hnd _]. split.
    + apply NoDup_app. split_and!; [done| |apply NoDup_singleton].
      intros w Hw ->%list_elem_of_singleton. by eapply Hfresh.
    + intros w [Hw|Hw]%elem_of_app; [by eapply Hold|].
      apply list_elem_of_singleton in Hw as ->.
      exists p, ([] ++ [x]). split_and!; [done|apply lookup_insert_eq|done..].
  - rewrite lookup_insert_ne in Hl' by done.
    destruct (Hinv c' l' Hl') as [Hnd _]. split; [done|].
    intros w Hw. by eapply Hold.
Qed.
End invariant_updates.

(** ** The steps of [process_node], read backwards *)

Lemma counter_append_inv c v st st' :
  counter_append c v st = Ok st' →
  ∃ l, gene_counter st !! c = Some l ∧ st' = set_gene_counter <[c := l ++ [v]]> st.
Proof.
  unfold counter_append. intros (l & Hl%getitem_Ok & [= <-])%bind_Ok. eauto.
Qed.

Lemma counter_remove_inv c u st st' :
  counter_remove c u st = Ok st' →
  ∃ l l', gene_counter st !! c = Some l ∧ list_remove u l = Ok l' ∧
          st' = set_gene_counter <[c := l']> st.
Proof.
  unfold counter_remove. intros (l & Hl%getitem_Ok & Hrest)%bind_Ok.
  apply bind_Ok in Hrest as (l' & Hrm & [= <-]). eauto.
Qed.

Lemma rates_append_inv e x st st' :
  rates_append e x st = Ok st' →
  ∃ h, rates st !! e = Some h ∧ st' = set_rates <[e := h ++ [x]]> st.
Proof.
  unfold rates_append. intros (h & Hh%getitem_Ok & [= <-])%bind_Ok. eauto.
Qed.

Lemma new_rate_inv `{Numpy} sampler v st r st' :
  new_rate sampler v st = Ok (r, st') →
  rates st' = rates st ∧ gene_counter st' = gene_counter st ∧
  (r = 1%Q ∨ r = draw sampler (calls st)).
Proof.
  unfold new_rate. intros ([] & _ & [= <- <-])%bind_Ok; eauto.
Qed.

Lemma parent_neq (u v : ref) : parent v = Some u → v ≠ u.
Proof.
  destruct v as [|i v]; [done|]. intros [= <-] Heq.
  apply (f_equal length) in Heq. simpl in Heq. lia.
Qed.

Section node_steps.
Context `{Numpy} (T S_tree : TreeNode) (sampler : Sampler) (CSN_weights : list Q).
Hypothesis Hwf : well_formed T S_tree = true.
Hypothesis Hdraw : ∀ k, (0 < draw sampler k)%Q.
Local Open Scope Q_scope.

Local Abbreviation ts := (attr_at tstamp 0 T).
Local Abbreviation ev := (attr_at event None T).
Local Abbreviation col := (attr_at color (Single 0) T).

Lemma well_formed_edges u v :
  (u, v) ∈ edges T → ts v <= ts u ∧ adds_children (ev u) = true.
Proof.
  intros He. unfold well_formed in Hwf. apply andb_true_iff in Hwf as [Hwe _].
  rewrite forallb_forall in Hwe. apply list_elem_of_In, Hwe in He.
  unfold well_formed_edge in He. apply andb_true_iff in He as [Hle Hadd].
  by apply Qle_bool_iff in Hle.
Qed.

Lemma well_formed_losses w v :
  w ∈ preorder T → v ∈ preorder T → ev w = Some "L"%string →
  counter_key T S_tree v = Some (col w) → leaves_counter (ev v) = false →
  ts v <= ts w.
Proof.
  intros Hw Hv Hev Hk Hlc. unfold well_formed in Hwf.
  apply andb_true_iff in Hwf as [_ Hwl]. rewrite forallb_forall in Hwl.
  apply list_elem_of_In, Hwl in Hw. rewrite forallb_forall in Hw.
  apply list_elem_of_In, Hw in Hv. unfold well_formed_loss in Hv.
  rewrite Hlc, orb_false_r in Hv.
  rewrite (bool_decide_eq_true_2 _ Hev), (bool_decide_eq_true_2 _ Hk) in Hv.
  by apply Qle_bool_iff in Hv.
Qed.

Lemma new_rate_pos v st r st' : new_rate sampler v st = Ok (r, st') → 0 < r.
Proof. intros (_ & _ & [->| ->])%new_rate_inv; [reflexivity|apply Hdraw]. Qed.

(** A child [v] of [u] is given its key and its first rate. *)
Lemma node_inv_add_child done u st st' v key l r :
  node_inv T S_tree done u st →
  (u, v) ∈ edges T → v ∉ done →
  rates st !! (u, v) = Some [] → gene_counter st !! key = Some l →
  counter_key T S_tree v = Some key → 0 < r →
  rates st' = <[(u, v) := [] ++ [(ts u, r)]]> (rates st) →
  gene_counter st' = <[key := l ++ [v]]> (gene_counter st) →
  node_inv T S_tree done u st'.
Proof.
  intros (Hr & Hf & Hc) He Hv Hh Hl Hk Hpos Hrs Hgc.
  destruct (well_formed_edges u v He) as [Hle _].
  unfold node_inv. rewrite Hrs, Hgc. split_and!.
  - apply rates_inv_append; [done..| |done|done|done].
    apply elem_of_app. right. left.
  - by apply rates_filled_append.
  - apply counter_inv_add_child; [done..|].
    intros [?|Hu%list_elem_of_singleton]%elem_of_app; [done|].
    apply edges_elem in He as [_ Hp]. by apply parent_neq in Hp.
Qed.

Lemma edge_parent_elem u v : (u, v) ∈ edges T → u ∈ preorder T.
Proof.
  intros [Hv Hp]%edges_elem.
  destruct (preorder_parent_before T v u Hv Hp) as (pre & post & -> & Hu).
  apply elem_of_app. by left.
Qed.

(** The children of [u] come after [u] in [T_nodes]. *)
Lemma child_not_done done u todo v :
  sorted_nodes T true = done ++ u :: todo → (u, v) ∈ edges T → v ∉ done.
Proof.
  intros Heq He Hv.
  destruct (well_formed_edges u v He) as [Hle _].
  destruct (sorted_nodes_parent_first T u v He Hle) as (pre & post & Heq' & Hu).
  pose proof (sorted_nodes_NoDup T) as Hnd.
  apply list_elem_of_lookup in Hu as [i Hi]. apply list_elem_of_lookup in Hv as [j Hj].
  pose proof (lookup_lt_Some _ _ _ Hi) as Hilt.
  pose proof (lookup_lt_Some _ _ _ Hj) as Hjlt.
  assert (sorted_nodes T true !! i = Some u) as Hi'.
  { rewrite Heq'. by rewrite lookup_app_l. }
  assert (sorted_nodes T true !! length done = Some u) as Hu'.
  { rewrite Heq. by rewrite list_lookup_middle. }
  assert (sorted_nodes T true !! j = Some v) as Hj'.
  { rewrite Heq. by rewrite lookup_app_l. }
  assert (sorted_nodes T true !! length pre = Some v) as Hv'.
  { rewrite Heq'. by rewrite list_lookup_middle. }
  pose proof (NoDup_lookup _ _ _ _ Hnd Hi' Hu').
  pose proof (NoDup_lookup _ _ _ _ Hnd Hj' Hv'). lia.
Qed.

Lemma node_not_done done u todo :
  sorted_nodes T true = done ++ u :: todo → u ∉ done.
Proof.
  intros Heq Hu. pose proof (sorted_nodes_NoDup T) as Hnd. rewrite Heq in Hnd.
  apply NoDup_app in Hnd as (_ & Hnd & _). apply (Hnd u Hu). left.
Qed.

(** Before [u] is processed its children have no rate. *)
Lemma children_rates_empty done u todo b st v :
  sorted_nodes T true = done ++ u :: todo → loop_inv T S_tree done b st →
  (u, v) ∈ edges T → rates st !! (u, v) = Some [].
Proof.
  intros Heq (Hr & _ & _) He. destruct (Hr u v He) as (h & Hh & _ & _ & _ & Hempty).
  rewrite Hh, Hempty; [done|]. by eapply node_not_done.
Qed.

(** Entering the pass for [u]. *)
Lemma counter_inv_extend done u rs gc :
  counter_inv T S_tree done rs gc →
  leaves_counter (ev u) = false ∨ (∀ c l, gc !! c = Some l → u ∉ l) →
  counter_inv T S_tree (done ++ [u]) rs gc.
Proof.
  intros Hc Hu c l Hl. destruct (Hc c l Hl) as [Hnd Hall]. split; [done|].
  intros v Hv. destruct (Hall v Hv) as (p & h & He & Hh & Hne & Hk & Hd).
  exists p, h. split_and!; [done..|].
  intros [Hin| ->%list_elem_of_singleton]%elem_of_app; [by apply Hd|].
  destruct Hu as [Hu|Hu]; [done|]. by destruct (Hu c l Hl).
Qed.

Lemma rates_inv_enter done u b rs :
  rates_inv T done b rs → ts u <= b → rates_inv T (done ++ [u]) (ts u) rs.
Proof.
  intros Hr Hle. eapply rates_inv_weaken; [done| |done].
  intros p Hp. apply elem_of_app. by left.
Qed.

(** Leaving the pass for [u]. *)
Lemma node_inv_leave done u st :
  node_inv T S_tree done u st →
  (adds_children (ev u) = true →
   ∀ v h, (u, v) ∈ edges T → rates st !! (u, v) = Some h → h ≠ []) →
  loop_inv T S_tree (done ++ [u]) (ts u) st.
Proof.
  intros (Hr & Hf & Hc) Hu. split_and!; [done| |done].
  intros p v h He [Hp| ->%list_elem_of_singleton]%elem_of_app Hadd Hh.
  - by eapply Hf.
  - by eapply Hu.
Qed.

(** The loop over the children of [u]: each step gives the child its key
    and its first rate. *)
Lemma for_children_inv (body : RateState → ref → Result RateState) done u vs :
  (∀ st v st', body st v = Ok st' → (u, v) ∈ edges T →
     ∃ key l r h,
       gene_counter st !! key = Some l ∧ counter_key T S_tree v = Some key ∧ 0 < r ∧
       rates st !! (u, v) = Some h ∧
       rates st' = <[(u, v) := h ++ [(ts u, r)]]> (rates st) ∧
       gene_counter st' = <[key := l ++ [v]]> (gene_counter st)) →
  NoDup vs → (∀ v, v ∈ vs → (u, v) ∈ edges T ∧ v ∉ done) →
  ∀ st st', for_children body st vs = Ok st' →
    node_inv T S_tree done u st → (∀ v, v ∈ vs → rates st !! (u, v) = Some []) →
    node_inv T S_tree done u st' ∧
    (∀ e h, rates st !! e = Some h → h ≠ [] → ∃ h', rates st' !! e = Some h' ∧ h' ≠ []) ∧
    (∀ v, v ∈ vs → ∃ h, rates st' !! (u, v) = Some h ∧ h ≠ []).
Proof.
  intros Hbody Hnd Hvs. induction vs as [|v vs IH]; intros st st' Hrun Hinv Hempty.
  { injection Hrun as <-. split_and!; [done|eauto|]. by intros v ?%not_elem_of_nil. }
  simpl in Hrun. apply bind_Ok in Hrun as (st1 & Hstep & Hrun).
  apply NoDup_cons in Hnd as [Hv Hnd].
  destruct (Hvs v) as [He Hvd]; [left|].
  destruct (Hbody _ _ _ Hstep He) as (key & l & r & h & Hl & Hk & Hr & Hh & Hrs & Hgc).
  assert (h = []) as -> by (rewrite Hempty in Hh; [congruence|left]).
  assert (node_inv T S_tree done u st1) as Hinv1 by (by eapply node_inv_add_child).
  destruct (IH Hnd) with (st := st1) (st' := st') as (Hinv' & Hkeep & Hfill); [| | | |].
  - intros w Hw. apply Hvs. by right.
  - done.
  - done.
  - intros w Hw. rewrite Hrs, lookup_insert_ne; [apply Hempty; by right|].
    intros [= ->]. done.
  - assert (∀ e h, rates st !! e = Some h → h ≠ [] →
              ∃ h', rates st1 !! e = Some h' ∧ h' ≠ []) as Hkeep1.
    { intros e h0 Hh0 Hne. rewrite Hrs. destruct (decide (e = (u, v))) as [->|Hneq].
      - rewrite lookup_insert_eq. eexists. split; [done|]. simpl. done.
      - rewrite lookup_insert_ne by done. eauto. }
    split_and!; [done| |].
    + intros e h0 Hh0 Hne. destruct (Hkeep1 e h0 Hh0 Hne) as (h1 & Hh1 & Hne1). eauto.
    + intros w [->|Hw]%elem_of_cons; [|by apply Hfill].
      apply (Hkeep (u, v) [(ts u, r)]); [|done]. rewrite Hrs. by rewrite lookup_insert_eq.
Qed.

Lemma is_speciation_stays e : is_speciation e = true → leaves_counter e = false.
Proof.
  unfold is_speciation. intros [->|[->| ->]]%bool_decide_eq_true; reflexivity.
Qed.

Lemma node_inv_enter done u b st st1 :
  loop_inv T S_tree done b st → ts u <= b → rates st1 = rates st →
  (gene_counter st1 = gene_counter st ∧ leaves_counter (ev u) = false) ∨
  (∃ l l', gene_counter st !! col u = Some l ∧ list_remove u l = Ok l' ∧
           gene_counter st1 = <[col u := l']> (gene_counter st)) →
  node_inv T S_tree done u st1.
Proof.
  intros (Hr & Hf & Hc) Hle Hrs Hgc. unfold node_inv. rewrite Hrs. split_and!.
  - by apply rates_inv_enter with b.
  - done.
  - destruct Hgc as [[-> Hlc]|(l & l' & Hl & Hrm & ->)].
    + apply counter_inv_extend; [done|by left].
    + destruct (counter_inv_remove T S_tree done _ _ _ _ _ _ Hc Hl Hrm) as [Hc' Hu].
      apply counter_inv_extend; [done|by right].
Qed.

Lemma speciation_child_step u st v st' :
  speciation_child T sampler u st v = Ok st' → is_speciation (ev u) = true →
  (u, v) ∈ edges T →
  ∃ key l r h,
    gene_counter st !! key = Some l ∧ counter_key T S_tree v = Some key ∧ 0 < r ∧
    rates st !! (u, v) = Some h ∧
    rates st' = <[(u, v) := h ++ [(ts u, r)]]> (rates st) ∧
    gene_counter st' = <[key := l ++ [v]]> (gene_counter st).
Proof.
  unfold speciation_child. cbv zeta.
  intros (m & Hm & Hrun)%bind_Ok Hsp [Hv Hp]%edges_elem.
  apply bind_Ok in Hrun as (key & Hkey & Hrun).
  apply bind_Ok in Hrun as (st1 & (l & Hl & ->)%counter_append_inv & Hrun).
  apply bind_Ok in Hrun as ([r st2] & Hnr & Hrun).
  pose proof (new_rate_pos _ _ _ _ Hnr) as Hr.
  apply new_rate_inv in Hnr as (Hrs & Hgc & _).
  apply rates_append_inv in Hrun as (h & Hh & ->).
  exists key, l, r, h. rewrite Hrs in Hh. simpl in *. rewrite Hrs, Hgc. split_and!; try done.
  unfold counter_key. rewrite Hp. cbv zeta. rewrite Hsp, Hkey. done.
Qed.

Lemma duplication_child_step u st v st' :
  duplication_child T sampler u st v = Ok st' → ev u = Some "D"%string →
  (u, v) ∈ edges T →
  ∃ key l r h,
    gene_counter st !! key = Some l ∧ counter_key T S_tree v = Some key ∧ 0 < r ∧
    rates st !! (u, v) = Some h ∧
    rates st' = <[(u, v) := h ++ [(ts u, r)]]> (rates st) ∧
    gene_counter st' = <[key := l ++ [v]]> (gene_counter st).
Proof.
  unfold duplication_child. cbv zeta.
  intros (st1 & (l & Hl & ->)%counter_append_inv & Hrun)%bind_Ok Hev [Hv Hp]%edges_elem.
  apply bind_Ok in Hrun as ([r st2] & Hnr & Hrun).
  pose proof (new_rate_pos _ _ _ _ Hnr) as Hr.
  apply new_rate_inv in Hnr as (Hrs & Hgc & _).
  apply rates_append_inv in Hrun as (h & Hh & ->).
  exists (col u), l, r, h. rewrite Hrs in Hh. simpl in *. rewrite Hrs, Hgc.
  split_and!; try done.
  unfold counter_key. rewrite Hp. cbv zeta. rewrite Hev. reflexivity.
Qed.

(** The loop over the children of a speciation or duplication node. *)
Lemma children_loop_inv (body : RateState → ref → Result RateState) done u todo st st' :
  (∀ st v st', body st v = Ok st' → (u, v) ∈ edges T →
     ∃ key l r h,
       gene_counter st !! key = Some l ∧ counter_key T S_tree v = Some key ∧ 0 < r ∧
       rates st !! (u, v) = Some h ∧
       rates st' = <[(u, v) := h ++ [(ts u, r)]]> (rates st) ∧
       gene_counter st' = <[key := l ++ [v]]> (gene_counter st)) →
  sorted_nodes T true = done ++ u :: todo →
  node_inv T S_tree done u st →
  (∀ v, (u, v) ∈ edges T → rates st !! (u, v) = Some []) →
  for_children body st (children T u) = Ok st' →
  loop_inv T S_tree (done ++ [u]) (ts u) st'.
Proof.
  intros Hbody Heq Hinv Hempty Hrun.
  destruct (for_children_inv body done u (children T u) Hbody) with (st := st) (st' := st')
    as (Hinv' & _ & Hfill).
  - apply children_NoDup.
  - intros v Hv%children_edges. split; [done|]. by eapply child_not_done.
  - done.
  - done.
  - intros v Hv%children_edges. by apply Hempty.
  - apply node_inv_leave; [done|]. intros _ v h Hv%children_edges Hh.
    destruct (Hfill v Hv) as (h' & Hh' & Hne). congruence.
Qed.

Lemma speciation_inv done u todo st st' b :
  sorted_nodes T true = done ++ u :: todo → ts u <= b →
  loop_inv T S_tree done b st → is_speciation (ev u) = true →
  speciation T sampler u st = Ok st' →
  loop_inv T S_tree (done ++ [u]) (ts u) st'.
Proof.
  intros Heq Hle Hinv Hsp Hrun. unfold speciation in Hrun.
  eapply children_loop_inv; [| done | | | done].
  - intros st0 v st0' Hstep He. by eapply speciation_child_step.
  - eapply node_inv_enter; [done..|]. left. split; [done|]. by apply is_speciation_stays.
  - intros v He. by eapply children_rates_empty.
Qed.

Lemma duplication_inv done u todo st st' b :
  sorted_nodes T true = done ++ u :: todo → ts u <= b →
  loop_inv T S_tree done b st → ev u = Some "D"%string →
  duplication T sampler CSN_weights u st = Ok st' →
  loop_inv T S_tree (done ++ [u]) (ts u) st'.
Proof.
  intros Heq Hle Hinv Hev Hrun. unfold duplication in Hrun. cbv zeta in Hrun.
  apply bind_Ok in Hrun as (m & Hm & Hrun).
  destruct (_duplication_type m CSN_weights (calls st)) as [[m0 m1] k].
  destruct (children T u) as [|c0 [|c1 cs]] eqn:Hcs; [done..|].
  apply bind_Ok in Hrun as (st1 & (l & l' & Hl & Hrm & ->)%counter_remove_inv & Hrun).
  simpl in Hl. rewrite <- Hcs in Hrun.
  eapply children_loop_inv; [| done | | | done].
  - intros st0 v st0' Hstep He. by eapply duplication_child_step.
  - eapply node_inv_enter; [done..|]. right. by exists l, l'.
  - intros v He. simpl. by eapply children_rates_empty.
Qed.

Lemma loss_inv done u todo st st' b :
  sorted_nodes T true = done ++ u :: todo → ts u <= b →
  loop_inv T S_tree done b st → ev u = Some "L"%string →
  loss T u st = Ok st' →
  loop_inv T S_tree (done ++ [u]) (ts u) st'.
Proof.
  intros Heq Hle Hinv Hev Hrun. unfold loss in Hrun. cbv zeta in Hrun.
  apply bind_Ok in Hrun as (st1 & (l & l' & Hl & Hrm & ->)%counter_remove_inv & Hrun).
  assert (node_inv T S_tree done u (set_gene_counter <[col u := l']> st)) as Hn.
  { eapply node_inv_enter; [done..|]. right. by exists l, l'. }
  assert (adds_children (ev u) = false) as Hadd by (rewrite Hev; reflexivity).
  assert (∀ st2, node_inv T S_tree done u st2 →
                 loop_inv T S_tree (done ++ [u]) (ts u) st2) as Hleave.
  { intros st2 H2. apply node_inv_leave; [done|]. rewrite Hadd. done. }
  apply bind_Ok in Hrun as (l1 & Hl1%getitem_Ok & Hrun).
  destruct l1 as [|v [|? ?]];
    [injection Hrun as <-; by apply Hleave| |injection Hrun as <-; by apply Hleave].
  apply bind_Ok in Hrun as (m & Hm & Hrun).
  destruct m; [injection Hrun as <-; by apply Hleave|].
  destruct (parent v) as [p|] eqn:Hp; [|done].
  apply rates_append_inv in Hrun as (h & Hh & ->).
  apply Hleave. destruct Hn as (Hr & Hf & Hc). simpl in *.
  destruct (Hc _ _ Hl1) as [_ Hall].
  destruct (Hall v) as (p' & h' & He & Hh' & Hne & Hk & Hd); [left|].
  assert (p' = p) as -> by (apply edges_elem in He as [_ ?]; congruence).
  assert (h' = h) as -> by congruence.
  unfold node_inv; simpl. split_and!.
  - apply rates_inv_append; try done.
    + destruct (Hr p v He) as (h0 & Hh0 & _ & _ & _ & Hact).
      destruct (decide (p ∈ done ++ [u])) as [|Hnot]; [done|].
      rewrite Hh in Hh0. injection Hh0 as <-. destruct Hne. by apply Hact.
    + pose proof He as [Hv _]%edges_elem.
      destruct (decide (v ∈ done ++ [u])) as [Hin|Hnot].
      * apply well_formed_losses; try done; [|by apply Hd].
        apply sorted_nodes_elem. rewrite Heq. apply elem_of_app. right. left.
      * apply sorted_nodes_elem in Hv. rewrite Heq in Hv.
        apply elem_of_app in Hv as [Hv|Hv].
        { destruct Hnot. apply elem_of_app. by left. }
        apply elem_of_cons in Hv as [->|Hv].
        { destruct Hnot. apply elem_of_app. right. left. }
        by eapply sorted_nodes_descending.
  - by apply rates_filled_append.
  - by apply counter_inv_rates_append.
Qed.

Lemma hgt_inv done u todo st st' b :
  sorted_nodes T true = done ++ u :: todo → ts u <= b →
  loop_inv T S_tree done b st → ev u = Some "H"%string →
  hgt T S_tree sampler u st = Ok st' →
  loop_inv T S_tree (done ++ [u]) (ts u) st'.
Proof.
  intros Heq Hle Hinv Hev Hrun. unfold hgt in Hrun. cbv zeta in Hrun.
  destruct (children T u) as [|c1 [|c2 [|? ?]]] eqn:Hcs; try done.
  assert (hgt_children T u =
          Some (if attr_at transferred false T c1 then (c2, c1) else (c1, c2))) as Hhc.
  { unfold hgt_children. by rewrite Hcs. }
  assert (c1 ≠ c2) as Hne12.
  { pose proof (children_NoDup T u) as Hnd. rewrite Hcs in Hnd.
    apply NoDup_cons in Hnd as [Hnd _]. intros ->. apply Hnd. left. }
  assert (∀ v, (u, v) ∈ edges T ↔ v = c1 ∨ v = c2) as Hch.
  { intros v. rewrite <- children_edges, Hcs, !elem_of_cons, elem_of_nil. tauto. }
  remember (if attr_at transferred false T c1 then (c2, c1) else (c1, c2)) as vv eqn:Hvv.
  destruct vv as [v1 v2].
  assert ((u, v1) ∈ edges T ∧ (u, v2) ∈ edges T ∧ v1 ≠ v2 ∧
          ∀ v, (u, v) ∈ edges T → v = v1 ∨ v = v2) as (He1 & He2 & Hne & Hall).
  { destruct (attr_at transferred false T c1); injection Hvv as -> ->.
    - split_and!; [apply Hch; by right|apply Hch; by left|done|].
      intros v [->| ->]%Hch; [by right|by left].
    - split_and!; [apply Hch; by left|apply Hch; by right|done|].
      intros v Hv%Hch. done. }
  clear Hvv Hch Hne12.
  apply bind_Ok in Hrun as (m & Hm & Hrun).
  apply bind_Ok in Hrun as (st1 & (l & l' & Hl & Hrm & ->)%counter_remove_inv & Hrun).
  simpl in Hl.
  remember (set_gene_counter <[col u := l']> (set_marked <[v1 := m]> st)) as st1 eqn:Hst1.
  assert (rates st1 = rates st) as Hrs1 by (by rewrite Hst1).
  assert (node_inv T S_tree done u st1) as Hn1.
  { eapply node_inv_enter; [done..|]. right. exists l, l'. by rewrite Hst1. }
  clear Hst1.
  assert (∀ v, (u, v) ∈ edges T → rates st1 !! (u, v) = Some []) as Hempty.
  { intros v Hv. rewrite Hrs1. by eapply children_rates_empty. }
  apply bind_Ok in Hrun as (st2 & (l1 & Hl1 & ->)%counter_append_inv & Hrun).
  apply bind_Ok in Hrun as (st3 & Hst3 & Hrun).
  assert (∃ r1, 0 < r1 ∧ rates st3 = <[(u, v1) := [] ++ [(ts u, r1)]]> (rates st1) ∧
            gene_counter st3 = <[col u := l1 ++ [v1]]> (gene_counter st1))
    as (r1 & Hr1 & Hrs3 & Hgc3).
  { destruct (parent u) as [p|] eqn:Hp.
    - apply bind_Ok in Hst3 as (h1 & Hh1%getitem_Ok & Hst3).
      apply bind_Ok in Hst3 as (hu & Hhu%getitem_Ok & Hst3).
      destruct (last hu) as [tr|] eqn:Hlast; [|done].
      apply rates_append_inv in Hst3 as (h1' & Hh1' & ->).
      exists tr.2. simpl in Hh1', Hhu. rewrite (Hempty v1 He1) in Hh1'.
      injection Hh1' as <-. split; [|done].
      destruct Hn1 as (Hr & _ & _). destruct (Hr p u) as (hu' & Hhu' & Hdesc & _).
      { apply edges_elem. split; [|done]. apply sorted_nodes_elem. rewrite Heq.
        apply elem_of_app. right. left. }
      assert (hu' = hu) as -> by congruence.
      eapply descending_pos; [done|]. by apply last_elem.
    - apply bind_Ok in Hst3 as ([r st2'] & Hnr & Hst3).
      pose proof (new_rate_pos _ _ _ _ Hnr) as Hr.
      apply new_rate_inv in Hnr as (Hrs2 & Hgc2 & _).
      apply rates_append_inv in Hst3 as (h1' & Hh1' & ->).
      exists r. simpl in *. rewrite Hrs2, (Hempty v1 He1) in Hh1'.
      injection Hh1' as <-. by rewrite Hrs2, Hgc2. }
  clear Hst3.
  assert (node_inv T S_tree done u st3) as Hn3.
  { eapply (node_inv_add_child done u st1 st3 v1); try done.
    - by eapply child_not_done.
    - by apply Hempty.
    - unfold counter_key. apply edges_elem in He1 as [_ ->]. cbv zeta.
      rewrite Hev, Hhc. simpl. by rewrite decide_True. }
  apply bind_Ok in Hrun as (key & Hkey & Hrun).
  apply bind_Ok in Hrun as (st4 & (l2 & Hl2 & ->)%counter_append_inv & Hrun).
  apply bind_Ok in Hrun as ([r2 st5] & Hnr & Hrun).
  pose proof (new_rate_pos _ _ _ _ Hnr) as Hr2.
  apply new_rate_inv in Hnr as (Hrs5 & Hgc5 & _).
  apply rates_append_inv in Hrun as (h2 & Hh2 & ->).
  simpl in Hl2, Hrs5, Hgc5, Hh2.
  assert (rates st3 !! (u, v2) = Some []) as Hh2'.
  { rewrite Hrs3, lookup_insert_ne; [by apply Hempty|]. intros [= ?]. done. }
  assert (h2 = []) as -> by congruence.
  assert (node_inv T S_tree done u (set_rates <[(u, v2) := [] ++ [(ts u, r2)]]> st5)) as Hn5.
  { eapply (node_inv_add_child done u st3 _ v2 key l2 r2); try done.
    - by eapply child_not_done.
    - unfold counter_key. pose proof He2 as [_ ->]%edges_elem. cbv zeta.
      rewrite Hev, Hhc. simpl. rewrite decide_False by done. by rewrite Hkey.
    - simpl. by rewrite Hrs5. }
  apply node_inv_leave; [done|]. intros _ v h Hv Hh. simpl in Hh. rewrite Hrs5 in Hh.
  destruct (Hall v Hv) as [->| ->].
  - rewrite lookup_insert_ne in Hh by (intros [= ?]; done).
    simpl in Hh. rewrite Hrs3, lookup_insert_eq in Hh. by injection Hh as <-.
  - rewrite lookup_insert_eq in Hh. by injection Hh as <-.
Qed.

(** One pass of the loop over [T_nodes] keeps the invariant. *)
Lemma process_node_inv done u todo st st' b :
  sorted_nodes T true = done ++ u :: todo → ts u <= b →
  loop_inv T S_tree done b st →
  process_node T S_tree sampler CSN_weights st u = Ok st' →
  loop_inv T S_tree (done ++ [u]) (ts u) st'.
Proof.
  intros Heq Hle Hinv Hrun. unfold process_node in Hrun. cbv zeta in Hrun.
  change (bool_decide (ev u = Some "S"%string ∨ ev u = Some ""%string ∨ ev u = None))
    with (is_speciation (ev u)) in Hrun.
  destruct (is_speciation (ev u)) eqn:Hsp; [by eapply speciation_inv|].
  case_bool_decide as HD; [by eapply duplication_inv|].
  case_bool_decide as HL; [by eapply loss_inv|].
  case_bool_decide as HH; [by eapply hgt_inv|].
  injection Hrun as <-. apply node_inv_leave.
  - eapply node_inv_enter; [done..|]. left. split; [done|].
    unfold leaves_counter. apply bool_decide_eq_false. intros [?|[?|?]]; done.
  - unfold adds_children. rewrite Hsp. by rewrite !bool_decide_eq_false_2 by done.
Qed.

Lemma initial_state_inv k b : loop_inv T S_tree [] b (initial_state T S_tree k).
Proof.
  unfold loop_inv, initial_state. simpl. split_and!.
  - intros p v He. exists []. split.
    + destruct (list_to_map _ !! (p, v)) as [h|] eqn:Hh.
      * apply elem_of_list_to_map_2 in Hh.
        apply list_elem_of_fmap in Hh as (e & [= _ ->] & _). done.
      * apply not_elem_of_list_to_map in Hh. destruct Hh.
        rewrite <- list_fmap_compose. apply list_elem_of_fmap. by exists (p, v).
    + split_and!; [done|constructor|done|done].
  - intros p v h _ Hp. by apply not_elem_of_nil in Hp.
  - intros c l Hl. apply elem_of_list_to_map_2 in Hl.
    apply list_elem_of_fmap in Hl as (e & [= _ ->] & _). split; [constructor|].
    intros v Hv. by apply not_elem_of_nil in Hv.
Qed.

Lemma process_nodes_inv todo : ∀ done st st' b,
  sorted_nodes T true = done ++ todo → (∀ w, w ∈ todo → ts w <= b) →
  loop_inv T S_tree done b st →
  process_nodes T S_tree sampler CSN_weights st todo = Ok st' →
  ∃ b', loop_inv T S_tree (done ++ todo) b' st'.
Proof.
  induction todo as [|u todo IH]; intros done st st' b Heq Hb Hinv Hrun.
  - injection Hrun as <-. exists b. by rewrite app_nil_r.
  - simpl in Hrun. apply bind_Ok in Hrun as (st1 & Hstep & Hrun).
    assert (loop_inv T S_tree (done ++ [u]) (ts u) st1) as Hinv1.
    { eapply process_node_inv; [done|apply Hb; left|done..]. }
    destruct (IH (done ++ [u]) st1 st' (ts u)) as [b' Hb']; [|..].
    + by rewrite <- app_assoc.
    + intros w Hw. by eapply sorted_nodes_descending.
    + done.
    + done.
    + exists b'. by rewrite <- app_assoc in Hb'.
Qed.

(** After the loop every edge of a well-formed tree has a history that
    starts at the parent's tstamp, does not increase in time down to the
    child's tstamp and has positive rates. *)
Lemma process_nodes_histories k st :
  process_nodes T S_tree sampler CSN_weights (initial_state T S_tree k)
    (sorted_nodes T true) = Ok st →
  ∀ u v, (u, v) ∈ edges T →
    ∃ h, rates st !! (u, v) = Some h ∧ history_ok (ts u) (ts v) h = true.
Proof.
  intros Hrun u v He.
  assert (∃ b, ∀ w, w ∈ sorted_nodes T true → ts w <= b) as [b Hb].
  { destruct (sorted_nodes T true) as [|u0 rest] eqn:Heq.
    - exists 0. by intros w ?%not_elem_of_nil.
    - exists (ts u0). intros w [->|Hw]%elem_of_cons; [apply Qle_refl|].
      by apply (sorted_nodes_descending T [] u0 rest). }
  destruct (process_nodes_inv (sorted_nodes T true) [] _ _ b eq_refl Hb
              (initial_state_inv k b) Hrun) as (b' & Hr & Hf & _).
  simpl in Hr, Hf. destruct (Hr u v He) as (h & Hh & Hdesc & _ & Hfirst & _).
  exists h. split; [done|].
  assert (h ≠ []) as Hne.
  { eapply Hf; [done| |by apply well_formed_edges with v|done].
    apply sorted_nodes_elem. by eapply edge_parent_elem. }
  destruct h as [|[t r] h]; [done|]. unfold history_ok. simpl in Hfirst. subst t.
  rewrite Hdesc, andb_true_r. apply Qeq_bool_iff. reflexivity.
Qed.
End node_steps.

(** ** The distances written by [assign_rates] *)

Section collapse_claim.
Local Open Scope Q_scope.

(** C4 (as amended): for every edge (parent, child) of a well-formed dated
    gene tree, assign_rates writes as dist the sum over the segments of the
    edge's history of duration times rate, the last segment ending at the
    child's tstamp, times the autocorrelation factor of the child's species
    edge (1 when no factors are applied), times base_rate.  A segment of
    duration zero adds nothing to it, whatever its rate.  With base_rate and
    the factors not negative and positive draws of the rate sampler, the
    dist is >= 0, and it is 0 when parent.tstamp == child.tstamp. *)
Theorem assign_rates_dist_segment_sum `{Numpy} T S_tree base_rate af av ri csn d k d' k' :
  assign_rates T S_tree base_rate af av ri csn d k = Ok (d', k') →
  well_formed T S_tree = true →
  0 <= base_rate →
  (∀ x, 0 <= np_exp x) →
  (∀ f l q, af = Some f → f !! l = Some q → 0 <= q) →
  (∀ j, 0 < Sampler_draw ri 1 j) →
  ∃ st factors,
    process_nodes T S_tree (mkSampler ri 1) ((λ w, w / sum_Q csn) <$> csn)
      (initial_state T S_tree k) (sorted_nodes T true) = Ok st ∧
    applied_factors S_tree af av (calls st) = Ok factors ∧
    ∀ u v, (u, v) ∈ edges T →
      ∃ h f x, rates st !! (u, v) = Some h ∧
        edge_factor factors (attr_at color (Single 0) T v) = Some f ∧
        d' !! v = Some x ∧
        x == segment_sum h (attr_at tstamp 0 T v) * f * base_rate ∧
        (∀ h1 t r h2, h = h1 ++ (t, r) :: h2 →
           t == first_time h2 (attr_at tstamp 0 T v) →
           x == segment_sum (h1 ++ h2) (attr_at tstamp 0 T v) * f * base_rate) ∧
        0 <= x ∧
        (attr_at tstamp 0 T u == attr_at tstamp 0 T v → x == 0).
Proof.
  intros Hrun Hwf Hb Hexp Haf Hdraw.
  destruct (assign_rates_dist_exact _ _ _ _ _ _ _ _ _ _ _ Hrun) as (st & factors & Hst & Hfac & Hd).
  exists st, factors. split_and!; [done..|]. intros u v Hedge.
  destruct (process_nodes_histories T S_tree (mkSampler ri 1) _ Hwf Hdraw k st Hst u v Hedge)
    as (h & Hh & Hok).
  destruct (Hd u v h Hedge Hh) as (f & x & Hf & Hx & Hval).
  exists h, f, x. split_and!; [done..| | | |].
  - by rewrite Hval, collapse_segment_sum.
  - intros h1 t r h2 -> Ht.
    by rewrite Hval, collapse_segment_sum, segment_sum_zero_duration.
  - apply history_ok_collapse in Hok as [Hnn _].
    assert (0 <= f) as Hf0.
    { unfold applied_factors in Hfac. destruct factors as [er|]; simpl in Hf.
      - case_bool_decide as Hne.
        + injection Hfac as ->. by eapply Haf.
        + destruct (Qlt_le_dec 0 av); [|done].
          apply bind_Ok in Hfac as ([[nr er'] k0] & Hgen & [= <-]).
          by eapply (autocorrelation_factors_nonneg _ _ _ _ _ _ Hexp Hgen).
      - injection Hf as <-. lra. }
    rewrite Hval. apply Qmult_le_0_compat; [|done]. by apply Qmult_le_0_compat.
  - intros Hts. apply history_ok_collapse in Hok as [_ Hz].
    apply Hz in Hts. rewrite Hval, Hts. lra.
Qed.

Lemma assign_rates_dist_segment_sum_witness :
  ∃ d' k',
    assign_rates (H:=example_numpy) T_loss S_one 1 None 0 default_rate_increase
      default_CSN_weights (init_dist T_loss) 0 = Ok (d', k') ∧
    well_formed T_loss S_one = true ∧
    ∃ st factors,
      process_nodes (H:=example_numpy) T_loss S_one (mkSampler default_rate_increase 1)
        ((λ w, w / sum_Q default_CSN_weights) <$> default_CSN_weights)
        (initial_state T_loss S_one 0) (sorted_nodes T_loss true) = Ok st ∧
      applied_factors (H:=example_numpy) S_one None 0 (calls st) = Ok factors ∧
      ∀ u v, (u, v) ∈ edges T_loss →
        ∃ h f x, rates st !! (u, v) = Some h ∧
          edge_factor factors (attr_at color (Single 0) T_loss v) = Some f ∧
          d' !! v = Some x ∧
          x == segment_sum h (attr_at tstamp 0 T_loss v) * f * 1 ∧
          (∀ h1 t r h2, h = h1 ++ (t, r) :: h2 →
             t == first_time h2 (attr_at tstamp 0 T_loss v) →
             x == segment_sum (h1 ++ h2) (attr_at tstamp 0 T_loss v) * f * 1) ∧
          0 <= x ∧
          (attr_at tstamp 0 T_loss u == attr_at tstamp 0 T_loss v → x == 0).
Proof.
  eexists _, _. split; [vm_compute; reflexivity|]. split; [vm_compute; reflexivity|].
  eapply (assign_rates_dist_segment_sum (H:=example_numpy) T_loss S_one 1 None 0
            default_rate_increase default_CSN_weights (init_dist T_loss) 0%nat).
  - vm_compute. reflexivity.
  - vm_compute. reflexivity.
  - discriminate.
  - intros x. discriminate.
  - intros f l q Hf. discriminate Hf.
  - intros j. reflexivity.
Defined.

(** C4 as stated fails: with base_rate 0 every dist is 0, also on an edge
    of a well-formed tree whose ends have different tstamps. *)
Lemma assign_rates_dist_zero_base_rate :
  ¬ (∀ (N : Numpy) T S_tree base_rate af av ri csn d k d' k',
       assign_rates T S_tree base_rate af av ri csn d k = Ok (d', k') →
       well_formed T S_tree = true →
       (∀ x, 0 < np_exp x) →
       (∀ f l q, af = Some f → f !! l = Some q → 0 < q) →
       (∀ j, 0 < Sampler_draw ri 1 j) →
       ∀ u v, (u, v) ∈ edges T →
         ∃ x, d' !! v = Some x ∧ 0 <= x ∧
              (x == 0 ↔ attr_at tstamp 0 T u == attr_at tstamp 0 T v)).
Proof.
  intros Hclaim.
  assert (∃ d' k',
    assign_rates (H:=example_numpy) T_plain S_one 0 None 0 default_rate_increase
      default_CSN_weights (init_dist T_plain) 0 = Ok (d', k') ∧
    d' !! ([0%nat] : ref) = Some 0) as (d' & k' & Hrun & Hd').
  { eexists _, _. split; vm_compute; reflexivity. }
  destruct (Hclaim example_numpy _ _ _ _ _ _ _ _ _ _ _ Hrun) with (u := [] : ref)
    (v := [0%nat] : ref) as (x & Hx & _ & Hz).
  - vm_compute. reflexivity.
  - intros x. reflexivity.
  - intros f l q Hf. discriminate Hf.
  - intros j. reflexivity.
  - apply edges_elem. split; [|done]. vm_compute. apply list_elem_of_In. simpl. tauto.
  - assert (x = 0) as -> by congruence.
    destruct Hz as [Hz _]. specialize (Hz ltac:(reflexivity)).
    vm_compute in Hz. discriminate Hz.
Qed.
End collapse_claim.

(** ** More about [fitch] *)

Lemma preorder_suffix_closed T (g y : ref) :
  y ∈ preorder T → g `suffix_of` y → g ∈ preorder T.
Proof.
  rewrite !preorder_elem. unfold node_at. intros Hy [pre ->].
  rewrite rev_app_distr, subtree_app in Hy.
  destruct (subtree T (rev g)); [done|]. by destruct Hy.
Qed.

Lemma supply_leaves_preorder T x : x ∈ supply_leaves T → x ∈ preorder T.
Proof. unfold supply_leaves. by intros [_ ?]%list_elem_of_filter. Qed.

Lemma supply_leaves_NoDup T : NoDup (supply_leaves T).
Proof. apply NoDup_filter, preorder_NoDup. Qed.

Lemma permutations2_NoDup_ne {A} (l : list A) (x y : A) :
  NoDup l → (x, y) ∈ permutations2 l → x ≠ y.
Proof.
  intros Hnd (i & j & Hne & Hi & Hj)%permutations2_elem ->.
  apply Hne. by eapply NoDup_lookup.
Qed.

(** The walk stops at the lowest flagged node on the path to the root. *)
Lemma first_transfer_walk_below T (y g : ref) :
  g `suffix_of` y → attr_at transferred false T g = true →
  ∃ f, first_transfer_walk T y = Some f ∧ g `suffix_of` f.
Proof.
  induction y as [|i y IH]; intros Hs Hg; simpl.
  - apply suffix_nil_inv in Hs as ->. rewrite Hg. by exists [].
  - destruct (attr_at transferred false T (i :: y)) eqn:E; [by exists (i :: y)|].
    apply suffix_cons_r_inv in Hs as [->|Hs]; [congruence|]. by apply IH.
Qed.

Lemma true_transfer_edges_elem T v :
  v ∈ true_transfer_edges T ↔
  v ∈ preorder T ∧ v ≠ [] ∧ attr_at transferred false T v = true.
Proof.
  unfold true_transfer_edges. rewrite elem_of_list_to_set, list_elem_of_filter.
  change (map snd (edges T)) with ((edges T).*2). rewrite list_elem_of_fmap. split.
  - intros (Ht & [u v'] & -> & [Hv Hp]%edges_elem). split_and!; [done| |done].
    simpl. by intros ->.
  - intros (Hv & Hne & Ht). split; [done|]. destruct v as [|i u]; [done|].
    exists (u, i :: u). split; [done|]. by apply edges_elem.
Qed.

(** X1: for distinct leaves x and y the graph returned by fitch has the edge
    x→y iff some node of true_transfer_edges(T) lies on the path from y up
    to the LCA of x and y, the LCA left out: the graph is the Fitch graph
    of the transferred flags, whatever is passed as transfer_edges. *)
Theorem fitch_edge_iff_transfer_edge_on_path T te su lca_T x y :
  x ∈ supply_leaves T → y ∈ supply_leaves T → x ≠ y →
  has_edge (directed_of (fitch T te su lca_T)) (KeyObj x) (KeyObj y) = true ↔
  ∃ g, g ∈ true_transfer_edges T ∧ g `suffix_of` y ∧
       strict_ancestor (lca_get (mkLCA T) x y) g.
Proof.
  intros Hx Hy Hne.
  assert (directed_of (fitch T te su lca_T) = fitch_digraph T te lca_T) as ->.
  { unfold fitch. by destruct su. }
  unfold has_edge, lca_get. rewrite bool_decide_eq_true, fitch_digraph_edge. split.
  - intros (x' & y' & f & [= <- <-] & _ & Hf & Hs). exists f.
    apply first_transfer_walk_Some in Hf as (Hfy & Hft & _).
    split_and!; [|done..]. apply true_transfer_edges_elem. split_and!; [|  |done].
    + eapply preorder_suffix_closed; [|done]. by apply supply_leaves_preorder.
    + intros ->. destruct Hs as [Hs1 Hs2]. by apply suffix_nil_inv in Hs2.
  - intros (g & (_ & _ & Hg)%true_transfer_edges_elem & Hgy & [Hne' Hs]).
    destruct (first_transfer_walk_below T y g Hgy Hg) as (f & Hf & Hgf).
    exists x, y, f. split_and!; [done|by apply permutations2_distinct|done|].
    split; [|by etrans].
    intros Heq. subst f. apply Hne'. by apply (anti_symm suffix).
Qed.

Lemma fitch_edge_iff_transfer_edge_on_path_witness :
  has_edge (directed_of (fitch T_two ∅ false None)) (KeyObj [1%nat]) (KeyObj [0%nat]) = true ↔
  ∃ g, g ∈ true_transfer_edges T_two ∧ g `suffix_of` [0%nat] ∧
       strict_ancestor (lca_get (mkLCA T_two) [1%nat] [0%nat]) g.
Proof.
  apply (fitch_edge_iff_transfer_edge_on_path T_two ∅ false None [1%nat] [0%nat]).
  - vm_compute. apply list_elem_of_In. simpl. tauto.
  - vm_compute. apply list_elem_of_In. simpl. tauto.
  - discriminate.
Defined.

(** X2: every edge of the graph returned by fitch joins the objects of two
    different leaves, and its head lies below a flagged node: there is no
    loop x→x and no edge at a key x.ID. *)
Theorem fitch_edges_join_distinct_leaves T te su lca_T a b :
  has_edge (directed_of (fitch T te su lca_T)) a b = true →
  a ≠ b ∧
  ∃ x y f, a = KeyObj x ∧ b = KeyObj y ∧
           x ∈ supply_leaves T ∧ y ∈ supply_leaves T ∧
           first_transfer_walk T y = Some f ∧ f ≠ [].
Proof.
  assert (directed_of (fitch T te su lca_T) = fitch_digraph T te lca_T) as ->.
  { unfold fitch. by destruct su. }
  unfold has_edge. rewrite bool_decide_eq_true, fitch_digraph_edge.
  intros (x & y & f & [= -> ->] & Hin & Hf & [Hne Hs]).
  pose proof (permutations2_NoDup_ne _ _ _ (supply_leaves_NoDup T) Hin) as Hxy.
  apply permutations2_members in Hin as [Hx Hy].
  split; [congruence|]. exists x, y, f. split_and!; try done.
  intros ->. by apply suffix_nil_inv in Hs.
Qed.

Lemma fitch_edges_join_distinct_leaves_witness :
  KeyObj [1%nat] ≠ KeyObj [0%nat] ∧
  ∃ x y f, KeyObj [1%nat] = KeyObj x ∧ KeyObj [0%nat] = KeyObj y ∧
           x ∈ supply_leaves T_two ∧ y ∈ supply_leaves T_two ∧
           first_transfer_walk T_two y = Some f ∧ f ≠ [].
Proof.
  apply (fitch_edges_join_distinct_leaves T_two ∅ false None).
  vm_compute. reflexivity.
Defined.

(** *** The node dictionary of the Fitch graph *)

Lemma touch_node_lookup n m k :
  touch_node n m !! k = if decide (k = n) then Some (default ∅ (m !! n)) else m !! k.
Proof.
  unfold touch_node. destruct (m !! n) as [a|] eqn:E.
  - destruct (decide (k = n)) as [->|]; [by rewrite E|done].
  - destruct (decide (k = n)) as [->|]; [by rewrite lookup_insert_eq|].
    by rewrite lookup_insert_ne.
Qed.

Lemma leaf_attr_union T x a :
  (∃ x', a = leaf_attr T x') ∨ a = ∅ → leaf_attr T x ∪ a = leaf_attr T x.
Proof.
  intros Ha. apply map_eq. intros k. rewrite lookup_union.
  destruct Ha as [[x' ->]| ->]; [|by rewrite lookup_empty, (right_id_L None _)].
  unfold leaf_attr.
  destruct (decide (k = "label"%string)) as [->|Hl]; [by rewrite !lookup_insert_eq|].
  rewrite !(lookup_insert_ne _ "label"%string) by done.
  destruct (decide (k = "color"%string)) as [->|Hc]; [by rewrite !lookup_insert_eq|].
  rewrite !(lookup_insert_ne _ "color"%string) by done. by rewrite lookup_empty.
Qed.

Lemma fitch_leaf_loop_nodes T ls : ∀ done st,
  fitch_id_nodes T done st.1 →
  fitch_id_nodes T (done ++ ls) (foldl (fitch_leaf_step T) st ls).1.
Proof.
  induction ls as [|x ls IH]; intros done st Hinv; simpl.
  { by rewrite app_nil_r. }
  change (done ++ x :: ls) with (done ++ [x] ++ ls).
  rewrite (assoc_L (++) done [x] ls). apply IH. destruct Hinv as [Hobj Hid].
  assert ((fitch_leaf_step T st x).1 =
          add_node (KeyID (attr_at ID 0%Z T x)) (leaf_attr T x) st.1) as ->.
  { unfold fitch_leaf_step. by destruct (first_transfer_walk T x). }
  split.
  - intros y. unfold add_node. simpl. by rewrite lookup_insert_ne.
  - intros i. unfold add_node. simpl.
    destruct (decide (attr_at ID 0%Z T x = i)) as [<-|Hne].
    + left. exists x. split_and!; [apply elem_of_app; right; left|done|].
      rewrite lookup_insert_eq. f_equal. apply leaf_attr_union.
      destruct (Hid (attr_at ID 0%Z T x)) as [(x' & _ & _ & ->)|[_ ->]]; eauto.
    + rewrite lookup_insert_ne by congruence.
      destruct (Hid i) as [(x' & Hx' & Hi & Hn)|[Hno Hn]].
      * left. exists x'. split_and!; [apply elem_of_app; by left|done..].
      * right. split; [|done].
        intros y [Hy| ->%list_elem_of_singleton]%elem_of_app; [by apply Hno|done].
Qed.

Lemma fitch_pair_loop_nodes o m ps : ∀ G,
  fitch_obj_nodes G →
  fitch_obj_nodes (foldl (fitch_pair_step o m) G ps) ∧
  ∀ i, dg_node (foldl (fitch_pair_step o m) G ps) !! KeyID i = dg_node G !! KeyID i.
Proof.
  induction ps as [|[a b] ps IH]; intros G Hinv; simpl; [done|].
  assert (fitch_obj_nodes (fitch_pair_step o m G (a, b)) ∧
          ∀ i, dg_node (fitch_pair_step o m G (a, b)) !! KeyID i = dg_node G !! KeyID i)
    as [Hinv' Hid'].
  { unfold fitch_pair_step. simpl. destruct (m !! b) as [f|]; [|done].
    destruct (ancestor_not_equal o (lca_get o a b) f); [|done]. split.
    - intros x. unfold add_edge. simpl. rewrite !touch_node_lookup.
      destruct (decide (KeyObj x = KeyObj b)) as [[= ->]|Hb].
      + left. split.
        * destruct (decide (KeyObj b = KeyObj a)) as [[= ->]|Ha].
          -- by destruct (Hinv a) as [[-> _]|[-> _]].
          -- by destruct (Hinv b) as [[-> _]|[-> _]].
        * exists (KeyObj a). right. apply elem_of_union. left. by apply elem_of_singleton.
      + destruct (decide (KeyObj x = KeyObj a)) as [[= ->]|Ha].
        * left. split.
          -- by destruct (Hinv a) as [[-> _]|[-> _]].
          -- exists (KeyObj b). left. apply elem_of_union. left. by apply elem_of_singleton.
        * destruct (Hinv x) as [[Hx (n & Hn)]|[Hx Hn]].
          -- left. split; [done|]. exists n. rewrite !elem_of_union. tauto.
          -- right. split; [done|]. intros n. rewrite !elem_of_union, !elem_of_singleton.
             destruct (Hn n) as [Hn1 Hn2]. split; intros [[= ? ?]|?]; congruence.
    - intros i. unfold add_edge. simpl. rewrite !touch_node_lookup.
      rewrite !decide_False by done. done. }
  destruct (IH _ Hinv') as [Hfin Hid]. split; [done|].
  intros i. by rewrite Hid.
Qed.

(** X3: in the graph returned by fitch the key x.ID of every leaf x is a
    node that carries label and color (of the last leaf with that ID), and
    there is no other integer key; the object of a leaf is a node iff it is
    an endpoint of an edge, and then its attribute dictionary is empty. *)
Theorem fitch_node_dictionary T te su lca_T :
  let G := directed_of (fitch T te su lca_T) in
  (∀ i, (∃ x, x ∈ supply_leaves T ∧ attr_at ID 0%Z T x = i ∧
              dg_node G !! KeyID i = Some (leaf_attr T x)) ∨
        ((∀ x, x ∈ supply_leaves T → attr_at ID 0%Z T x ≠ i) ∧
         dg_node G !! KeyID i = None)) ∧
  (∀ x, (dg_node G !! KeyObj x = Some ∅ ∧
         ∃ n, has_edge G (KeyObj x) n = true ∨ has_edge G n (KeyObj x) = true) ∨
        (dg_node G !! KeyObj x = None ∧
         ∀ n, has_edge G (KeyObj x) n = false ∧ has_edge G n (KeyObj x) = false)).
Proof.
  assert (directed_of (fitch T te su lca_T) = fitch_digraph T te lca_T) as ->.
  { unfold fitch. by destruct su. }
  cbv zeta. unfold fitch_digraph.
  set (o := match lca_T with Some o => o | None => mkLCA T end).
  pose proof (fitch_leaf_loop_nodes T (supply_leaves T) [] (DiGraph_empty, ∅)) as Hleaf.
  simpl in Hleaf. destruct Hleaf as [Hobj Hid].
  { split; [done|]. intros i. right. split; [|done]. by intros x ?%not_elem_of_nil. }
  set (st := foldl (fitch_leaf_step T) (DiGraph_empty, ∅) (supply_leaves T)) in *.
  destruct (fitch_pair_loop_nodes o st.2 (permutations2 (supply_leaves T)) st.1)
    as [Hfin Hsame].
  { intros x. right. split; [done|]. intros n.
    unfold st. rewrite fitch_leaf_loop_edges. simpl. split; apply not_elem_of_empty. }
  split.
  - intros i. rewrite Hsame. apply Hid.
  - intros x. unfold has_edge. destruct (Hfin x) as [[Hx (n & Hn)]|[Hx Hn]].
    + left. split; [done|]. exists n. rewrite !bool_decide_eq_true. done.
    + right. split; [done|]. intros n. rewrite !bool_decide_eq_false. apply Hn.
Qed.

(** ** More about [autocorrelation_factors] and [_apply_autocorrelation] *)

Section autocorrelation_total.
Context `{Numpy} (tree : TreeNode) (variance : Q).

Local Abbreviation lab := (attr_at label 0%Z tree).

Lemma autocorrelation_loop_total vs : ∀ nr er k,
  NoDup vs →
  (∀ v u, v ∈ vs → parent v = Some u → is_Some (nr !! lab u) ∨ before vs u v) →
  ∃ nr' er',
    autocorrelation_loop tree variance (nr, er, k) vs =
      Ok (nr', er', (k + length (filter (λ v, is_Some (parent v)) vs))%nat) ∧
    (∀ l, is_Some (nr' !! l) ↔ is_Some (nr !! l) ∨ ∃ v, v ∈ vs ∧ lab v = l) ∧
    (∀ l, is_Some (er' !! l) ↔ is_Some (er !! l) ∨ ∃ v, v ∈ vs ∧ lab v = l).
Proof.
  induction vs as [|v vs IH]; intros nr er k Hnd Hpar.
  { exists nr, er. rewrite Nat.add_0_r. split_and!; [done|..].
    - intros l. split; [by left|]. intros [?|(v & ?%not_elem_of_nil & _)]; done.
    - intros l. split; [by left|]. intros [?|(v & ?%not_elem_of_nil & _)]; done. }
  apply NoDup_cons in Hnd as [Hv Hnd].
  cbn [autocorrelation_loop]. unfold autocorrelation_step.
  destruct (parent v) as [u|] eqn:Hu.
  - destruct (Hpar v u) as [[ru Hru]|Hb]; [left|done| |by apply before_cons_head in Hb].
    rewrite (getitem_Some _ _ _ Hru). cbn [mbind Result_bind].
    set (rv := np_exp (np_random_normal k (np_log ru - variance * attr_at dist 0%Q tree v / 2)%Q
                         (np_sqrt (variance * attr_at dist 0%Q tree v)%Q))).
    assert (∃ ru', <[lab v := rv]> nr !! lab u = Some ru') as [ru' Hru'].
    { destruct (decide (lab v = lab u)) as [->|Hne].
      - rewrite lookup_insert_eq. eauto.
      - rewrite lookup_insert_ne by done. eauto. }
    rewrite (getitem_Some _ _ _ Hru'). cbn [mbind Result_bind].
    rewrite (getitem_Some _ _ rv) by apply lookup_insert_eq. cbn [mbind Result_bind].
    destruct (IH (<[lab v := rv]> nr) (<[lab v := ((ru' + rv) / 2)%Q]> er) (S k))
      as (nr' & er' & Hrun & Hnr & Her); [done| |].
    { intros w p Hw Hp. destruct (Hpar w p) as [[x Hx]|Hb]; [by right|done| |].
      - left. destruct (decide (lab v = lab p)) as [->|Hne].
        + rewrite lookup_insert_eq. eauto.
        + rewrite lookup_insert_ne by done. eauto.
      - apply before_cons_tail in Hb as [->|Hb]; [|by right].
        left. rewrite lookup_insert_eq. eauto. }
    exists nr', er'. split_and!.
    + rewrite Hrun. rewrite filter_cons_True by (by rewrite Hu). simpl.
      do 3 f_equal. lia.
    + intros l. rewrite Hnr, lookup_insert_is_Some. split.
      * intros [[<-|[_ ?]]|(w & Hw & Hl)]; [right; exists v; split; [left|done]|by left|].
        right. exists w. split; [by right|done].
      * intros [Hl|(w & [->|Hw]%elem_of_cons & Hl)].
        -- left. destruct (decide (lab v = l)); [by left|right; done].
        -- left. by left.
        -- right. eauto.
    + intros l. rewrite Her, lookup_insert_is_Some. split.
      * intros [[<-|[_ ?]]|(w & Hw & Hl)]; [right; exists v; split; [left|done]|by left|].
        right. exists w. split; [by right|done].
      * intros [Hl|(w & [->|Hw]%elem_of_cons & Hl)].
        -- left. destruct (decide (lab v = l)); [by left|right; done].
        -- left. by left.
        -- right. eauto.
  - cbn [mbind Result_bind].
    destruct (IH (<[lab v := 1%Q]> nr) (<[lab v := 1%Q]> er) k)
      as (nr' & er' & Hrun & Hnr & Her); [done| |].
    { intros w p Hw Hp. destruct (Hpar w p) as [[x Hx]|Hb]; [by right|done| |].
      - left. destruct (decide (lab v = lab p)) as [->|Hne].
        + rewrite lookup_insert_eq. eauto.
        + rewrite lookup_insert_ne by done. eauto.
      - apply before_cons_tail in Hb as [->|Hb]; [|by right].
        left. rewrite lookup_insert_eq. eauto. }
    exists nr', er'. split_and!.
    + rewrite Hrun. rewrite filter_cons_False; [done|]. rewrite Hu. by intros [? ?].
    + intros l. rewrite Hnr, lookup_insert_is_Some. split.
      * intros [[<-|[_ ?]]|(w & Hw & Hl)]; [right; exists v; split; [left|done]|by left|].
        right. exists w. split; [by right|done].
      * intros [Hl|(w & [->|Hw]%elem_of_cons & Hl)].
        -- left. destruct (decide (lab v = l)); [by left|right; done].
        -- left. by left.
        -- right. eauto.
    + intros l. rewrite Her, lookup_insert_is_Some. split.
      * intros [[<-|[_ ?]]|(w & Hw & Hl)]; [right; exists v; split; [left|done]|by left|].
        right. exists w. split; [by right|done].
      * intros [Hl|(w & [->|Hw]%elem_of_cons & Hl)].
        -- left. destruct (decide (lab v = l)); [by left|right; done].
        -- left. by left.
        -- right. eauto.
Qed.

Lemma edges_length : length (edges tree) = length (filter (λ v, is_Some (parent v)) (preorder tree)).
Proof.
  unfold edges. induction (preorder tree) as [|v vs IH]; [done|]. csimpl.
  destruct (parent v) as [u|] eqn:Hu.
  - rewrite filter_cons_True by (by rewrite Hu). csimpl. by rewrite IH.
  - rewrite filter_cons_False; [done|]. rewrite Hu. by intros [? ?].
Qed.

(** X4: on every tree, also one with repeated labels, autocorrelation_factors
    returns without a KeyError; it makes one random draw for every node
    but the root, and both dictionaries have the labels of the tree as
    their keys. *)
Theorem autocorrelation_factors_total k :
  ∃ node_rates edge_rates,
    autocorrelation_factors tree variance k =
      Ok (node_rates, edge_rates, (k + length (edges tree))%nat) ∧
    (∀ l, is_Some (node_rates !! l) ↔ ∃ v, v ∈ preorder tree ∧ lab v = l) ∧
    (∀ l, is_Some (edge_rates !! l) ↔ ∃ v, v ∈ preorder tree ∧ lab v = l).
Proof.
  destruct (autocorrelation_loop_total (preorder tree) ∅ ∅ k) as (nr & er & Hrun & Hnr & Her).
  { apply preorder_NoDup. }
  { intros v u Hv Hu. right. by apply preorder_parent_before. }
  exists nr, er. rewrite edges_length. split_and!; [done|..].
  - intros l. rewrite Hnr, lookup_empty. split; [|by right].
    intros [[? ?]|?]; done.
  - intros l. rewrite Her, lookup_empty. split; [|by right].
    intros [[? ?]|?]; done.
Qed.

(** X5: when numpy's exp is positive, every node rate and every edge rate
    that autocorrelation_factors returns is positive. *)
Theorem autocorrelation_factors_positive k node_rates edge_rates k' :
  (∀ x, (0 < np_exp x)%Q) →
  autocorrelation_factors tree variance k = Ok (node_rates, edge_rates, k') →
  (∀ l q, node_rates !! l = Some q → (0 < q)%Q) ∧
  (∀ l q, edge_rates !! l = Some q → (0 < q)%Q).
Proof.
  intros Hexp Hrun. unfold autocorrelation_factors in Hrun.
  destruct (autocorrelation_loop_pos tree variance (preorder tree) ∅ ∅ k
              node_rates edge_rates k' Hexp) as [Hnr Her].
  - apply map_Forall_empty.
  - apply map_Forall_empty.
  - done.
  - split; intros l q; [apply Hnr|apply Her].
Qed.
End autocorrelation_total.

Lemma autocorrelation_factors_positive_witness :
  ∃ node_rates edge_rates k',
    autocorrelation_factors (H:=example_numpy) S_two 1 0 = Ok (node_rates, edge_rates, k') ∧
    (∀ l q, node_rates !! l = Some q → (0 < q)%Q) ∧
    (∀ l q, edge_rates !! l = Some q → (0 < q)%Q).
Proof.
  eexists _, _, _. split; [vm_compute; reflexivity|].
  eapply (autocorrelation_factors_positive (H:=example_numpy) S_two 1 0%nat).
  - intros x. reflexivity.
  - vm_compute. reflexivity.
Defined.

Section apply_autocorrelation_result.
Variables (T : TreeNode) (edge_rates : gmap Z Q).

Local Abbreviation edge_ID v := (color_edge_ID (attr_at color (Single 0) T v)).

Lemma _apply_autocorrelation_loop_result vs : ∀ d,
  NoDup vs →
  match _apply_autocorrelation_loop T edge_rates d vs with
  | Ok d' =>
      ∀ v, d' !! v =
           match parent v with
           | Some _ =>
               if decide (v ∈ vs)
               then (λ x, x * default 0 (edge_rates !! edge_ID v))%Q <$> d !! v
               else d !! v
           | None => d !! v
           end
  | Raise e =>
      e = KeyError ∧ ∃ v, v ∈ vs ∧ v ≠ [] ∧ edge_rates !! edge_ID v = None
  end.
Proof.
  induction vs as [|v vs IH]; intros d Hnd; simpl.
  { intros v. by destruct (parent v). }
  apply NoDup_cons in Hnd as [Hv Hnd].
  destruct (parent v) as [u|] eqn:Hu.
  - unfold getitem. destruct (edge_rates !! edge_ID v) as [f|] eqn:Hf; simpl.
    + specialize (IH (alter (λ x, (x * f)%Q) v d) Hnd).
      destruct (_apply_autocorrelation_loop T edge_rates _ vs) as [d'|e].
      * intros w. rewrite IH. destruct (parent w) as [p|] eqn:Hp.
        -- destruct (decide (w = v)) as [->|Hne].
           ++ rewrite decide_False by done. rewrite decide_True by left.
              by rewrite lookup_alter_eq, Hf.
           ++ rewrite lookup_alter_ne by done.
              destruct (decide (w ∈ vs)) as [Hw|Hw].
              ** rewrite decide_True; [done|by right].
              ** rewrite decide_False; [done|]. by intros [?|?]%elem_of_cons.
        -- rewrite lookup_alter_ne; [done|]. intros ->. congruence.
      * destruct IH as [-> (w & Hw & Hne & Hnone)]. split; [done|].
        exists w. split_and!; [by right|done..].
    + split; [done|]. exists v. split_and!; [left| |done]. by intros ->.
  - specialize (IH d Hnd). destruct (_apply_autocorrelation_loop T edge_rates d vs) as [d'|e].
    + intros w. rewrite IH. destruct (parent w) as [p|] eqn:Hp; [|done].
      destruct (decide (w ∈ vs)) as [Hw|Hw].
      * rewrite decide_True; [done|by right].
      * rewrite decide_False; [done|]. intros [->|?]%elem_of_cons; [congruence|done].
    + destruct IH as [-> (w & Hw & Hne & Hnone)]. split; [done|].
      exists w. split_and!; [by right|done..].
Qed.

(** X6: _apply_autocorrelation raises a KeyError, and nothing else, exactly
    when edge_rates has no entry for the edge ID (the colour, or the second
    entry of a colour pair) of some node other than the root; otherwise it
    multiplies the dist of every node but the root by that entry and leaves
    the dist of the root alone. *)
Theorem _apply_autocorrelation_result d :
  ((∀ v, v ∈ preorder T → v ≠ [] → is_Some (edge_rates !! edge_ID v)) ∧
   ∃ d', _apply_autocorrelation T edge_rates d = Ok d' ∧
         d' !! [] = d !! [] ∧
         ∀ v, v ∈ preorder T → v ≠ [] →
           ∃ f, edge_rates !! edge_ID v = Some f ∧ d' !! v = (λ x, x * f)%Q <$> d !! v) ∨
  ((∃ v, v ∈ preorder T ∧ v ≠ [] ∧ edge_rates !! edge_ID v = None) ∧
   _apply_autocorrelation T edge_rates d = Raise KeyError).
Proof.
  unfold _apply_autocorrelation.
  pose proof (_apply_autocorrelation_loop_result (preorder T) d (preorder_NoDup T)) as Hres.
  destruct (_apply_autocorrelation_loop T edge_rates d (preorder T)) as [d'|e] eqn:Hrun.
  - left.
    assert (∀ v, v ∈ preorder T → v ≠ [] →
              ∃ f, edge_rates !! edge_ID v = Some f ∧ d' !! v = (λ x, x * f)%Q <$> d !! v)
      as Hall.
    { intros v Hv Hne. destruct v as [|i u]; [done|].
      destruct (_apply_autocorrelation_lookup T edge_rates d d' (i :: u) u Hrun Hv eq_refl)
        as (f & Hf & Hd). eauto. }
    split.
    + intros v Hv Hne. destruct (Hall v Hv Hne) as (f & -> & _). eauto.
    + exists d'. split_and!; [done| |done]. by rewrite Hres.
  - right. destruct Hres as [-> Hv]. done.
Qed.
End apply_autocorrelation_result.

(** ** More about [assign_rates] *)

Section assign_rates_more.
Context `{Numpy}.
Local Open Scope Q_scope.

Lemma apply_base_rate_lookup_all T base_rate d v :
  apply_base_rate T base_rate d !! v =
  if decide (v ∈ preorder T) then (λ x, x * base_rate) <$> d !! v else d !! v.
Proof. unfold apply_base_rate. apply foldl_alter_lookup, preorder_NoDup. Qed.

(** X7: base_rate only scales the result: with the same random draws,
    assign_rates with base_rate b raises what assign_rates with base_rate 1
    raises, and otherwise makes the same number of draws and writes, at
    every node of the tree, b times the dist written with base_rate 1. *)
Theorem assign_rates_base_rate_scales T S_tree b af av ri csn d k :
  match assign_rates T S_tree 1 af av ri csn d k with
  | Ok (d1, k1) =>
      ∃ d', assign_rates T S_tree b af av ri csn d k = Ok (d', k1) ∧
            ∀ v, v ∈ preorder T →
              option_Forall2 (λ y x, y == x * b) (d' !! v) (d1 !! v)
  | Raise e => assign_rates T S_tree b af av ri csn d k = Raise e
  end.
Proof.
  unfold assign_rates. cbv zeta.
  destruct (_divergent_rates T S_tree _ _ d k) as [[d1 k1]|e]; [|done].
  cbn [mbind Result_bind].
  destruct (match af with Some f => _ | None => _ end) as [[d2 k2]|e]; [|done].
  cbn [mbind Result_bind]. eexists. split; [done|].
  intros v Hv. rewrite !apply_base_rate_lookup by done.
  destruct (d2 !! v) as [x|]; constructor. lra.
Qed.

Lemma _adjust_distances_root T rs d : _adjust_distances T rs d !! [] = d !! [].
Proof.
  unfold _adjust_distances.
  assert (∀ es, ([] : ref) ∉ es.*2 →
    foldl (λ d e, match rs !! e with
                  | Some rate_list => <[e.2 := collapse rate_list (attr_at tstamp 0 T e.2)]> d
                  | None => d
                  end) d es !! [] = d !! []) as Hgen.
  { intros es. revert d. induction es as [|e es IH]; intros d Hno; [done|]. simpl.
    rewrite IH by (intros Hin; apply Hno; by right).
    destruct (rs !! e); [|done]. rewrite lookup_insert_ne; [done|].
    intros Heq. apply Hno. rewrite <- Heq. left. }
  apply Hgen. intros ([u v] & He1 & [_ Hp]%edges_elem)%list_elem_of_fmap.
  simpl in *. by subst v.
Qed.

(** X8: whatever the tree and the parameters, a call of assign_rates that
    returns has multiplied the dist of the root by base_rate and done
    nothing else to it. *)
Theorem assign_rates_root_dist T S_tree b af av ri csn d k :
  match assign_rates T S_tree b af av ri csn d k with
  | Ok (d', _) => d' !! [] = (λ x, x * b) <$> d !! []
  | Raise _ => True
  end.
Proof.
  unfold assign_rates. cbv zeta.
  destruct (_divergent_rates T S_tree _ _ d k) as [[d1 k1]|e] eqn:Hdiv; [|done].
  cbn [mbind Result_bind].
  assert (d1 !! [] = d !! []) as Hd1.
  { unfold _divergent_rates in Hdiv. apply bind_Ok in Hdiv as (st & _ & [= <- _]).
    apply _adjust_distances_root. }
  assert (∀ f d2, _apply_autocorrelation T f d1 = Ok d2 → d2 !! [] = d !! []) as Hauto.
  { intros f d2 Hrun.
    pose proof (_apply_autocorrelation_loop_result T f (preorder T) d1 (preorder_NoDup T))
      as Hres.
    unfold _apply_autocorrelation in Hrun. rewrite Hrun in Hres. by rewrite Hres. }
  assert (∀ d2 k2 (r : Result (gmap ref Q * nat)),
            r = Ok (d2, k2) →
            (r = Ok (d1, k1) ∨
             (∃ f, (d' ← _apply_autocorrelation T f d1; Ok (d', k1)) = r) ∨
             (∃ k0 f, (d' ← _apply_autocorrelation T f d1; Ok (d', k0)) = r)) →
            d2 !! [] = d !! []) as Hcases.
  { intros d2 k2 r -> [[= <- _]|[(f & Heq)|(k0 & f & Heq)]]; [done|..].
    - apply bind_Ok in Heq as (d3 & Hd3 & [= <- _]). by eapply Hauto.
    - apply bind_Ok in Heq as (d3 & Hd3 & [= <- _]). by eapply Hauto. }
  destruct (match af with Some f => _ | None => _ end) as [[d2 k2]|e] eqn:Hphase; [|done].
  cbn [mbind Result_bind]. rewrite apply_base_rate_lookup_all.
  destruct (preorder_root T) as [l Hl].
  rewrite decide_True by (rewrite Hl; left). f_equal.
  apply (Hcases d2 k2 _ Hphase). clear Hcases.
  assert (∀ (r : Result (gmap ref Q * nat)),
    (if Qlt_le_dec 0 av
     then '(_, edge_rates, k) ← autocorrelation_factors S_tree av k1;
          d ← _apply_autocorrelation T edge_rates d1; Ok (d, k)
     else Ok (d1, k1)) = r → r = Ok (d2, k2) →
    r = Ok (d1, k1) ∨
    (∃ f, (d' ← _apply_autocorrelation T f d1; Ok (d', k1)) = r) ∨
    (∃ k0 f, (d' ← _apply_autocorrelation T f d1; Ok (d', k0)) = r)) as Hvar.
  { intros r Hr Hok. destruct (Qlt_le_dec 0 av); [|by left]. right. right.
    destruct (autocorrelation_factors S_tree av k1) as [[[nr er] k0]|e];
      simpl in Hr; [eauto|congruence]. }
  destruct af as [f|]; [|by apply Hvar].
  destruct (bool_decide (f ≠ ∅)); [|by apply Hvar].
  right. left. eauto.
Qed.
End assign_rates_more.

(** ** More about [simulate_gene_trees] and [_divergent_rates] *)

Section simulate_more.
Context `{Numpy}.

Lemma simulate_loop_length S_tree s1 s2 s3 s4 af kwargs N : ∀ acc k l k',
  simulate_loop S_tree s1 s2 s3 s4 af kwargs N acc k = Ok (l, k') →
  length l = (length acc + N)%nat.
Proof.
  induction N as [|N IH]; intros acc k l k'; simpl.
  - intros [= <- _]. lia.
  - intros ([t k1] & _ & Hrun)%bind_Ok. apply IH in Hrun.
    rewrite length_app in Hrun. simpl in Hrun. lia.
Qed.

(** X9: a call of simulate_gene_trees that returns gives a single tree when
    N is 1 and otherwise the list of the N trees, the empty list for N = 0. *)
Theorem simulate_gene_trees_shape S_tree N dupl_rate loss_rate hgt_rate base_rate kwargs k :
  match simulate_gene_trees S_tree N dupl_rate loss_rate hgt_rate base_rate kwargs k with
  | Ok (OneTree _, _) => N = 1%nat
  | Ok (TreeList l, _) => N ≠ 1%nat ∧ length l = N
  | Raise _ => True
  end.
Proof.
  unfold simulate_gene_trees. cbv zeta.
  destruct (autocorrelation_factors S_tree _ k) as [[[nr er] k1]|e]; [|done].
  cbn [mbind Result_bind].
  destruct (simulate_loop _ _ _ _ _ _ _ _ _ _) as [[l k2]|e] eqn:Hloop; [|done].
  cbn [mbind Result_bind]. apply simulate_loop_length in Hloop. simpl in Hloop.
  destruct N as [|[|N]].
  - split; [done|]. done.
  - destruct l; [done|]. done.
  - split; [done|]. done.
Qed.

Lemma counter_remove_empty c u st :
  (∀ c l, gene_counter st !! c = Some l → l = []) →
  ∃ e, counter_remove c u st = Raise e.
Proof.
  intros Hempty. unfold counter_remove, getitem.
  destruct (gene_counter st !! c) as [l|] eqn:Hl; [|by eexists].
  rewrite (Hempty c l Hl). by eexists.
Qed.

Lemma initial_state_counter_empty T S_tree k c l :
  gene_counter (initial_state T S_tree k) !! c = Some l → l = [].
Proof.
  unfold initial_state. simpl. intros Hl%elem_of_list_to_map_2.
  by apply list_elem_of_fmap in Hl as (e & [= _ ->] & _).
Qed.

(** X10: when the first node of T_nodes, the oldest node of the gene tree,
    is a duplication, loss or transfer node, _divergent_rates raises: the
    node is on no list of gene_counter when it is to be removed. *)
Theorem _divergent_rates_first_node_raises T S_tree sampler CSN_weights d k u rest :
  sorted_nodes T true = u :: rest →
  leaves_counter (attr_at event None T u) = true →
  ∃ e, _divergent_rates T S_tree sampler CSN_weights d k = Raise e.
Proof.
  intros Heq Hev. unfold _divergent_rates. rewrite Heq. cbn [process_nodes].
  assert (∃ e, process_node T S_tree sampler CSN_weights (initial_state T S_tree k) u = Raise e)
    as [e ->]; [|by eexists].
  pose proof (initial_state_counter_empty T S_tree k) as Hempty.
  unfold process_node. cbv zeta.
  apply bool_decide_eq_true in Hev as [Hev|[Hev|Hev]]; rewrite Hev.
  - rewrite bool_decide_eq_false_2 by (intros [?|[?|?]]; discriminate).
    rewrite bool_decide_eq_true_2 by done.
    unfold duplication. destruct (getitem _ u) as [m|e]; [|by eexists].
    cbn [mbind Result_bind].
    destruct (_duplication_type m CSN_weights _) as [[m0 m1] k1].
    destruct (children T u) as [|c0 [|c1 cs]]; [by eexists..|].
    destruct (counter_remove_empty (attr_at color (Single 0) T u) u
                (set_marked (λ mk, <[c1:=m1]> (<[c0:=m0]> mk))
                   (mkRateState (rates (initial_state T S_tree k))
                      (gene_counter (initial_state T S_tree k))
                      (marked (initial_state T S_tree k)) k1))) as [e He]; [done|].
    cbv zeta. rewrite He. by eexists.
  - rewrite bool_decide_eq_false_2 by (intros [?|[?|?]]; discriminate).
    rewrite bool_decide_eq_false_2 by discriminate.
    rewrite bool_decide_eq_true_2 by done.
    unfold loss.
    destruct (counter_remove_empty (attr_at color (Single 0) T u) u
                (initial_state T S_tree k)) as [e He]; [done|].
    cbv zeta. rewrite He. by eexists.
  - rewrite bool_decide_eq_false_2 by (intros [?|[?|?]]; discriminate).
    rewrite !bool_decide_eq_false_2 by discriminate.
    rewrite bool_decide_eq_true_2 by done.
    unfold hgt. destruct (children T u) as [|c1 [|c2 [|? ?]]]; [by eexists..| |by eexists].
    destruct (attr_at transferred false T c1).
    + destruct (getitem _ u) as [m|e]; [|by eexists]. cbn [mbind Result_bind].
      destruct (counter_remove_empty (attr_at color (Single 0) T u) u
                  (set_marked <[c2:=m]> (initial_state T S_tree k))) as [e He]; [done|].
      cbv zeta. rewrite He. by eexists.
    + destruct (getitem _ u) as [m|e]; [|by eexists]. cbn [mbind Result_bind].
      destruct (counter_remove_empty (attr_at color (Single 0) T u) u
                  (set_marked <[c1:=m]> (initial_state T S_tree k))) as [e He]; [done|].
      cbv zeta. rewrite He. by eexists.
Qed.
End simulate_more.

Lemma _divergent_rates_first_node_raises_witness :
  ∃ e, _divergent_rates (H:=example_numpy) T_lost S_one (mkSampler default_rate_increase 1)
         default_CSN_weights (init_dist T_lost) 0 = Raise e.
Proof.
  apply (_divergent_rates_first_node_raises (H:=example_numpy) T_lost S_one
           (mkSampler default_rate_increase 1) default_CSN_weights (init_dist T_lost)
           0%nat [] []).
  - vm_compute. reflexivity.
  - vm_compute. reflexivity.
Defined.

(** *** The rates that [_divergent_rates] records *)

Section recorded_rates.
Context `{Numpy} (T S_tree : TreeNode) (sampler : Sampler) (CSN_weights : list Q).
Variable good : Q → Prop.
Hypothesis good_one : good 1%Q.
Hypothesis good_draw : ∀ j, good (draw sampler j).

Local Abbreviation all_good st :=
  (map_Forall (λ (_ : ref * ref) (h : list (Q * Q)), Forall (λ tr, good tr.2) h) (rates st)).

Lemma rates_append_good e t r st st' :
  rates_append e (t, r) st = Ok st' → all_good st → good r → all_good st'.
Proof.
  intros (h & Hh & ->)%rates_append_inv Hall Hr. simpl.
  apply map_Forall_insert_2; [|done]. apply Forall_app. split; [by eapply Hall|].
  by constructor.
Qed.

Lemma new_rate_good v st r st' :
  new_rate sampler v st = Ok (r, st') → all_good st → all_good st' ∧ good r.
Proof.
  intros (Hrs & _ & [->| ->])%new_rate_inv Hall; rewrite Hrs; done.
Qed.

Lemma counter_append_good c v st st' :
  counter_append c v st = Ok st' → all_good st → all_good st'.
Proof. by intros (l & _ & ->)%counter_append_inv. Qed.

Lemma counter_remove_good c v st st' :
  counter_remove c v st = Ok st' → all_good st → all_good st'.
Proof. by intros (l & l' & _ & _ & ->)%counter_remove_inv. Qed.

Lemma for_children_good (body : RateState → ref → Result RateState) vs :
  (∀ st v st', body st v = Ok st' → all_good st → all_good st') →
  ∀ st st', for_children body st vs = Ok st' → all_good st → all_good st'.
Proof.
  intros Hbody. induction vs as [|v vs IH]; intros st st'; simpl.
  - by intros [= <-].
  - intros (st1 & Hstep & Hrun)%bind_Ok Hall. eauto.
Qed.

Lemma process_node_good st u st' :
  process_node T S_tree sampler CSN_weights st u = Ok st' → all_good st → all_good st'.
Proof.
  unfold process_node. cbv zeta. intros Hrun Hall.
  case_bool_decide as HS; [|case_bool_decide as HD; [|case_bool_decide as HL;
    [|case_bool_decide as HH; [|by injection Hrun as <-]]]].
  - unfold speciation in Hrun. eapply for_children_good; [|done..].
    clear Hrun Hall. intros st0 v st0'. unfold speciation_child. cbv zeta.
    intros (m & _ & Hrun)%bind_Ok Hall.
    apply bind_Ok in Hrun as (key & _ & Hrun).
    apply bind_Ok in Hrun as (st1 & Hst1%counter_append_good & Hrun); [|done].
    apply bind_Ok in Hrun as ([r st2] & Hnr & Hrun).
    apply new_rate_good in Hnr as [Hall2 Hr]; [|done].
    by eapply rates_append_good.
  - unfold duplication in Hrun. cbv zeta in Hrun.
    apply bind_Ok in Hrun as (m & _ & Hrun).
    destruct (_duplication_type m CSN_weights (calls st)) as [[m0 m1] k].
    destruct (children T u) as [|c0 [|c1 cs]] eqn:Hcs; [done..|].
    apply bind_Ok in Hrun as (st1 & Hst1%counter_remove_good & Hrun); [|done].
    eapply for_children_good; [|done..].
    clear Hrun Hall Hst1. intros st0 v st0'. unfold duplication_child. cbv zeta.
    intros (st2 & Hst2 & Hrun)%bind_Ok Hall.
    apply counter_append_good in Hst2; [|done].
    apply bind_Ok in Hrun as ([r st3] & Hnr & Hrun).
    apply new_rate_good in Hnr as [Hall2 Hr]; [|done].
    by eapply rates_append_good.
  - unfold loss in Hrun. cbv zeta in Hrun.
    apply bind_Ok in Hrun as (st1 & Hst1%counter_remove_good & Hrun); [|done].
    apply bind_Ok in Hrun as (l & _ & Hrun).
    destruct l as [|v [|? ?]]; [by injection Hrun as <-| |by injection Hrun as <-].
    apply bind_Ok in Hrun as (m & _ & Hrun).
    destruct m; [by injection Hrun as <-|].
    destruct (parent v) as [p|]; [|done].
    by eapply rates_append_good.
  - unfold hgt in Hrun. cbv zeta in Hrun.
    destruct (children T u) as [|c1 [|c2 [|? ?]]]; try done.
    destruct (if attr_at transferred false T c1 then (c2, c1) else (c1, c2)) as [v1 v2].
    apply bind_Ok in Hrun as (m & _ & Hrun).
    apply bind_Ok in Hrun as (st1 & Hst1%counter_remove_good & Hrun); [|done].
    apply bind_Ok in Hrun as (st2 & Hst2%counter_append_good & Hrun); [|done].
    apply bind_Ok in Hrun as (st3 & Hst3 & Hrun).
    assert (all_good st3) as Hall3.
    { destruct (parent u) as [p|].
      - apply bind_Ok in Hst3 as (h1 & _ & Hst3).
        apply bind_Ok in Hst3 as (hu & Hhu%getitem_Ok & Hst3).
        destruct (last hu) as [tr|] eqn:Hlast; [|done].
        eapply rates_append_good; [done..|].
        apply last_elem in Hlast. specialize (Hst2 _ _ Hhu). simpl in Hst2.
        rewrite Forall_forall in Hst2. by apply Hst2.
      - apply bind_Ok in Hst3 as ([r st2'] & Hnr & Hst3).
        apply new_rate_good in Hnr as [Hall2 Hr]; [|done].
        by eapply rates_append_good. }
    apply bind_Ok in Hrun as (key & _ & Hrun).
    apply bind_Ok in Hrun as (st4 & Hst4%counter_append_good & Hrun); [|done].
    apply bind_Ok in Hrun as ([r st5] & Hnr & Hrun).
    apply new_rate_good in Hnr as [Hall5 Hr]; [|done].
    by eapply rates_append_good.
Qed.

Lemma process_nodes_good us : ∀ st st',
  process_nodes T S_tree sampler CSN_weights st us = Ok st' → all_good st → all_good st'.
Proof.
  induction us as [|u us IH]; intros st st'; simpl.
  - by intros [= <-].
  - intros (st1 & Hstep & Hrun)%bind_Ok Hall.
    apply process_node_good in Hstep; [|done]. eauto.
Qed.

Lemma initial_state_good k : all_good (initial_state T S_tree k).
Proof.
  intros e h Hh. unfold initial_state in Hh. simpl in Hh.
  apply elem_of_list_to_map_2 in Hh.
  by apply list_elem_of_fmap in Hh as (e' & [= _ ->] & _).
Qed.
End recorded_rates.

Section never_shortens.
Local Open Scope Q_scope.

Lemma descending_segment_sum_ge h t_end :
  descending h t_end = true → Forall (λ tr, 1 <= tr.2) h →
  first_time h t_end - t_end <= segment_sum h t_end.
Proof.
  induction h as [|[t r] h IH]; simpl; intros Hd Hall.
  - lra.
  - apply andb_true_iff in Hd as [[Hle _]%andb_true_iff Hd].
    apply Qle_bool_iff in Hle. apply Forall_cons in Hall as [Hr Hall]. simpl in Hr.
    specialize (IH Hd Hall).
    assert (t - first_time h t_end <= (t - first_time h t_end) * r) as Hseg.
    { assert (0 <= (t - first_time h t_end) * (r - 1)) as Hnn
        by (apply Qmult_le_0_compat; lra). lra. }
    lra.
Qed.

(** X11: when every draw of the rate sampler is at least 1, the rate
    asymmetry never shortens a branch of a well-formed dated gene tree: the
    dist that _divergent_rates writes to a child is at least
    parent.tstamp - child.tstamp. *)
Theorem _divergent_rates_never_shortens `{Numpy} T S_tree sampler CSN_weights d k d' k' :
  well_formed T S_tree = true →
  (∀ j, 1 <= draw sampler j) →
  _divergent_rates T S_tree sampler CSN_weights d k = Ok (d', k') →
  ∀ u v, (u, v) ∈ edges T →
    ∃ x, d' !! v = Some x ∧ attr_at tstamp 0 T u - attr_at tstamp 0 T v <= x.
Proof.
  intros Hwf Hdraw Hrun u v He. unfold _divergent_rates in Hrun.
  apply bind_Ok in Hrun as (st & Hst & [= <- _]).
  assert (∀ j, 0 < draw sampler j) as Hpos.
  { intros j. specialize (Hdraw j). lra. }
  destruct (process_nodes_histories T S_tree sampler CSN_weights Hwf Hpos k st Hst u v He)
    as (h & Hh & Hok).
  pose proof (process_nodes_good T S_tree sampler CSN_weights (λ r, 1 <= r)
                (Qle_refl 1) Hdraw _ _ _ Hst (initial_state_good T S_tree _ k) _ _ Hh) as Hge.
  simpl in Hge.
  exists (collapse h (attr_at tstamp 0 T v)). split; [by eapply _adjust_distances_lookup|].
  rewrite collapse_segment_sum. unfold history_ok in Hok.
  destruct h as [|[t r] h]; [done|]. apply andb_true_iff in Hok as [Ht Hd].
  apply Qeq_bool_iff in Ht. rewrite <- Ht.
  apply (descending_segment_sum_ge ((t, r) :: h) _ Hd Hge).
Qed.
End never_shortens.

Lemma _divergent_rates_never_shortens_witness :
  ∃ d' k',
    _divergent_rates (H:=example_numpy) T_loss S_one (mkSampler default_rate_increase 1)
      default_CSN_weights (init_dist T_loss) 0 = Ok (d', k') ∧
    ∀ u v, (u, v) ∈ edges T_loss →
      ∃ x, d' !! v = Some x ∧
           (attr_at tstamp 0 T_loss u - attr_at tstamp 0 T_loss v <= x)%Q.
Proof.
  eexists _, _. split; [vm_compute; reflexivity|].
  eapply (_divergent_rates_never_shortens (H:=example_numpy) T_loss S_one
            (mkSampler default_rate_increase 1) default_CSN_weights (init_dist T_loss) 0%nat).
  - vm_compute. reflexivity.
  - intros j. vm_compute. discriminate.
  - vm_compute. reflexivity.
Defined.

(** *** Trees without duplications and transfers *)

Section clock_like.
Context `{Numpy} (T S_tree : TreeNode) (sampler : Sampler) (CSN_weights : list Q).
Local Open Scope Q_scope.

Local Abbreviation ts := (attr_at tstamp 0 T).
Local Abbreviation ev := (attr_at event None T).

Lemma clock_inv_child k done u cd st v st' :
  clock_inv T k done u cd st → (u, v) ∈ edges T → v ∉ cd → u ∉ done →
  speciation_child T sampler u st v = Ok st' →
  clock_inv T k done u (cd ++ [v]) st'.
Proof.
  intros (Hk & Hm & Hr) He Hv Hu. unfold speciation_child. cbv zeta.
  intros (m & Hmu%getitem_Ok & Hrun)%bind_Ok.
  apply Hm in Hmu as ->.
  apply bind_Ok in Hrun as (key & _ & Hrun).
  apply bind_Ok in Hrun as (st1 & (l & _ & ->)%counter_append_inv & Hrun).
  rewrite new_rate_conserved in Hrun by apply lookup_insert_eq.
  cbn [mbind Result_bind] in Hrun.
  apply rates_append_inv in Hrun as (h & Hh & ->). simpl in Hh.
  rewrite (Hr u v He) in Hh.
  rewrite (bool_decide_eq_false_2 (u ∈ done)), (bool_decide_eq_false_2 (v ∈ cd)) in Hh by done.
  rewrite andb_false_r in Hh. simpl in Hh. injection Hh as <-.
  split_and!; simpl.
  - done.
  - intros w m [[-> <-]|[_ Hw]]%lookup_insert_Some; [done|by eapply Hm].
  - intros p w Hpw. destruct (decide ((p, w) = (u, v))) as [[= -> ->]|Hne].
    + rewrite lookup_insert_eq. rewrite (bool_decide_eq_true_2 (u = u)) by done.
      rewrite (bool_decide_eq_true_2 (v ∈ cd ++ [v])) by (apply elem_of_app; right; left).
      by rewrite orb_true_r.
    + rewrite lookup_insert_ne by done. rewrite (Hr p w Hpw).
      assert (bool_decide (p = u) && bool_decide (w ∈ cd) =
              bool_decide (p = u) && bool_decide (w ∈ cd ++ [v])) as ->; [|done].
      destruct (decide (p = u)) as [->|Hpu];
        [|by rewrite !(bool_decide_eq_false_2 (p = u)) by done].
      rewrite !(bool_decide_eq_true_2 (u = u)) by done. simpl.
      apply bool_decide_ext. rewrite elem_of_app, list_elem_of_singleton.
      split; [by left|]. intros [?|Heq]; [done|]. subst w. by destruct Hne.
Qed.

Lemma clock_inv_children k done u vs : ∀ cd st st',
  clock_inv T k done u cd st → u ∉ done → NoDup (cd ++ vs) →
  (∀ v, v ∈ vs → (u, v) ∈ edges T) →
  for_children (speciation_child T sampler u) st vs = Ok st' →
  clock_inv T k done u (cd ++ vs) st'.
Proof.
  induction vs as [|v vs IH]; intros cd st st' Hinv Hu Hnd Hvs; simpl.
  - intros [= <-]. by rewrite app_nil_r.
  - intros (st1 & Hstep & Hrun)%bind_Ok.
    change (cd ++ v :: vs) with (cd ++ [v] ++ vs) in *.
    rewrite (assoc_L (++)) in *. eapply IH; [|done|done| |done].
    + eapply clock_inv_child; [done| |  |done|done].
      * apply Hvs. left.
      * apply NoDup_app in Hnd as [Hnd _]. apply NoDup_app in Hnd as (_ & Hdis & _).
        intros Hin. apply (Hdis v Hin). left.
    + intros w Hw. apply Hvs. by right.
Qed.

Lemma clock_inv_next k done u cd st u' :
  clock_inv T k done u cd st →
  (∀ v, (u, v) ∈ edges T → is_speciation (ev u) = true → v ∈ cd) →
  (∀ v, v ∈ cd → is_speciation (ev u) = true) →
  clock_inv T k (done ++ [u]) u' [] st.
Proof.
  intros (Hk & Hm & Hr) Hall Hcd. split_and!; [done..|].
  intros p v Hpv. rewrite (Hr p v Hpv).
  rewrite (bool_decide_eq_false_2 (v ∈ [])) by apply not_elem_of_nil.
  rewrite andb_false_r, orb_false_r.
  assert (bool_decide (p ∈ done) && is_speciation (ev p)
          || bool_decide (p = u) && bool_decide (v ∈ cd) =
          bool_decide (p ∈ done ++ [u]) && is_speciation (ev p)) as ->; [|done].
  destruct (decide (p = u)) as [->|Hpu].
  - rewrite (bool_decide_eq_true_2 (u ∈ done ++ [u])) by (apply elem_of_app; right; left).
    rewrite (bool_decide_eq_true_2 (u = u)) by done. simpl.
    destruct (is_speciation (ev u)) eqn:Hsp.
    + rewrite (bool_decide_eq_true_2 (v ∈ cd)) by (by apply Hall). by rewrite orb_true_r.
    + rewrite (bool_decide_eq_false_2 (v ∈ cd)); [by rewrite andb_false_r|].
      intros Hv. apply Hcd in Hv. congruence.
  - rewrite (bool_decide_eq_false_2 (p = u)) by done. rewrite orb_false_r. f_equal.
    apply bool_decide_ext. rewrite elem_of_app, list_elem_of_singleton. tauto.
Qed.

Lemma clock_inv_node k done u st st' :
  clock_inv T k done u [] st → u ∉ done →
  ev u ≠ Some "D"%string → ev u ≠ Some "H"%string →
  process_node T S_tree sampler CSN_weights st u = Ok st' →
  ∃ cd, clock_inv T k done u cd st' ∧
        (∀ v, (u, v) ∈ edges T → is_speciation (ev u) = true → v ∈ cd) ∧
        (∀ v, v ∈ cd → is_speciation (ev u) = true).
Proof.
  intros Hinv Hu HD HH. unfold process_node. cbv zeta.
  change (bool_decide (ev u = Some "S"%string ∨ ev u = Some ""%string ∨ ev u = None))
    with (is_speciation (ev u)).
  destruct (is_speciation (ev u)) eqn:Hsp.
  - unfold speciation. intros Hrun. exists (children T u). split_and!.
    + apply (clock_inv_children k done u (children T u) [] st st'); try done.
      * apply children_NoDup.
      * intros v. by rewrite children_edges.
    + intros v Hv _. by apply children_edges.
    + done.
  - rewrite (bool_decide_eq_false_2 (ev u = Some "D"%string)) by done.
    assert (∀ st2, rates st2 = rates st → marked st2 = marked st → calls st2 = calls st →
                   ∃ cd, clock_inv T k done u cd st2 ∧
                         (∀ v, (u, v) ∈ edges T → false = true → v ∈ cd) ∧
                         (∀ v, v ∈ cd → false = true)) as Hsame.
    { intros st2 Hrs Hms Hcs. exists []. destruct Hinv as (Hk & Hm & Hr).
      split_and!; [split_and!| |].
      - congruence.
      - intros v m. rewrite Hms. apply Hm.
      - intros p v Hpv. rewrite Hrs. by apply Hr.
      - done.
      - by intros v ?%not_elem_of_nil. }
    case_bool_decide as HL.
    + unfold loss. cbv zeta.
      intros (st1 & (l & l' & _ & _ & ->)%counter_remove_inv & Hrun)%bind_Ok.
      apply bind_Ok in Hrun as (l1 & _ & Hrun).
      destruct l1 as [|v [|? ?]]; [injection Hrun as <-; by apply Hsame|
                                   |injection Hrun as <-; by apply Hsame].
      apply bind_Ok in Hrun as (m & Hmv%getitem_Ok & Hrun).
      destruct Hinv as (_ & Hm & _). simpl in Hmv. apply Hm in Hmv as ->.
      injection Hrun as <-. by apply Hsame.
    + rewrite (bool_decide_eq_false_2 (ev u = Some "H"%string)) by done.
      intros [= <-]. by apply Hsame.
Qed.

Lemma clock_inv_nodes k us : ∀ done st st',
  NoDup (done ++ us) →
  (∀ u, u ∈ us → ev u ≠ Some "D"%string ∧ ev u ≠ Some "H"%string) →
  (∀ u, clock_inv T k done u [] st) →
  process_nodes T S_tree sampler CSN_weights st us = Ok st' →
  ∀ u, clock_inv T k (done ++ us) u [] st'.
Proof.
  induction us as [|u us IH]; intros done st st' Hnd Hev Hinv; simpl.
  - intros [= <-]. by rewrite app_nil_r.
  - intros (st1 & Hstep & Hrun)%bind_Ok.
    change (done ++ u :: us) with (done ++ [u] ++ us) in *.
    rewrite (assoc_L (++)) in *.
    assert (u ∉ done) as Hu.
    { apply NoDup_app in Hnd as [Hnd _]. apply NoDup_app in Hnd as (_ & Hdis & _).
      intros Hin. apply (Hdis u Hin). left. }
    destruct (Hev u) as [HD HH]; [left|].
    destruct (clock_inv_node k done u st st1 (Hinv u) Hu HD HH Hstep) as (cd & Hcd & Hall & Hsp).
    eapply IH; [done| | |done].
    + intros w Hw. apply Hev. by right.
    + intros w. by eapply clock_inv_next.
Qed.

Lemma clock_inv_initial k u : clock_inv T k [] u [] (initial_state T S_tree k).
Proof.
  unfold clock_inv, initial_state. cbn [marked rates calls]. split_and!; [done| |].
  - intros v m Hv%elem_of_list_to_map_2.
    by apply list_elem_of_fmap in Hv as (w & [= _ ->] & _).
  - intros p v He.
    rewrite (bool_decide_eq_false_2 (p ∈ [])) by apply not_elem_of_nil.
    rewrite (bool_decide_eq_false_2 (v ∈ [])) by apply not_elem_of_nil.
    rewrite andb_false_r. simpl.
    destruct (list_to_map _ !! (p, v)) as [h|] eqn:Hh.
    + apply elem_of_list_to_map_2 in Hh.
      by apply list_elem_of_fmap in Hh as (e & [= _ ->] & _).
    + apply not_elem_of_list_to_map in Hh. destruct Hh.
      rewrite <- list_fmap_compose. apply list_elem_of_fmap. by exists (p, v).
Qed.

(** X12: on a gene tree without duplication and transfer nodes
    _divergent_rates makes no random draw, and the dist it writes to a child
    of a speciation node is parent.tstamp - child.tstamp: the tree stays
    clock-like.  The child of a node with any other event gets dist 0. *)
Theorem _divergent_rates_without_duplication d k d' k' :
  (∀ u, u ∈ preorder T → ev u ≠ Some "D"%string ∧ ev u ≠ Some "H"%string) →
  _divergent_rates T S_tree sampler CSN_weights d k = Ok (d', k') →
  k' = k ∧
  ∀ u v, (u, v) ∈ edges T →
    ∃ x, d' !! v = Some x ∧ x == if is_speciation (ev u) then ts u - ts v else 0.
Proof.
  intros Hev Hrun. unfold _divergent_rates in Hrun.
  apply bind_Ok in Hrun as (st & Hst & [= <- <-]).
  pose proof (clock_inv_nodes k (sorted_nodes T true) [] (initial_state T S_tree k) st
                (sorted_nodes_NoDup T)) as Hfin.
  simpl in Hfin. specialize (Hfin (λ u Hu, Hev u (proj1 (sorted_nodes_elem T u) Hu))
                               (clock_inv_initial k) Hst).
  destruct (Hfin []) as (Hk & _ & Hr). split; [done|].
  intros u v He. specialize (Hr u v He).
  rewrite (bool_decide_eq_true_2 (u ∈ sorted_nodes T true)) in Hr.
  2:{ apply sorted_nodes_elem. apply edges_elem in He as [Hv Hp].
      destruct (preorder_parent_before T v u Hv Hp) as (pre & post & -> & Hu).
      apply elem_of_app. by left. }
  rewrite (bool_decide_eq_false_2 (v ∈ [])) in Hr by apply not_elem_of_nil.
  rewrite andb_false_r, orb_false_r in Hr. simpl in Hr.
  eexists. split; [by eapply _adjust_distances_lookup|].
  rewrite collapse_segment_sum. destruct (is_speciation (ev u)); simpl; lra.
Qed.
End clock_like.

Lemma _divergent_rates_without_duplication_witness :
  ∃ d' k',
    _divergent_rates (H:=example_numpy) T_plain S_one (mkSampler default_rate_increase 1)
      default_CSN_weights (init_dist T_plain) 0 = Ok (d', k') ∧
    k' = 0%nat ∧
    ∀ u v, (u, v) ∈ edges T_plain →
      ∃ x, d' !! v = Some x ∧
           (x == if is_speciation (attr_at event None T_plain u)
                 then attr_at tstamp 0 T_plain u - attr_at tstamp 0 T_plain v else 0)%Q.
Proof.
  eexists _, _. split; [vm_compute; reflexivity|].
  eapply (_divergent_rates_without_duplication (H:=example_numpy) T_plain S_one
            (mkSampler default_rate_increase 1) default_CSN_weights (init_dist T_plain) 0%nat).
  - intros u Hu. vm_compute in Hu. apply list_elem_of_In in Hu. simpl in Hu.
    destruct Hu as [<-|[<-|[]]]; split; discriminate.
  - vm_compute. reflexivity.
Defined.

(** ** Sorting by time stamp *)

Section sorted_by_facts.
Context {A : Type} (precedes : A → A → bool) (le : A → A → Prop).
Hypothesis precedes_le : ∀ a b, precedes a b = true → le a b.
Hypothesis not_precedes_le : ∀ a b, precedes a b = false → le b a.
Hypothesis le_trans : ∀ a b c, le a b → le b c → le a c.

Lemma insert_sorted_split x l :
  ∃ l1 l2, insert_sorted precedes x l = l1 ++ x :: l2 ∧ l = l1 ++ l2 ∧
           Forall (λ y, precedes y x = true) l1 ∧
           match l2 with [] => True | z :: _ => precedes z x = false end.
Proof.
  induction l as [|y l IH]; simpl.
  - by exists [], [].
  - destruct (precedes y x) eqn:Hy.
    + destruct IH as (l1 & l2 & -> & -> & Hall & Hz).
      exists (y :: l1), l2. split_and!; [done..| |done]. by constructor.
    + exists [], (y :: l). split_and!; [done..| |done]. constructor.
Qed.

Lemma sorted_by_perm l : sorted_by precedes l ≡ₚ l.
Proof.
  induction l as [|x l IH]; [done|]. simpl.
  destruct (insert_sorted_split x (sorted_by precedes l)) as (l1 & l2 & -> & Heq & _).
  by rewrite <- Permutation_middle, <- Heq, IH.
Qed.

Lemma sorted_by_sorted l : StronglySorted le (sorted_by precedes l).
Proof.
  induction l as [|x l IH]; simpl; [constructor|].
  destruct (insert_sorted_split x (sorted_by precedes l)) as (l1 & l2 & -> & Heq & Hl1 & Hl2).
  rewrite Heq in IH. apply StronglySorted_app in IH as (Hcross & Hs1 & Hs2).
  apply StronglySorted_app. split_and!; [|done|].
  - intros y z Hy [->|Hz]%elem_of_cons.
    + rewrite Forall_forall in Hl1. by apply precedes_le, Hl1.
    + by apply Hcross.
  - apply StronglySorted_cons. split; [|done].
    destruct l2 as [|z l2]; [constructor|].
    apply not_precedes_le in Hl2.
    apply StronglySorted_cons in Hs2 as [Hz _]. constructor; [done|].
    eapply Forall_impl; [exact Hz|]. intros w Hw. simpl in Hw. by eapply le_trans.
Qed.

Lemma insert_sorted_keeps_order x l a b :
  (∃ pre post, l = pre ++ b :: post ∧ a ∈ pre) →
  ∃ pre post, insert_sorted precedes x l = pre ++ b :: post ∧ a ∈ pre.
Proof.
  intros (pre & post & -> & Ha).
  destruct (insert_sorted_split x (pre ++ b :: post)) as (l1 & l2 & -> & Heq & _).
  apply app_eq_inv in Heq as [(k & -> & ->)|(k & -> & Hk)].
  - exists (l1 ++ x :: k), post. split; [by rewrite <- (assoc_L (++))|].
    apply elem_of_app in Ha as [?|?]; apply elem_of_app; [by left|].
    right. by right.
  - destruct k as [|b' k]; simpl in Hk.
    + subst l2. rewrite (right_id_L [] (++)). exists (pre ++ [x]), post.
      split; [by rewrite <- (assoc_L (++))|]. apply elem_of_app. by left.
    + injection Hk as <- ->.
      exists pre, (k ++ x :: l2). split; [by rewrite <- (assoc_L (++))|done].
Qed.

(** Stability: two entries keep their order unless the later one must
    precede the earlier one. *)
Lemma sorted_by_stable l x y :
  (∃ pre post, l = pre ++ y :: post ∧ x ∈ pre) → precedes y x = false →
  ∃ pre post, sorted_by precedes l = pre ++ y :: post ∧ x ∈ pre.
Proof.
  intros (pre & post & -> & Hx) Hle.
  induction pre as [|a pre IH]; [by apply not_elem_of_nil in Hx|].
  simpl. apply elem_of_cons in Hx as [->|Hx].
  - destruct (insert_sorted_split a (sorted_by precedes (pre ++ y :: post)))
      as (l1 & l2 & -> & Heq & Hl1 & _).
    assert (y ∈ l1 ++ l2) as [Hy|Hy]%elem_of_app.
    { rewrite <- Heq, sorted_by_perm. apply elem_of_app. right. left. }
    + rewrite Forall_forall in Hl1. apply Hl1 in Hy. congruence.
    + apply list_elem_of_split in Hy as (m1 & m2 & ->).
      exists (l1 ++ a :: m1), m2. split; [by rewrite <- (assoc_L (++))|].
      apply elem_of_app. right. left.
  - by apply insert_sorted_keeps_order, IH.
Qed.
End sorted_by_facts.

Lemma sorted_insert_insert_sorted T precedes x l :
  sorted_insert precedes T x l =
  insert_sorted (λ a b, precedes (attr_at tstamp 0%Q T a) (attr_at tstamp 0%Q T b)) x l.
Proof. induction l as [|y l IH]; simpl; [done|]. by rewrite IH. Qed.

Lemma sorted_nodes_sorted_by T b :
  sorted_nodes T b =
  sorted_by (λ x y, (if b then (λ a b, Qlt_bool b a) else Qlt_bool)
                      (attr_at tstamp 0%Q T x) (attr_at tstamp 0%Q T y)) (preorder T).
Proof.
  unfold sorted_nodes, sorted_by. induction (preorder T) as [|x l IH]; [done|].
  simpl. by rewrite IH, sorted_insert_insert_sorted.
Qed.

Section sorted_nodes_order.
Variable T : TreeNode.
Local Open Scope Q_scope.
Local Abbreviation ts := (attr_at tstamp 0 T).

(** X13: sorted_nodes(tree) lists every node of the tree once, no node
    before an older one; nodes with equal tstamp, and more generally two
    nodes of which the second is not older than the first, keep the order
    they have in preorder. *)
Theorem sorted_nodes_oldest_first :
  sorted_nodes T true ≡ₚ preorder T ∧
  StronglySorted (λ x y, ts y <= ts x) (sorted_nodes T true) ∧
  ∀ x y, before (preorder T) x y → ts y <= ts x → before (sorted_nodes T true) x y.
Proof.
  rewrite sorted_nodes_sorted_by. split_and!.
  - apply sorted_by_perm.
  - apply sorted_by_sorted.
    + intros a b Hab%Qlt_bool_iff. lra.
    + intros a b Hab. apply Qnot_lt_le. intros Hlt%Qlt_bool_iff.
      change (Qlt_bool (ts b) (ts a) = false) in Hab. congruence.
    + intros a b c ? ?. lra.
  - intros x y Hxy Hle. apply sorted_by_stable; [done|].
    destruct (Qlt_bool (ts x) (ts y)) eqn:Hlt; [|done]. apply Qlt_bool_iff in Hlt. lra.
Qed.

(** X14: sorted_nodes(tree, oldest_to_youngest=False) lists every node of
    the tree once, no node before a younger one, and keeps the preorder of
    two nodes of which the second is not younger than the first; so it is
    the reverse of sorted_nodes(tree) only up to the order of nodes with
    equal tstamp. *)
Theorem sorted_nodes_youngest_first :
  sorted_nodes T false ≡ₚ preorder T ∧
  StronglySorted (λ x y, ts x <= ts y) (sorted_nodes T false) ∧
  ∀ x y, before (preorder T) x y → ts x <= ts y → before (sorted_nodes T false) x y.
Proof.
  rewrite sorted_nodes_sorted_by. split_and!.
  - apply sorted_by_perm.
  - apply sorted_by_sorted.
    + intros a b Hab%Qlt_bool_iff. lra.
    + intros a b Hab. apply Qnot_lt_le. intros Hlt%Qlt_bool_iff.
      change (Qlt_bool (ts a) (ts b) = false) in Hab. congruence.
    + intros a b c ? ?. lra.
  - intros x y Hxy Hle. apply sorted_by_stable; [done|].
    destruct (Qlt_bool (ts y) (ts x)) eqn:Hlt; [|done]. apply Qlt_bool_iff in Hlt. lra.
Qed.

Lemma pair_lt_iff a b :
  pair_lt a b = true ↔ a.1 < b.1 ∨ (a.1 == b.1 ∧ a.2 < b.2).
Proof.
  unfold pair_lt. rewrite orb_true_iff, andb_true_iff, !Qlt_bool_iff, Qeq_bool_iff. done.
Qed.

(** X15: sorted_edges(tree) lists every edge of the tree once, ordered by
    the tstamp of the parent, oldest first, and among parents of equal
    tstamp by the tstamp of the child, oldest first; edges with equal keys
    keep the order of tree.edges(). *)
Theorem sorted_edges_oldest_first :
  sorted_edges T ≡ₚ edges T ∧
  StronglySorted (λ e1 e2, ts e2.1 < ts e1.1 ∨ (ts e2.1 == ts e1.1 ∧ ts e2.2 <= ts e1.2))
    (sorted_edges T) ∧
  ∀ e1 e2, (∃ pre post, edges T = pre ++ e2 :: post ∧ e1 ∈ pre) →
    ts e1.1 == ts e2.1 → ts e1.2 == ts e2.2 →
    ∃ pre post, sorted_edges T = pre ++ e2 :: post ∧ e1 ∈ pre.
Proof.
  unfold sorted_edges. split_and!.
  - apply sorted_by_perm.
  - apply sorted_by_sorted.
    + intros a b [Hab|[Hab1 Hab2]]%pair_lt_iff; simpl in *; [by left|].
      right. split; [done|lra].
    + intros a b Hab.
      assert (¬ (ts b.1 < ts a.1 ∨ (ts b.1 == ts a.1 ∧ ts b.2 < ts a.2))) as Hno.
      { intros Hlt. apply (pair_lt_iff (edge_key T b) (edge_key T a)) in Hlt. congruence. }
      destruct (Qlt_le_dec (ts b.1) (ts a.1)) as [?|Hle]; [destruct Hno; by left|].
      destruct (Qlt_le_dec (ts a.1) (ts b.1)) as [?|Hle']; [by left|].
      right. split; [lra|].
      destruct (Qlt_le_dec (ts b.2) (ts a.2)) as [?|?]; [|done].
      destruct Hno. right. split; [lra|done].
    + intros a b c [?|[? ?]] [?|[? ?]]; [left; lra|left; lra|left; lra|].
      right. split; lra.
  - intros e1 e2 Hb H1 H2. apply sorted_by_stable; [done|].
    destruct (pair_lt _ _) eqn:Hlt; [|done].
    apply pair_lt_iff in Hlt. simpl in Hlt. lra.
Qed.
End sorted_nodes_order.

(** ** Distances and time stamps *)

Section timing.
Variable T : TreeNode.
Local Open Scope Q_scope.

Lemma distance_from_timing_loop tstamps es : ∀ d,
  NoDup es.*2 →
  ∀ v, foldl (λ d e, set_field d e.2 (abs (tstamps e.1 - tstamps e.2))) d es v =
       match list_find (λ e, e.2 = v) es with
       | Some (_, e) => abs (tstamps e.1 - tstamps e.2)
       | None => d v
       end.
Proof.
  induction es as [|e es IH]; intros d Hnd v; [done|].
  rewrite fmap_cons in Hnd. apply NoDup_cons in Hnd as [He Hnd].
  cbn [foldl]. rewrite IH by done. cbn [list_find].
  destruct (decide (e.2 = v)) as [<-|Hne].
  - destruct (list_find (λ e0, e0.2 = e.2) es) as [[i e']|] eqn:Hfind.
    + apply list_find_Some in Hfind as (Hi & Heq & _). destruct He.
      rewrite <- Heq. apply list_elem_of_fmap. exists e'. split; [done|].
      by eapply list_elem_of_lookup_2.
    + simpl. unfold set_field. by rewrite decide_True.
  - destruct (list_find (λ e0, e0.2 = v) es) as [[i e']|]; simpl; [done|].
    unfold set_field. by rewrite decide_False.
Qed.

Lemma distance_from_timing_values tstamps dists :
  distance_from_timing T tstamps dists [] = 0 ∧
  ∀ u v, (u, v) ∈ edges T →
    distance_from_timing T tstamps dists v = abs (tstamps u - tstamps v).
Proof.
  unfold distance_from_timing. split.
  - rewrite distance_from_timing_loop by apply edges_snd_NoDup.
    destruct (list_find _ _) as [[i [u v]]|] eqn:Hfind.
    + apply list_find_Some in Hfind as (Hi & Heq & _). simpl in Heq. subst v.
      apply list_elem_of_lookup_2, edges_elem in Hi as [_ ?]. done.
    + unfold set_field. by rewrite decide_True.
  - intros u v He. rewrite distance_from_timing_loop by apply edges_snd_NoDup.
    destruct (list_find _ _) as [[i [u' v']]|] eqn:Hfind.
    + apply list_find_Some in Hfind as (Hi & Heq & _). simpl in Heq. subst v'.
      apply list_elem_of_lookup_2 in Hi.
      assert (u' = u) as ->; [|done].
      apply edges_elem in Hi as [_ ?]. apply edges_elem in He as [_ ?]. congruence.
    + apply list_find_None in Hfind. rewrite Forall_forall in Hfind.
      by destruct (Hfind _ He).
Qed.

(** X16: distance_from_timing sets the dist of the root to 0 and the dist
    of every other node to |parent.tstamp - tstamp|: it is never negative,
    and it is 0 iff the node is as old as its parent. *)
Theorem distance_from_timing_spec tstamps dists :
  distance_from_timing T tstamps dists [] = 0 ∧
  ∀ u v, (u, v) ∈ edges T →
    distance_from_timing T tstamps dists v = abs (tstamps u - tstamps v) ∧
    0 <= distance_from_timing T tstamps dists v ∧
    (distance_from_timing T tstamps dists v == 0 ↔ tstamps u == tstamps v).
Proof.
  destruct (distance_from_timing_values tstamps dists) as [Hroot Hall].
  split; [done|]. intros u v He. rewrite (Hall u v He). unfold abs.
  destruct (Qlt_le_dec (tstamps u - tstamps v) 0);
    (split_and!; [done|lra|split; intros; lra]).
Qed.

Lemma distances_from_root_loop_spec dists vs : ∀ dd,
  NoDup vs →
  (∀ v p, v ∈ vs → parent v = Some p → ((p ∉ vs) ∧ is_Some (dd !! p)) ∨ before vs p v) →
  ∃ dd', distances_from_root_loop dists dd vs = Ok dd' ∧
    (∀ v, v ∉ vs → dd' !! v = dd !! v) ∧
    (∀ v, v ∈ vs → parent v = None → dd' !! v = Some 0) ∧
    (∀ v p, v ∈ vs → parent v = Some p →
       ∃ x, dd' !! p = Some x ∧ dd' !! v = Some (x + dists v)).
Proof.
  induction vs as [|v vs IH]; intros dd Hnd Hpar.
  { exists dd. split_and!; [done|done| |].
    - by intros v ?%not_elem_of_nil.
    - by intros v p ?%not_elem_of_nil. }
  apply NoDup_cons in Hnd as [Hv Hnd]. cbn [distances_from_root_loop].
  assert (∃ dd1, distances_from_root_step dists dd v = Ok dd1 ∧
            (∀ w, w ≠ v → dd1 !! w = dd !! w) ∧
            match parent v with
            | None => dd1 !! v = Some 0
            | Some p => ∃ x, dd !! p = Some x ∧ dd1 !! v = Some (x + dists v)
            end) as (dd1 & -> & Hother & Hself).
  { unfold distances_from_root_step. destruct (parent v) as [p|] eqn:Hp.
    - destruct (Hpar v p) as [[_ [x Hx]]|Hb]; [left|done| |by apply before_cons_head in Hb].
      rewrite (getitem_Some _ _ _ Hx). cbn [mbind Result_bind]. eexists. split; [done|].
      split; [intros w Hw; by rewrite lookup_insert_ne|].
      exists x. by rewrite lookup_insert_eq.
    - eexists. split; [done|]. split; [intros w Hw; by rewrite lookup_insert_ne|].
      by rewrite lookup_insert_eq. }
  cbn [mbind Result_bind].
  destruct (IH dd1 Hnd) as (dd' & Hrun & Hout & Hroot & Hedge).
  { intros w p Hw Hp. destruct (Hpar w p) as [[Hno Hsome]|Hb]; [by right|done| |].
    - left. split; [intros ?; apply Hno; by right|].
      rewrite Hother; [done|]. intros ->. apply Hno. left.
    - apply before_cons_tail in Hb as [->|Hb]; [|by right].
      left. split; [done|]. destruct (parent v); [destruct Hself as (x & _ & ->)|rewrite Hself];
        eauto. }
  exists dd'. split_and!; [done|..].
  - intros w Hw. rewrite Hout by (intros ?; apply Hw; by right).
    apply Hother. intros ->. apply Hw. left.
  - intros w [->|Hw]%elem_of_cons Hp; [|by apply Hroot].
    rewrite Hout by done. by rewrite Hp in Hself.
  - intros w p [->|Hw]%elem_of_cons Hp; [|by apply Hedge].
    rewrite Hp in Hself. destruct Hself as (x & Hx & Hself).
    assert (p ∉ v :: vs) as Hpno.
    { destruct (Hpar v p) as [[Hno _]|Hb]; [left|done|done|by apply before_cons_head in Hb]. }
    exists x. split.
    + rewrite Hout by (intros ?; apply Hpno; by right).
      rewrite Hother; [done|]. intros ->. apply Hpno. left.
    + by rewrite Hout.
Qed.

(** X17: distances_from_root never raises a KeyError: it returns a
    dictionary whose keys are the nodes of the tree, with 0.0 for the root
    and, for every other node, the entry of its parent plus the dist of the
    node. *)
Theorem distances_from_root_spec dists :
  ∃ dd, distances_from_root T dists = Ok dd ∧
    (∀ v, is_Some (dd !! v) ↔ v ∈ preorder T) ∧
    dd !! [] = Some 0 ∧
    ∀ u v, (u, v) ∈ edges T → ∃ x, dd !! u = Some x ∧ dd !! v = Some (x + dists v).
Proof.
  destruct (distances_from_root_loop_spec dists (preorder T) ∅ (preorder_NoDup T))
    as (dd & Hrun & Hout & Hroot & Hedge).
  { intros v p Hv Hp. right. by apply preorder_parent_before. }
  exists dd. split_and!; [done|..].
  - intros v. destruct (decide (v ∈ preorder T)) as [Hv|Hv].
    + split; [done|]. intros _. destruct (parent v) as [p|] eqn:Hp.
      * destruct (Hedge v p Hv Hp) as (x & _ & ->). eauto.
      * rewrite (Hroot v Hv Hp). eauto.
    + rewrite (Hout v Hv), lookup_empty. split; [by intros [? ?]|done].
  - apply Hroot; [|done]. destruct (preorder_root T) as [l ->]. left.
  - intros u v [Hv Hp]%edges_elem. by apply Hedge.
Qed.

Lemma reconstruct_timestamps_loop dists vs : ∀ ts,
  NoDup vs →
  (∀ v p, v ∈ vs → parent v = Some p → (p ∉ vs) ∨ before vs p v) →
  let ts' := foldl (λ ts v, match parent v with
                            | Some p => set_field ts v (ts p - dists v)
                            | None => ts
                            end) ts vs in
  (∀ v, v ∉ vs → ts' v = ts v) ∧
  (∀ v, v ∈ vs → parent v = None → ts' v = ts v) ∧
  (∀ v p, v ∈ vs → parent v = Some p → ts' v = ts' p - dists v).
Proof.
  induction vs as [|v vs IH]; intros ts Hnd Hpar.
  { split_and!; [done| |].
    - by intros v ?%not_elem_of_nil.
    - by intros v p ?%not_elem_of_nil. }
  apply NoDup_cons in Hnd as [Hv Hnd]. cbn [foldl].
  set (ts1 := match parent v with
              | Some p => set_field ts v (ts p - dists v)
              | None => ts
              end).
  assert (∀ w, w ≠ v → ts1 w = ts w) as Hother.
  { intros w Hw. unfold ts1. destruct (parent v); [|done].
    unfold set_field. by rewrite decide_False. }
  destruct (IH ts1 Hnd) as (Hout & Hroot & Hedge).
  { intros w p Hw Hp. destruct (Hpar w p) as [Hno|Hb]; [by right|done| |].
    - left. intros ?. apply Hno. by right.
    - apply before_cons_tail in Hb as [->|Hb]; [by left|by right]. }
  cbv zeta. split_and!.
  - intros w Hw. rewrite Hout by (intros ?; apply Hw; by right).
    apply Hother. intros ->. apply Hw. left.
  - intros w [->|Hw]%elem_of_cons Hp.
    + rewrite Hout by done. unfold ts1. by rewrite Hp.
    + rewrite Hroot by done. apply Hother. by intros ->.
  - intros w p [->|Hw]%elem_of_cons Hp; [|by apply Hedge].
    assert (p ∉ v :: vs) as Hpno.
    { destruct (Hpar v p) as [?|Hb]; [left|done|done|by apply before_cons_head in Hb]. }
    rewrite !Hout; [|intros ?; apply Hpno; by right|done].
    rewrite (Hother p) by (intros ->; apply Hpno; left).
    unfold ts1. rewrite Hp. unfold set_field. by rewrite decide_True.
Qed.

Lemma reconstruct_timestamps_rec dists tstamps :
  reconstruct_timestamps T dists tstamps [] = 1 ∧
  ∀ u v, (u, v) ∈ edges T →
    reconstruct_timestamps T dists tstamps v =
    reconstruct_timestamps T dists tstamps u - dists v.
Proof.
  unfold reconstruct_timestamps.
  destruct (reconstruct_timestamps_loop dists (preorder T) (set_field tstamps [] 1)
              (preorder_NoDup T)) as (_ & Hroot & Hedge).
  { intros v p Hv Hp. right. by apply preorder_parent_before. }
  split.
  - rewrite Hroot; [done| |done]. destruct (preorder_root T) as [l ->]. left.
  - intros u v [Hv Hp]%edges_elem. by apply Hedge.
Qed.

(** X18: reconstruct_timestamps gives the root the tstamp 1.0 and every
    other node the tstamp of its parent minus its dist; the tstamp of a node
    is 1.0 minus its entry in distances_from_root(tree). *)
Theorem reconstruct_timestamps_spec dists tstamps :
  reconstruct_timestamps T dists tstamps [] = 1 ∧
  (∀ u v, (u, v) ∈ edges T →
     reconstruct_timestamps T dists tstamps v =
     reconstruct_timestamps T dists tstamps u - dists v) ∧
  ∃ dd, distances_from_root T dists = Ok dd ∧
    ∀ v x, dd !! v = Some x → reconstruct_timestamps T dists tstamps v == 1 - x.
Proof.
  destruct (reconstruct_timestamps_rec dists tstamps) as [Hroot Hedge].
  split_and!; [done..|].
  destruct (distances_from_root_loop_spec dists (preorder T) ∅ (preorder_NoDup T))
    as (dd & Hrun & Hout & Hdroot & Hdedge).
  { intros v p Hv Hp. right. by apply preorder_parent_before. }
  exists dd. split; [done|].
  assert (∀ v, v ∈ preorder T → ∀ x, dd !! v = Some x →
            reconstruct_timestamps T dists tstamps v == 1 - x) as Hall.
  { induction v as [|i p IH]; intros Hv x Hx.
    - rewrite Hdroot in Hx by done. injection Hx as <-. rewrite Hroot. lra.
    - destruct (Hdedge (i :: p) p Hv eq_refl) as (y & Hy & Hx').
      rewrite Hx in Hx'. injection Hx' as ->.
      rewrite (Hedge p (i :: p)) by (by apply edges_elem).
      rewrite (IH (preorder_suffix_closed T p (i :: p) Hv (suffix_cons_r _ _ _ (reflexivity _))) y Hy).
      lra. }
  intros v x Hx. destruct (decide (v ∈ preorder T)) as [Hv|Hv]; [by apply Hall|].
  rewrite (Hout v Hv), lookup_empty in Hx. done.
Qed.

(** X19: after reconstruct_timestamps, distance_from_timing gives every
    node but the root the absolute value of the dist it had, so it restores
    the dist of a tree without negative dists; the dist of the root
    becomes 0. *)
Theorem distance_from_timing_after_reconstruct dists tstamps :
  let tstamps' := reconstruct_timestamps T dists tstamps in
  distance_from_timing T tstamps' dists [] = 0 ∧
  ∀ u v, (u, v) ∈ edges T →
    distance_from_timing T tstamps' dists v == abs (dists v) ∧
    (0 <= dists v → distance_from_timing T tstamps' dists v == dists v).
Proof.
  cbv zeta. destruct (reconstruct_timestamps_rec dists tstamps) as [_ Hedge].
  destruct (distance_from_timing_values (reconstruct_timestamps T dists tstamps) dists)
    as [Hroot Hall].
  split; [done|]. intros u v He. rewrite (Hall u v He), (Hedge u v He).
  unfold abs.
  destruct (Qlt_le_dec _ 0), (Qlt_le_dec (dists v) 0); split; intros; lra.
Qed.

(** X20: after distance_from_timing, reconstruct_timestamps gives back the
    tstamp of every node of a tree whose root has tstamp 1.0 and in which no
    node is older than its parent. *)
Theorem reconstruct_after_distance_from_timing tstamps dists tstamps0 :
  tstamps [] == 1 →
  (∀ u v, (u, v) ∈ edges T → tstamps v <= tstamps u) →
  ∀ v, v ∈ preorder T →
    reconstruct_timestamps T (distance_from_timing T tstamps dists) tstamps0 v == tstamps v.
Proof.
  intros Hroot Hmono.
  destruct (reconstruct_timestamps_rec (distance_from_timing T tstamps dists) tstamps0)
    as [Hr Hedge].
  induction v as [|i p IH]; intros Hv.
  - rewrite Hr. by symmetry.
  - assert ((p, i :: p) ∈ edges T) as He by (by apply edges_elem).
    rewrite (Hedge _ _ He).
    rewrite (IH (preorder_suffix_closed T p (i :: p) Hv (suffix_cons_r _ _ _ (reflexivity _)))).
    destruct (distance_from_timing_values tstamps dists) as [_ Hall].
    rewrite (Hall _ _ He).
    specialize (Hmono _ _ He). unfold abs.
    destruct (Qlt_le_dec _ 0); lra.
Qed.
End timing.

Lemma reconstruct_after_distance_from_timing_witness :
  (attr_at tstamp 0%Q T_plain [] == 1)%Q ∧
  ∀ v, v ∈ preorder T_plain →
    (reconstruct_timestamps T_plain
       (distance_from_timing T_plain (attr_at tstamp 0%Q T_plain) (attr_at dist 0%Q T_plain))
       (attr_at tstamp 0%Q T_plain) v == attr_at tstamp 0%Q T_plain v)%Q.
Proof.
  split; [reflexivity|].
  apply (reconstruct_after_distance_from_timing T_plain (attr_at tstamp 0%Q T_plain)
           (attr_at dist 0%Q T_plain) (attr_at tstamp 0%Q T_plain)).
  - reflexivity.
  - intros u v He. vm_compute in He. apply list_elem_of_In in He. simpl in He.
    destruct He as [[= <- <-]|[]]. vm_compute. discriminate.
Defined.

(** ** More about [random_colored_tree] *)

Section random_colored_tree_more.
Context `{Numpy}.

Lemma choose_Ok cs k :
  cs ≠ [] → (random_choice k (length cs) < length cs)%nat →
  ∃ c, choose (py_list cs) k = (Ok c, S k) ∧ c ∈ cs.
Proof.
  intros Hne Hlt. unfold choose. cbn [py_len py_getitem py_list].
  destruct (length cs) as [|m] eqn:Hlen; [by destruct cs|].
  destruct (lookup_lt_is_Some_2 cs (random_choice k (S m))) as [c Hc]; [by rewrite Hlen|].
  rewrite Hc. exists c. split; [done|]. by eapply list_elem_of_lookup_2.
Qed.

Lemma color_randomly_Ok cs leaves : ∀ reconc k,
  cs ≠ [] → (∀ j m, (0 < m)%nat → (random_choice j m < m)%nat) →
  ∃ reconc',
    color_randomly leaves (py_list cs) reconc k =
      (Ok (), (reconc', (k + length leaves)%nat)) ∧
    (∀ leaf, leaf ∉ leaves → reconc' !! leaf = reconc !! leaf) ∧
    (∀ leaf, leaf ∈ leaves → ∃ c, c ∈ cs ∧ reconc' !! leaf = Some c).
Proof.
  induction leaves as [|leaf leaves IH]; intros reconc k Hne Hch.
  { exists reconc. simpl. rewrite Nat.add_0_r. split_and!; [done..|].
    by intros l ?%not_elem_of_nil. }
  cbn [color_randomly].
  destruct (choose_Ok cs k Hne) as (c & -> & Hc).
  { apply Hch. destruct cs; [done|simpl; lia]. }
  destruct (IH (<[leaf := c]> reconc) (S k) Hne Hch) as (reconc' & -> & Hout & Hin).
  exists reconc'. split_and!.
  - cbn [length]. by rewrite Nat.add_succ_r.
  - intros l Hl. rewrite Hout by (intros ?; apply Hl; by right).
    rewrite lookup_insert_ne; [done|]. intros ->. apply Hl. left.
  - intros l [->|Hl]%elem_of_cons; [|by apply Hin].
    destruct (decide (leaf ∈ leaves)) as [Hl|Hl]; [by apply Hin|].
    exists c. split; [done|]. rewrite Hout by done. by rewrite lookup_insert_eq.
Qed.

Lemma color_randomly_empty leaf leaves reconc k :
  color_randomly (leaf :: leaves) (py_list []) reconc k = (Raise IndexError, (reconc, k)).
Proof. done. Qed.

Lemma color_forced_Ok leaves permutation cs indices : ∀ reconc k,
  cs ≠ [] → (∀ j m, (0 < m)%nat → (random_choice j m < m)%nat) →
  NoDup indices →
  (∀ i, i ∈ indices → ∃ p leaf, permutation !! i = Some p ∧ leaves !! p = Some leaf) →
  (∀ i j p, permutation !! i = Some p → permutation !! j = Some p → i = j) →
  NoDup leaves →
  ∃ reconc' k',
    color_forced leaves permutation (py_list cs) indices reconc k = (Ok (), (reconc', k')) ∧
    (∀ leaf, (∀ i p, i ∈ indices → permutation !! i = Some p → leaves !! p ≠ Some leaf) →
             reconc' !! leaf = reconc !! leaf) ∧
    (∀ i, i ∈ indices →
       ∃ p leaf c, permutation !! i = Some p ∧ leaves !! p = Some leaf ∧
                   reconc' !! leaf = Some c ∧ c ∈ cs ∧
                   ((i < length cs)%nat → cs !! i = Some c)).
Proof.
  induction indices as [|i indices IH]; intros reconc k Hne Hch Hnd Hdef Hinj Hleaves.
  { exists reconc, k. split_and!; [done..|]. by intros i ?%not_elem_of_nil. }
  apply NoDup_cons in Hnd as [Hi Hnd].
  destruct (Hdef i) as (p & leaf & Hp & Hleaf); [left|].
  cbn [color_forced]. change (py_len (py_list cs)) with (Ok (A:=nat) (length cs)). cbv iota.
  assert (∃ c k1, (if bool_decide (i < length cs)%nat then (py_getitem (py_list cs) i, k)
                   else choose (py_list cs) k) = (Ok c, k1) ∧
                  c ∈ cs ∧ ((i < length cs)%nat → cs !! i = Some c))
    as (c & k1 & -> & Hc & Hci).
  { case_bool_decide as Hlt.
    - destruct (lookup_lt_is_Some_2 cs i Hlt) as [c Hc].
      exists c, k. cbn [py_getitem py_list]. rewrite Hc. split_and!; [done| |done].
      by eapply list_elem_of_lookup_2.
    - destruct (choose_Ok cs k Hne) as (c & -> & Hc).
      { apply Hch. destruct cs; [done|simpl; lia]. }
      exists c, (S k). split_and!; [done..|]. intros ?. lia. }
  unfold set_reconc_at. rewrite Hp, Hleaf.
  destruct (IH (<[leaf := c]> reconc) k1 Hne Hch Hnd) as (reconc' & k' & -> & Hout & Hin);
    [|done..|].
  { intros j Hj. apply Hdef. by right. }
  exists reconc', k'. split_and!; [done|..].
  - intros l Hl. rewrite Hout.
    + rewrite lookup_insert_ne; [done|]. intros ->. eapply Hl; [left|done..].
    + intros j q Hj Hq. eapply Hl; [by right|done].
  - intros j [->|Hj]%elem_of_cons; [|by apply Hin].
    exists p, leaf, c. split_and!; [done..| |done|done].
    rewrite Hout; [by rewrite lookup_insert_eq|].
    intros j q Hj Hq Hlq.
    assert (q = p) as ->.
    { eapply NoDup_lookup; [exact Hleaves|done..]. }
    apply Hi. by rewrite (Hinj i j p Hp Hq).
Qed.

(** X21: with force_all_colors, at least one colour, no more colours than n
    and than leaves, a permutation from numpy and an index in range from
    random.choice, random_colored_tree returns; every leaf then has a
    reconc taken from colors, and every entry of colors is the reconc of
    some leaf. *)
Theorem random_colored_tree_uses_all_colors n colors cs binary k tree k1 :
  Tree_random_tree n binary k = (Ok tree, k1) →
  colors_list colors = Some cs → cs ≠ [] →
  (Z.of_nat (length cs) ≤ n)%Z →
  (length cs ≤ length (supply_leaves tree))%nat →
  np_random_permutation k1 (length (supply_leaves tree)) ≡ₚ
    seq 0 (length (supply_leaves tree)) →
  (∀ j m, (0 < m)%nat → (random_choice j m < m)%nat) →
  ∃ reconc k',
    random_colored_tree n colors binary true k = (Ok tree, (reconc, k')) ∧
    (∀ leaf, leaf ∈ supply_leaves tree → ∃ c, c ∈ cs ∧ reconc !! leaf = Some c) ∧
    (∀ c, c ∈ cs → ∃ leaf, leaf ∈ supply_leaves tree ∧ reconc !! leaf = Some c).
Proof.
  intros Htree Hcs Hne Hn Hlen Hperm Hch. unfold random_colored_tree.
  rewrite Htree, (to_iterable_colors_list _ _ Hcs). cbn [py_len py_list].
  rewrite bool_decide_eq_false_2 by lia. cbn [andb]. cbv zeta.
  set (leaves := supply_leaves tree) in *.
  set (perm := np_random_permutation k1 (length leaves)) in *.
  assert (NoDup perm) as Hpnd by (rewrite Hperm; apply NoDup_seq).
  assert (length perm = length leaves) as Hplen.
  { by rewrite Hperm, length_seq. }
  assert (∀ i p, perm !! i = Some p → (p < length leaves)%nat) as Hrange.
  { intros i p Hp. apply list_elem_of_lookup_2 in Hp. rewrite Hperm in Hp.
    apply elem_of_seq in Hp. lia. }
  destruct (color_forced_Ok leaves perm cs (seq 0 (length leaves)) ∅ (S k1) Hne Hch)
    as (reconc & k' & Hrun & Hout & Hin).
  { apply NoDup_seq. }
  { intros i Hi%elem_of_seq.
    destruct (lookup_lt_is_Some_2 perm i) as [p Hp]; [lia|].
    destruct (lookup_lt_is_Some_2 leaves p) as [leaf Hleaf]; [by eapply Hrange|]. eauto. }
  { intros i j p Hi Hj. by eapply NoDup_lookup. }
  { apply supply_leaves_NoDup. }
  change (color_forced leaves perm (mkIterable (Ok (length cs))
            (λ i, match cs !! i with Some c => Ok c | None => Raise IndexError end))
            (seq 0 (length leaves)) ∅ (S k1))
    with (color_forced leaves perm (py_list cs) (seq 0 (length leaves)) ∅ (S k1)).
  rewrite Hrun. exists reconc, k'. split_and!; [done|..].
  - intros leaf [p Hp]%list_elem_of_lookup.
    assert (p ∈ perm) as [i Hi]%list_elem_of_lookup.
    { rewrite Hperm. apply elem_of_seq. apply lookup_lt_Some in Hp. lia. }
    destruct (Hin i) as (p' & leaf' & c & Hp' & Hleaf' & Hc & Hccs & _).
    { apply elem_of_seq. apply lookup_lt_Some in Hi. lia. }
    assert (p' = p) as -> by congruence. assert (leaf' = leaf) as -> by congruence.
    eauto.
  - intros c [i Hi]%list_elem_of_lookup.
    destruct (Hin i) as (p & leaf & c' & Hp & Hleaf & Hc & _ & Hci).
    { apply elem_of_seq. apply lookup_lt_Some in Hi. lia. }
    rewrite Hci in Hi by (by eapply lookup_lt_Some). injection Hi as ->.
    exists leaf. split; [by eapply list_elem_of_lookup_2|done].
Qed.

(** X22: without force_all_colors every leaf gets a reconc from colors when
    there is a colour and random.choice picks an index in range, one random
    call per leaf; with no colour at all (colors = 0 or an empty list) the
    call raises the IndexError of random.choice as soon as the tree has a
    leaf, before any reconc is written. *)
Theorem random_colored_tree_random_colors n colors cs binary k tree k1 :
  Tree_random_tree n binary k = (Ok tree, k1) →
  colors_list colors = Some cs →
  (∀ j m, (0 < m)%nat → (random_choice j m < m)%nat) →
  (cs ≠ [] →
   ∃ reconc,
     random_colored_tree n colors binary false k =
       (Ok tree, (reconc, (k1 + length (supply_leaves tree))%nat)) ∧
     ∀ leaf, reconc !! leaf = None ∧ leaf ∉ supply_leaves tree ∨
             ∃ c, c ∈ cs ∧ reconc !! leaf = Some c ∧ leaf ∈ supply_leaves tree) ∧
  (cs = [] → supply_leaves tree ≠ [] →
   random_colored_tree n colors binary false k = (Raise IndexError, (∅, k1))).
Proof.
  intros Htree Hcs Hch. unfold random_colored_tree.
  rewrite Htree, (to_iterable_colors_list _ _ Hcs). cbn [py_len py_list].
  rewrite andb_false_r. cbv zeta. split.
  - intros Hne.
    destruct (color_randomly_Ok cs (supply_leaves tree) ∅ k1 Hne Hch)
      as (reconc & Hrun & Hout & Hin).
    change (color_randomly (supply_leaves tree) (mkIterable (Ok (length cs))
              (λ i, match cs !! i with Some c => Ok c | None => Raise IndexError end)) ∅ k1)
      with (color_randomly (supply_leaves tree) (py_list cs) ∅ k1).
    rewrite Hrun. exists reconc. split; [done|].
    intros leaf. destruct (decide (leaf ∈ supply_leaves tree)) as [Hl|Hl].
    + right. destruct (Hin leaf Hl) as (c & ? & ?). eauto.
    + left. by rewrite Hout.
  - intros -> Hleaves. destruct (supply_leaves tree) as [|leaf leaves]; [done|].
    done.
Qed.
End random_colored_tree_more.

Lemma random_colored_tree_uses_all_colors_witness :
  ∃ tree reconc k',
    random_colored_tree (H:=example_numpy) 2 (ColorsInt 2) false true 0 =
      (Ok tree, (reconc, k')) ∧
    (∀ leaf, leaf ∈ supply_leaves tree → ∃ c, c ∈ [1; 2]%Z ∧ reconc !! leaf = Some c) ∧
    (∀ c, c ∈ [1; 2]%Z → ∃ leaf, leaf ∈ supply_leaves tree ∧ reconc !! leaf = Some c).
Proof.
  eexists. 
  eapply (random_colored_tree_uses_all_colors (H:=example_numpy) 2 (ColorsInt 2) [1; 2]%Z
            false 0%nat).
  - vm_compute. reflexivity.
  - reflexivity.
  - discriminate.
  - vm_compute. discriminate.
  - vm_compute. lia.
  - vm_compute. reflexivity.
  - intros j m Hm. exact Hm.
Defined.

Lemma random_colored_tree_random_colors_witness :
  ∃ tree,
    (([1; 2]%Z ≠ [] →
      ∃ reconc,
        random_colored_tree (H:=example_numpy) 2 (ColorsInt 2) false false 0 =
          (Ok tree, (reconc, (1 + length (supply_leaves tree))%nat)) ∧
        ∀ leaf, reconc !! leaf = None ∧ leaf ∉ supply_leaves tree ∨
                ∃ c, c ∈ [1; 2]%Z ∧ reconc !! leaf = Some c ∧ leaf ∈ supply_leaves tree) ∧
     ([1; 2]%Z = [] → supply_leaves tree ≠ [] →
      random_colored_tree (H:=example_numpy) 2 (ColorsInt 2) false false 0 =
        (Raise IndexError, (∅, 1%nat)))).
Proof.
  eexists.
  eapply (random_colored_tree_random_colors (H:=example_numpy) 2 (ColorsInt 2) [1; 2]%Z
            false 0%nat).
  - vm_compute. reflexivity.
  - reflexivity.
  - intros j m Hm. exact Hm.
Defined.

(** ** The random ultrametric timing *)

Section random_ultrametric_timing_facts.
Context `{Numpy} (np_random_randint : nat → nat → nat).
Hypothesis uniform_range : ∀ j, (0 <= np_random_uniform j)%Q ∧ (np_random_uniform j < 1)%Q.
Hypothesis randint_range : ∀ j n, (0 < n)%nat → (np_random_randint j n < n)%nat.
Local Open Scope Q_scope.

Lemma random_walk_Ok t : ∀ len k,
  ∃ len' k', random_walk np_random_randint t len k = Ok (len', k') ∧
             (len <= len')%nat ∧ (children_of t ≠ [] → (len < len')%nat).
Proof.
  induction t as [a cs IH] using TreeNode_ind'. intros len k.
  destruct cs as [|c0 cs0] eqn:Hcs; [by exists len, k|].
  rewrite <- Hcs in *. 
  assert (∀ cs' i, (i < length cs')%nat → Forall (λ c, ∀ len k,
             ∃ len' k', random_walk np_random_randint c len k = Ok (len', k') ∧
                        (len <= len')%nat ∧ (children_of c ≠ [] → (len < len')%nat)) cs' →
           ∃ len' k',
             (fix pick (cs' : list TreeNode) (i : nat) : Result (nat * nat) :=
                match cs', i with
                | c :: _, O => random_walk np_random_randint c (S len) (S k)
                | _ :: cs'', S i' => pick cs'' i'
                | [], _ => Raise IndexError
                end) cs' i = Ok (len', k') ∧ (len < len')%nat) as Hpick.
  { induction cs' as [|c cs' IHc]; intros i Hi Hall; simpl in Hi; [lia|].
    apply Forall_cons in Hall as [Hc Hall]. destruct i as [|i].
    - destruct (Hc (S len) (S k)) as (len' & k' & Hrun & Hle & _).
      exists len', k'. split; [done|lia].
    - apply IHc; [lia|done]. }
  destruct (Hpick cs (np_random_randint k (length cs))) as (len' & k' & Hrun & Hlt).
  { apply randint_range. rewrite Hcs. simpl. lia. }
  { done. }
  exists len', k'. split_and!; [|lia|intros _; lia].
  rewrite Hcs in *. exact Hrun.
Qed.

Lemma timing_factor x (n : nat) :
  0 <= x → x < 1 → (1 <= n)%nat →
  0 < 1 - 2 * x / (inject_Z (Z.of_nat n) + 1) ∧
  1 - 2 * x / (inject_Z (Z.of_nat n) + 1) <= 1.
Proof.
  intros Hx0 Hx1 Hn.
  assert (1 <= inject_Z (Z.of_nat n)) as Hn'.
  { change 1 with (inject_Z 1). rewrite <- Zle_Qle. lia. }
  set (c := inject_Z (Z.of_nat n) + 1) in *.
  assert (0 < c) as Hc by (unfold c; lra).
  assert (2 * x / c < 1) as Hlt.
  { apply Qlt_shift_div_r; [done|]. unfold c. lra. }
  assert (0 <= 2 * x / c) as Hge.
  { apply Qle_shift_div_l; [done|]. lra. }
  lra.
Qed.

Lemma edge_parent_inner T u v : (u, v) ∈ edges T → is_leaf T u = false.
Proof.
  intros Hv%children_edges. unfold children, is_leaf in *.
  destruct (node_at T u) as [[a cs]|]; [|done].
  destruct cs; [|done]. by apply not_elem_of_nil in Hv.
Qed.

Lemma inner_has_children T v t :
  node_at T v = Some t → is_leaf T v = false → children_of t ≠ [].
Proof. unfold is_leaf. intros ->. by destruct t as [a [|c cs]]. Qed.

Lemma random_ultrametric_timing_loop_spec T vs : ∀ ts k,
  NoDup vs →
  (∀ v, v ∈ vs → v ∈ preorder T) →
  (∀ v p, v ∈ vs → parent v = Some p → (p ∉ vs) ∨ before vs p v) →
  ∃ ts' k',
    random_ultrametric_timing_loop np_random_randint T (ts, k) vs = Ok (ts', k') ∧
    (∀ v, v ∉ vs → ts' v = ts v) ∧
    (∀ v, v ∈ vs → is_leaf T v = true → ts' v = 0) ∧
    (∀ v, v ∈ vs → is_leaf T v = false → parent v = None → ts' v = 1) ∧
    (∀ v p, v ∈ vs → is_leaf T v = false → parent v = Some p →
       ∃ f, 0 < f ∧ f <= 1 ∧ ts' v = ts' p * f).
Proof.
  induction vs as [|v vs IH]; intros ts k Hnd Hin Hpar.
  { exists ts, k. split_and!; [done|done|..].
    - by intros v ?%not_elem_of_nil.
    - by intros v ?%not_elem_of_nil.
    - by intros v p ?%not_elem_of_nil. }
  apply NoDup_cons in Hnd as [Hv Hnd]. cbn [random_ultrametric_timing_loop].
  assert (∃ ts1 k1, random_ultrametric_timing_step np_random_randint T (ts, k) v = Ok (ts1, k1) ∧
            (∀ w, w ≠ v → ts1 w = ts w) ∧
            (is_leaf T v = true → ts1 v = 0) ∧
            (is_leaf T v = false → parent v = None → ts1 v = 1) ∧
            (∀ p, is_leaf T v = false → parent v = Some p →
               ∃ f, 0 < f ∧ f <= 1 ∧ ts1 v = ts p * f))
    as (ts1 & k1 & -> & Hother & Hleaf & Hroot & Hinner).
  { unfold random_ultrametric_timing_step. destruct (is_leaf T v) eqn:Hl.
    - eexists _, _. split; [done|]. unfold set_field. split_and!; try done.
      + intros w Hw. by rewrite decide_False.
      + intros _. by rewrite decide_True.
    - destruct (parent v) as [p|] eqn:Hp.
      + assert (is_Some (node_at T v)) as [t Ht] by (apply preorder_elem, Hin; left).
        rewrite Ht.
        destruct (random_walk_Ok t 0 k) as (len & k' & -> & _ & Hlen).
        specialize (Hlen (inner_has_children T v t Ht Hl)).
        cbn [mbind Result_bind]. eexists _, _. split; [done|].
        unfold set_field. split_and!; try done.
        * intros w Hw. by rewrite decide_False.
        * intros p' _ [= <-]. eexists. rewrite decide_True by done.
          destruct (uniform_range k') as [H0 H1].
          destruct (timing_factor (np_random_uniform k') len H0 H1) as [Hf0 Hf1]; [lia|].
          split_and!; [exact Hf0|exact Hf1|done].
      + eexists _, _. split; [done|]. unfold set_field. split_and!; try done.
        * intros w Hw. by rewrite decide_False.
        * intros _ _. by rewrite decide_True. }
  cbn [mbind Result_bind].
  destruct (IH ts1 k1 Hnd) as (ts' & k' & -> & Hout & Hl' & Hr' & Hi').
  { intros w Hw. apply Hin. by right. }
  { intros w p Hw Hp. destruct (Hpar w p) as [Hno|Hb]; [by right|done| |].
    - left. intros ?. apply Hno. by right.
    - apply before_cons_tail in Hb as [->|Hb]; [by left|by right]. }
  exists ts', k'. split_and!; [done|..].
  - intros w Hw. rewrite Hout by (intros ?; apply Hw; by right).
    apply Hother. intros ->. apply Hw. left.
  - intros w [->|Hw]%elem_of_cons Hl; [|by apply Hl'].
    rewrite Hout by done. by apply Hleaf.
  - intros w [->|Hw]%elem_of_cons Hl Hp; [|by apply Hr'].
    rewrite Hout by done. by apply Hroot.
  - intros w p [->|Hw]%elem_of_cons Hl Hp; [|by apply Hi'].
    assert (p ∉ v :: vs) as Hpno.
    { destruct (Hpar v p) as [?|Hb]; [left|done|done|by apply before_cons_head in Hb]. }
    destruct (Hinner p Hl Hp) as (f & Hf0 & Hf1 & Heq). exists f.
    split_and!; [done..|].
    rewrite !Hout; [|intros ?; apply Hpno; by right|done].
    rewrite (Hother p) by (intros ->; apply Hpno; left). done.
Qed.

(** X23: when numpy's uniform draws lie in [0, 1) and randint(n) in
    range(n), random_ultrametric_timing returns a timing in which every
    leaf has tstamp 0.0 (also a root without children), a root with
    children has tstamp 1.0, every other inner node has a positive tstamp
    and no node is older than its parent; with adjust_distances every
    dist is parent.tstamp - tstamp, and 0 at the root. *)
Theorem random_ultrametric_timing_spec T adjust_distances tstamps dists k :
  ∃ ts d k',
    random_ultrametric_timing np_random_randint T adjust_distances tstamps dists k =
      Ok (ts, d, k') ∧
    (∀ v, v ∈ preorder T → is_leaf T v = true → ts v = 0) ∧
    (is_leaf T [] = false → ts [] = 1) ∧
    (∀ u v, (u, v) ∈ edges T →
       0 < ts u ∧ 0 <= ts v ∧ ts v <= ts u ∧ (is_leaf T v = false → 0 < ts v)) ∧
    (adjust_distances = true →
       d [] = 0 ∧ ∀ u v, (u, v) ∈ edges T → d v == ts u - ts v) ∧
    (adjust_distances = false → d = dists).
Proof.
  unfold random_ultrametric_timing.
  destruct (random_ultrametric_timing_loop_spec T (preorder T) tstamps k (preorder_NoDup T))
    as (ts & k' & -> & _ & Hleaf & Hroot & Hinner); [done| |].
  { intros v p Hv Hp. right. by apply preorder_parent_before. }
  cbn [mbind Result_bind]. eexists _, _, _. split; [done|].
  assert (∀ v, v ∈ preorder T → is_leaf T v = false → 0 < ts v) as Hpos.
  { induction v as [|i p IH]; intros Hv Hl.
    - rewrite Hroot by done. reflexivity.
    - assert ((p, i :: p) ∈ edges T) as He by (by apply edges_elem).
      destruct (Hinner (i :: p) p Hv Hl eq_refl) as (f & Hf0 & _ & ->).
      apply Qmult_lt_0_compat; [|done]. apply IH.
      + eapply preorder_suffix_closed; [done|]. apply suffix_cons_r. done.
      + by eapply edge_parent_inner. }
  assert (∀ u v, (u, v) ∈ edges T →
            0 < ts u ∧ 0 <= ts v ∧ ts v <= ts u ∧ (is_leaf T v = false → 0 < ts v)) as Hedges.
  { intros u v He. pose proof He as [Hv Hp]%edges_elem.
    assert (0 < ts u) as Hu.
    { apply Hpos; [by eapply edge_parent_elem|by eapply edge_parent_inner]. }
    destruct (is_leaf T v) eqn:Hl.
    - rewrite (Hleaf v Hv Hl). split_and!; [done|lra|lra|done].
    - destruct (Hinner v u Hv Hl Hp) as (f & Hf0 & Hf1 & Heq).
      assert (0 < ts v) as Hv0 by (by apply Hpos).
      split_and!; [done|lra| |done]. rewrite Heq.
      assert (0 <= ts u * (1 - f)) by (apply Qmult_le_0_compat; lra). lra. }
  split_and!; [done| |done| |].
  - intros Hl. apply Hroot; [|done|done]. destruct (preorder_root T) as [l ->]. left.
  - intros ->. destruct (distance_from_timing_values T ts dists) as [Hd0 Hd].
    split; [done|]. intros u v He. rewrite (Hd u v He).
    destruct (Hedges u v He) as (_ & _ & Hle & _). unfold abs.
    destruct (Qlt_le_dec _ 0); lra.
  - by intros ->.
Qed.
End random_ultrametric_timing_facts.

Lemma random_ultrametric_timing_spec_witness :
  ∃ ts d k',
    random_ultrametric_timing (H:=example_numpy) (λ _ _, 0%nat) T_loss true
      (attr_at tstamp 0%Q T_loss) (attr_at dist 0%Q T_loss) 0 = Ok (ts, d, k') ∧
    (∀ v, v ∈ preorder T_loss → is_leaf T_loss v = true → ts v = 0%Q) ∧
    (is_leaf T_loss [] = false → ts [] = 1%Q) ∧
    (∀ u v, (u, v) ∈ edges T_loss →
       (0 < ts u)%Q ∧ (0 <= ts v)%Q ∧ (ts v <= ts u)%Q ∧
       (is_leaf T_loss v = false → (0 < ts v)%Q)) ∧
    (true = true →
       d [] = 0%Q ∧ ∀ u v, (u, v) ∈ edges T_loss → (d v == ts u - ts v)%Q) ∧
    (true = false → d = attr_at dist 0%Q T_loss).
Proof.
  apply (random_ultrametric_timing_spec (H:=example_numpy) (λ _ _, 0%nat)).
  - intros j. split; [discriminate|reflexivity].
  - intros j n Hn. exact Hn.
Defined.

(** ** Counting node types *)

Section count_node_types_facts.
Variable T : TreeNode.

Local Abbreviation count k vs := (length (filter (λ v, node_type T v = Some k) vs)).

Lemma count_node_types_step_spec counts v :
  (∀ k, k ∈ ["S"; "D"; "L"; "H"; "extant"]%string → is_Some (counts !! k)) →
  ∃ counts', count_node_types_step T counts v = Ok counts' ∧
    ∀ k, counts' !! k =
         if decide (node_type T v = Some k) then S <$> counts !! k else counts !! k.
Proof.
  intros Hkeys.
  assert (∀ key, key ∈ ["S"; "D"; "L"; "H"; "extant"]%string →
            ∃ counts', increment key counts = Ok counts' ∧
              ∀ k, counts' !! k = if decide (Some key = Some k) then S <$> counts !! k
                                  else counts !! k) as Hinc.
  { intros key Hkey. destruct (Hkeys key Hkey) as [x Hx]. unfold increment.
    rewrite (getitem_Some _ _ _ Hx). cbn [mbind Result_bind]. eexists. split; [done|].
    intros k. destruct (decide (Some key = Some k)) as [[= <-]|Hne].
    - by rewrite lookup_insert_eq, Hx.
    - rewrite lookup_insert_ne; [done|]. congruence. }
  unfold count_node_types_step, node_type. cbv zeta.
  destruct (is_leaf T v).
  - case_bool_decide; apply Hinc; rewrite !elem_of_cons; auto 10.
  - repeat case_bool_decide; try (apply Hinc; rewrite !elem_of_cons; auto 10).
    exists counts. split; [done|]. intros k. by rewrite decide_False.
Qed.

Lemma count_node_types_loop_spec vs : ∀ counts,
  (∀ k, k ∈ ["S"; "D"; "L"; "H"; "extant"]%string → is_Some (counts !! k)) →
  ∃ counts', count_node_types_loop T counts vs = Ok counts' ∧
    ∀ k, counts' !! k = (λ n, n + count k vs)%nat <$> counts !! k.
Proof.
  induction vs as [|v vs IH]; intros counts Hkeys; simpl.
  { exists counts. split; [done|]. intros k. destruct (counts !! k); simpl; [|done].
    f_equal. lia. }
  destruct (count_node_types_step_spec counts v Hkeys) as (c1 & -> & Hc1).
  cbn [mbind Result_bind].
  destruct (IH c1) as (c' & -> & Hc').
  { intros k Hk. rewrite Hc1. destruct (Hkeys k Hk) as [x ->]. by destruct (decide _). }
  exists c'. split; [done|]. intros k. rewrite Hc', Hc1.
  destruct (decide (node_type T v = Some k)) as [Heq|Hne].
  - rewrite filter_cons_True by done. destruct (counts !! k); simpl; [|done]. f_equal. lia.
  - by rewrite filter_cons_False.
Qed.

Lemma node_type_leaf v k :
  node_type T v = Some k →
  (is_leaf T v = true ∧ (k = "L" ∨ k = "extant")%string) ∨
  (is_leaf T v = false ∧ (k = "S" ∨ k = "D" ∨ k = "H")%string).
Proof.
  unfold node_type. cbv zeta. destruct (is_leaf T v).
  - case_bool_decide; intros [= <-]; left; split; auto.
  - repeat case_bool_decide; intros [= <-]; right; split; auto.
Qed.

Lemma leaf_node_type v :
  is_leaf T v = true → node_type T v = Some "L"%string ∨ node_type T v = Some "extant"%string.
Proof.
  unfold node_type. cbv zeta. intros ->. case_bool_decide; auto.
Qed.

Lemma count_leaves vs :
  (count "L"%string vs + count "extant"%string vs)%nat =
  length (filter (λ r, is_leaf T r = true) vs).
Proof.
  induction vs as [|v vs IH]; [done|]. rewrite !filter_cons.
  destruct (decide (is_leaf T v = true)) as [Hl|Hl].
  - destruct (leaf_node_type v Hl) as [Hk|Hk]; rewrite Hk.
    + rewrite decide_True by done. rewrite decide_False by done. simpl. lia.
    + rewrite decide_False by done. rewrite decide_True by done. simpl. lia.
  - rewrite !decide_False; [done|..]; intros [[? _]|[_ [?|[?|?]]]]%node_type_leaf; done.
Qed.

Lemma count_inner vs :
  (count "S"%string vs + count "D"%string vs + count "H"%string vs +
   length (filter (λ r, is_leaf T r = true) vs) ≤ length vs)%nat.
Proof.
  induction vs as [|v vs IH]; [done|]. rewrite !filter_cons.
  destruct (decide (is_leaf T v = true)) as [Hl|Hl].
  - rewrite !decide_False; [simpl; lia|..];
      intros [[_ [?|?]]|[? _]]%node_type_leaf; congruence.
  - destruct (node_type T v) as [k|]; [|rewrite !decide_False by done; simpl; lia].
    destruct (decide (Some k = Some "S"%string)) as [[= ->]|?].
    { rewrite !decide_False by done. simpl. lia. }
    destruct (decide (Some k = Some "D"%string)) as [[= ->]|?].
    { rewrite !decide_False by done. simpl. lia. }
    destruct (decide (Some k = Some "H"%string)) as [[= ->]|?]; simpl; lia.
Qed.

(** X24: count_node_types returns, without a KeyError, a dictionary with the
    five keys S, D, L, H and extant: L and extant count the leaves with and
    without the event 'L', so together all leaves; S, D and H count the
    nodes with children by their event, and a node with children and any
    other event is counted nowhere. *)
Theorem count_node_types_spec :
  ∃ counts, count_node_types T = Ok counts ∧
    (∀ k, counts !! k =
          if decide (k ∈ ["S"; "D"; "L"; "H"; "extant"]%string)
          then Some (count k (preorder T)) else None) ∧
    (∃ l e, counts !! "L"%string = Some l ∧ counts !! "extant"%string = Some e ∧
            (l + e)%nat = length (supply_leaves T)) ∧
    (∃ s d h, counts !! "S"%string = Some s ∧ counts !! "D"%string = Some d ∧
              counts !! "H"%string = Some h ∧
              (s + d + h + length (supply_leaves T) ≤ length (preorder T))%nat).
Proof.
  unfold count_node_types.
  set (c0 := list_to_map [("S", 0); ("D", 0); ("L", 0); ("H", 0); ("extant", 0)]%string%nat
             : gmap string nat).
  assert (∀ k, c0 !! k = if decide (k ∈ ["S"; "D"; "L"; "H"; "extant"]%string)
                         then Some 0%nat else None) as Hc0.
  { intros k. unfold c0. simpl.
    destruct (decide (k ∈ ["S"; "D"; "L"; "H"; "extant"]%string)) as [Hk|Hk].
    - rewrite !elem_of_cons, elem_of_nil in Hk.
      destruct Hk as [->|[->|[->|[->|[->|[]]]]]]; done.
    - rewrite !elem_of_cons, elem_of_nil in Hk.
      rewrite !lookup_insert_ne by (intros <-; apply Hk; auto 10). done. }
  destruct (count_node_types_loop_spec (preorder T) c0) as (counts & -> & Hc).
  { intros k Hk. rewrite Hc0, decide_True by done. eauto. }
  assert (∀ k, counts !! k =
               if decide (k ∈ ["S"; "D"; "L"; "H"; "extant"]%string)
               then Some (count k (preorder T)) else None) as Hall.
  { intros k. rewrite Hc, Hc0. by destruct (decide _). }
  exists counts. split_and!; [done|done|..].
  - exists (count "L"%string (preorder T)), (count "extant"%string (preorder T)).
    rewrite !Hall. split_and!; [done..|]. apply count_leaves.
  - exists (count "S"%string (preorder T)), (count "D"%string (preorder T)),
      (count "H"%string (preorder T)).
    rewrite !Hall. split_and!; [done..|]. apply count_inner.
Qed.
End count_node_types_facts.

(** ** phylo_tree_attributes *)

Section phylo_tree_attributes_facts.
Variable T : TreeNode.

Local Abbreviation attrs_of st v := (default (∅ : gmap string PyVal) (st !! v)).

Lemma phylo_inner_loop (st : AttrStore) v kvs :
  NoDup kvs.*1 →
  let st' := foldl (λ st kv, if hasattr st v kv.1 then st else setattr st [] kv.1 kv.2)
                   st kvs in
  (∀ w, w ≠ [] → st' !! w = st !! w) ∧
  ∀ key, attrs_of st' [] !! key =
         match list_find (λ kv, kv.1 = key) kvs with
         | Some (_, kv) => if hasattr st v key then attrs_of st [] !! key else Some kv.2
         | None => attrs_of st [] !! key
         end.
Proof.
  revert st. induction kvs as [|[k x] kvs IH]; intros st Hnd; [done|].
  rewrite fmap_cons in Hnd. apply NoDup_cons in Hnd as [Hk Hnd]. cbn [foldl fst snd].
  set (st1 := if hasattr st v k then st else setattr st [] k x).
  assert (∀ w, w ≠ [] → st1 !! w = st !! w) as Hother.
  { intros w Hw. unfold st1. destruct (hasattr st v k); [done|].
    unfold setattr. by rewrite lookup_insert_ne. }
  assert (∀ key, attrs_of st1 [] !! key =
            if decide (key = k) then (if hasattr st v k then attrs_of st [] !! key else Some x)
            else attrs_of st [] !! key) as Hroot.
  { intros key. unfold st1. destruct (hasattr st v k) eqn:Hh.
    - by destruct (decide (key = k)).
    - unfold setattr. rewrite lookup_insert_eq. simpl.
      destruct (decide (key = k)) as [->|Hne]; [by rewrite lookup_insert_eq|].
      by rewrite lookup_insert_ne. }
  assert (∀ key, key ≠ k → hasattr st1 v key = hasattr st v key) as Hhas.
  { intros key Hne. unfold hasattr. destruct (decide (v = [])) as [->|Hv].
    - by rewrite Hroot, decide_False.
    - by rewrite Hother. }
  destruct (IH st1 Hnd) as [Hout Hin]. cbv zeta. split.
  - intros w Hw. rewrite Hout by done. by apply Hother.
  - intros key. rewrite Hin. cbn [list_find fst].
    destruct (decide (k = key)) as [->|Hne].
    + destruct (list_find (λ kv, kv.1 = key) kvs) as [[i kv]|] eqn:Hfind.
      * apply list_find_Some in Hfind as (Hi & Heq & _). destruct Hk.
        rewrite <- Heq. apply list_elem_of_fmap. exists kv. split; [done|].
        by eapply list_elem_of_lookup_2.
      * simpl. by rewrite Hroot, decide_True.
    + destruct (list_find (λ kv, kv.1 = key) kvs) as [[i kv]|]; simpl.
      * rewrite Hhas by done. rewrite Hroot, decide_False by done. done.
      * by rewrite Hroot, decide_False.
Qed.

Lemma default_attributes_NoDup : NoDup default_attributes.*1.
Proof.
  apply (bool_decide_unpack (NoDup default_attributes.*1)). by vm_compute.
Qed.

Lemma phylo_outer_loop vs : ∀ (st : AttrStore),
  ([] : ref) ∉ vs →
  let st' := foldl (λ st v,
                 foldl (λ st kv, if hasattr st v kv.1 then st else setattr st [] kv.1 kv.2)
                       st default_attributes) st vs in
  (∀ w, w ≠ [] → st' !! w = st !! w) ∧
  ∀ key, attrs_of st' [] !! key =
         match list_find (λ kv, kv.1 = key) default_attributes with
         | Some (_, kv) =>
             if bool_decide (Exists (λ v, hasattr st v key = false) vs)
             then Some kv.2 else attrs_of st [] !! key
         | None => attrs_of st [] !! key
         end.
Proof.
  induction vs as [|v vs IH]; intros st Hroot.
  { cbv zeta. split; [done|]. intros key. destruct (list_find _ _) as [[i kv]|]; [|done].
    rewrite bool_decide_eq_false_2; [done|]. by intros ?%Exists_nil. }
  cbn [foldl].
  destruct (phylo_inner_loop st v default_attributes default_attributes_NoDup) as [Hout1 Hin1].
  set (st1 := foldl (λ st kv, if hasattr st v kv.1 then st else setattr st [] kv.1 kv.2)
                    st default_attributes) in *.
  destruct (IH st1) as [Hout Hin]; [intros ?; apply Hroot; by right|].
  assert (v ≠ []) as Hv by (intros ->; apply Hroot; left).
  cbv zeta. split.
  - intros w Hw. rewrite Hout by done. by apply Hout1.
  - intros key. rewrite Hin, Hin1.
    destruct (list_find (λ kv, kv.1 = key) default_attributes) as [[i kv]|]; [|done].
    assert (Exists (λ w, hasattr st1 w key = false) vs ↔
            Exists (λ w, hasattr st w key = false) vs) as Hsame.
    { assert (∀ w, w ∈ vs → hasattr st1 w key = hasattr st w key) as Heq.
      { intros w Hw. unfold hasattr. rewrite Hout1; [done|]. intros ->. apply Hroot. by right. }
      rewrite !Exists_exists. split; intros (w & Hw & Hf); exists w; (split; [done|]).
      - by rewrite <- Heq.
      - by rewrite Heq. }
    assert (bool_decide (Exists (λ w, hasattr st1 w key = false) vs) =
            bool_decide (Exists (λ w, hasattr st w key = false) vs)) as ->
      by (by apply bool_decide_ext).
    destruct (hasattr st v key) eqn:Hh.
    + destruct (bool_decide (Exists _ vs)) eqn:He.
      * apply bool_decide_eq_true in He. rewrite bool_decide_eq_true_2; [done|].
        by apply Exists_cons_tl.
      * apply bool_decide_eq_false in He. rewrite bool_decide_eq_false_2; [done|].
        intros [?|?]%Exists_cons; [congruence|done].
    + rewrite (bool_decide_eq_true_2 (Exists _ (v :: vs))) by (by apply Exists_cons_hd).
      by destruct (bool_decide _).
Qed.

(** X25: phylo_tree_attributes changes no node but the root, so a node that
    lacks one of the default attributes still lacks it afterwards; at the
    root, every default attribute that some node of the tree lacks is set
    to its default value, also when the root had a value of its own, and
    every other attribute of the root is kept. *)
Theorem phylo_tree_attributes_only_root (st : AttrStore) :
  let st' := phylo_tree_attributes T st in
  (∀ v, v ≠ [] → st' !! v = st !! v) ∧
  (∀ key value, (key, value) ∈ default_attributes →
     ((∃ v, v ∈ preorder T ∧ hasattr st v key = false) ∧
      attrs_of st' [] !! key = Some value) ∨
     ((∀ v, v ∈ preorder T → hasattr st v key = true) ∧
      attrs_of st' [] !! key = attrs_of st [] !! key)) ∧
  (∀ key, key ∉ default_attributes.*1 → attrs_of st' [] !! key = attrs_of st [] !! key).
Proof.
  unfold phylo_tree_attributes. destruct (preorder_root T) as [l Hl].
  pose proof (preorder_NoDup T) as Hnd. rewrite Hl in *.
  apply NoDup_cons in Hnd as [Hroot Hnd]. cbn [foldl].
  destruct (phylo_inner_loop st [] default_attributes default_attributes_NoDup) as [Hout1 Hin1].
  set (st1 := foldl (λ st kv, if hasattr st [] kv.1 then st else setattr st [] kv.1 kv.2)
                    st default_attributes) in *.
  destruct (phylo_outer_loop l st1 Hroot) as [Hout Hin]. cbv zeta.
  assert (∀ key, Exists (λ w, hasattr st1 w key = false) l ↔
                 Exists (λ w, hasattr st w key = false) l) as Hsame.
  { intros key.
    assert (∀ w, w ∈ l → hasattr st1 w key = hasattr st w key) as Heq.
    { intros w Hw. unfold hasattr. rewrite Hout1; [done|]. by intros ->. }
    rewrite !Exists_exists. split; intros (w & Hw & Hf); exists w; (split; [done|]).
    - by rewrite <- Heq.
    - by rewrite Heq. }
  split_and!.
  - intros v Hv. rewrite Hout by done. by apply Hout1.
  - intros key value Hkv. rewrite Hin, Hin1.
    assert (list_find (λ kv, kv.1 = key) default_attributes ≫= (λ p, Some p.2.2) = Some value)
      as Hfind.
    { destruct (list_find (λ kv, kv.1 = key) default_attributes) as [[i [k x]]|] eqn:Hfind.
      - apply list_find_Some in Hfind as (Hi & Heq & _). cbn [fst] in Heq. subst k.
        cbn [mbind option_bind snd]. f_equal.
        apply list_elem_of_lookup in Hkv as [j Hj].
        assert (i = j) as ->; [|congruence].
        eapply NoDup_lookup; [exact default_attributes_NoDup|..];
          rewrite list_lookup_fmap; [by rewrite Hi|by rewrite Hj].
      - apply list_find_None in Hfind. rewrite Forall_forall in Hfind.
        by destruct (Hfind _ Hkv). }
    destruct (list_find (λ kv, kv.1 = key) default_attributes) as [[i [k x]]|]; [|done].
    cbn [mbind option_bind snd] in Hfind. injection Hfind as ->. cbn [snd].
    assert (bool_decide (Exists (λ w, hasattr st1 w key = false) l) =
            bool_decide (Exists (λ w, hasattr st w key = false) l)) as ->
      by (by apply bool_decide_ext).
    destruct (bool_decide (Exists (λ w, hasattr st w key = false) l)) eqn:He.
    + left. split; [|done]. apply bool_decide_eq_true, Exists_exists in He as (w & Hw & Hf).
      exists w. split; [by right|done].
    + apply bool_decide_eq_false in He. destruct (hasattr st [] key) eqn:Hh.
      * right. split; [|done]. intros w [->|Hw]%elem_of_cons; [done|].
        destruct (hasattr st w key) eqn:Hf; [done|]. destruct He.
        apply Exists_exists. eauto.
      * left. split; [|done]. exists []. split; [left|done].
  - intros key Hkey. rewrite Hin, Hin1.
    destruct (list_find (λ kv, kv.1 = key) default_attributes) as [[i kv]|] eqn:Hfind; [|done].
    apply list_find_Some in Hfind as (Hi & Heq & _). destruct Hkey.
    rewrite <- Heq. apply list_elem_of_fmap. exists kv. split; [done|].
    by eapply list_elem_of_lookup_2.
Qed.
End phylo_tree_attributes_facts.


(** ** reconc_sorted_leaves *)

Section reconc_sorted_leaves_facts.
Context {R : Type} `{EqDecision R} (reconc : ref → R).

Local Abbreviation group ls := (λ key : R, (key, filter (λ l, reconc l = key) ls)).

Lemma reconc_dict_add_spec d x :
  (∃ d1 ll d2, d = d1 ++ (reconc x, ll) :: d2 ∧ (reconc x ∉ d1.*1) ∧
               reconc_dict_add reconc d x = d1 ++ (reconc x, ll ++ [x]) :: d2) ∨
  ((reconc x ∉ d.*1) ∧ reconc_dict_add reconc d x = d ++ [(reconc x, [x])]).
Proof.
  induction d as [|[key ll] d IH]; simpl.
  - right. split; [apply not_elem_of_nil|done].
  - destruct (decide (key = reconc x)) as [->|Hne].
    + left. exists [], ll, d. split_and!; [done|apply not_elem_of_nil|done].
    + destruct IH as [(d1 & ll' & d2 & -> & Hno & ->)|[Hno ->]].
      * left. exists ((key, ll) :: d1), ll', d2. split_and!; [done| |done].
        simpl. by intros [?|?]%elem_of_cons.
      * right. split; [|done]. by intros [?|?]%elem_of_cons.
Qed.

Lemma reconc_dict_loop ls : ∀ done keys,
  NoDup keys → (∀ key, key ∈ keys ↔ ∃ l, l ∈ done ∧ reconc l = key) →
  ∃ keys',
    foldl (reconc_dict_add reconc) (group done <$> keys) ls = group (done ++ ls) <$> keys' ∧
    NoDup keys' ∧ (∀ key, key ∈ keys' ↔ ∃ l, l ∈ done ++ ls ∧ reconc l = key).
Proof.
  induction ls as [|x ls IH]; intros done keys Hnd Hkeys.
  { exists keys. by rewrite app_nil_r. }
  cbn [foldl].
  assert (∃ keys1, reconc_dict_add reconc (group done <$> keys) x =
                   group (done ++ [x]) <$> keys1 ∧ NoDup keys1 ∧
                   ∀ key, key ∈ keys1 ↔ ∃ l, l ∈ done ++ [x] ∧ reconc l = key)
    as (keys1 & -> & Hnd1 & Hkeys1).
  { assert (∀ key, filter (λ l, reconc l = key) (done ++ [x]) =
                   filter (λ l, reconc l = key) done ++
                   (if decide (reconc x = key) then [x] else [])) as Hfilter.
    { intros key. rewrite filter_app. f_equal. }
    destruct (reconc_dict_add_spec (group done <$> keys) x)
      as [(d1 & ll & d2 & Heq & Hno & ->)|[Hno ->]].
    - apply fmap_app_inv in Heq as (k1 & k2' & -> & Hk2 & ->).
      destruct k2' as [|k k2]; [done|]. simpl in Hk2. injection Hk2 as <- -> ->.
      exists (k1 ++ reconc x :: k2). split_and!; [|done|].
      + rewrite !fmap_app, !fmap_cons. f_equal; [|f_equal].
        * apply list_fmap_ext. intros i key Hi. simpl. f_equal. rewrite Hfilter.
          rewrite decide_False; [by rewrite app_nil_r|]. intros <-.
          apply NoDup_app in Hnd as (_ & Hdis & _).
          eapply Hdis; [by eapply list_elem_of_lookup_2|left].
        * simpl. f_equal. rewrite Hfilter. by rewrite decide_True.
        * apply list_fmap_ext. intros i key Hi. simpl. f_equal. rewrite Hfilter.
          rewrite decide_False; [by rewrite app_nil_r|]. intros <-.
          apply NoDup_app in Hnd as (_ & _ & Hnd). apply NoDup_cons in Hnd as [Hnd _].
          apply Hnd. by eapply list_elem_of_lookup_2.
      + intros key. rewrite Hkeys. split.
        * intros (l & Hl & Hk). exists l. split; [apply elem_of_app; by left|done].
        * intros (l & [Hl| ->%list_elem_of_singleton]%elem_of_app & Hk); [eauto|].
          apply Hkeys. subst key. apply elem_of_app. right. left.
    - assert (reconc x ∉ keys) as Hx.
      { intros Hin. apply Hno. rewrite <- list_fmap_compose.
        apply list_elem_of_fmap. by exists (reconc x). }
      exists (keys ++ [reconc x]). split_and!.
      + rewrite fmap_app. f_equal.
        * apply list_fmap_ext. intros i key Hi. simpl. f_equal. rewrite Hfilter.
          rewrite decide_False; [by rewrite app_nil_r|]. intros <-.
          apply Hx. by eapply list_elem_of_lookup_2.
        * simpl. f_equal. f_equal. rewrite Hfilter, decide_True by done.
          assert (∀ done', (∀ l, l ∈ done' → reconc l ≠ reconc x) →
                    filter (λ l, reconc l = reconc x) done' = []) as Hnil.
          { induction done' as [|a done' IHd]; intros Hall; [done|].
            rewrite filter_cons_False by (apply Hall; left).
            apply IHd. intros l Hl. apply Hall. by right. }
          rewrite Hnil; [done|]. intros l Hl Heq. apply Hx, Hkeys. eauto.
      + apply NoDup_app. split_and!; [done| |apply NoDup_singleton].
        intros key Hk ->%list_elem_of_singleton. done.
      + intros key. rewrite elem_of_app, list_elem_of_singleton, Hkeys. split.
        * intros [(l & Hl & Hk)| ->].
          -- exists l. split; [apply elem_of_app; by left|done].
          -- exists x. split; [apply elem_of_app; right; left|done].
        * intros (l & [Hl| ->%list_elem_of_singleton]%elem_of_app & Hk); [left; eauto|].
          by right. }
  destruct (IH (done ++ [x]) keys1 Hnd1 Hkeys1) as (keys' & Hrun & Hnd' & Hkeys').
  exists keys'. rewrite <- (assoc_L (++)) in *. done.
Qed.

Lemma groups_perm (keys : list R) ls :
  NoDup keys → (∀ l, l ∈ ls → reconc l ∈ keys) →
  mjoin ((λ key, filter (λ l, reconc l = key) ls) <$> keys) ≡ₚ ls.
Proof.
  intros Hnd. induction ls as [|a ls IH]; intros Hall.
  { clear Hall Hnd. induction keys as [|k keys IHk]; [done|]. simpl. by rewrite IHk. }
  destruct (list_elem_of_split keys (reconc a)) as (k1 & k2 & Hkeys); [apply Hall; left|].
  assert (ls ≡ₚ mjoin ((λ key, filter (λ l, reconc l = key) ls) <$> keys)) as Hls.
  { symmetry. apply IH. intros l Hl. apply Hall. by right. }
  subst keys.
  apply NoDup_app in Hnd as (_ & Hdis & Hnd2).
  apply NoDup_cons in Hnd2 as [Hk2 _].
  assert (∀ ks : list R, reconc a ∉ ks →
            (λ key, filter (λ l, reconc l = key) (a :: ls)) <$> ks =
            (λ key, filter (λ l, reconc l = key) ls) <$> ks) as Hsame.
  { intros ks Hno. apply list_fmap_ext. intros i key Hi. simpl.
    rewrite filter_cons_False; [done|]. intros Heq. apply Hno. rewrite Heq.
    by eapply list_elem_of_lookup_2. }
  rewrite fmap_app, fmap_cons, join_app in Hls |- *. cbn [mjoin list_join] in Hls |- *.
  rewrite filter_cons_True by done.
  rewrite !Hsame; [|done|intros Hin; by eapply Hdis; [|left]].
  rewrite <- app_comm_cons, <- Permutation_middle. by apply perm_skip.
Qed.

(** X26: reconc_sorted_leaves(tree, return_list=True) returns a dictionary
    whose keys are the reconc values of the leaves, in the order of their
    first leaf, each with the list of all leaves of that reconc in the
    order of the tree; the list returned is these lists one after the
    other, so it holds every leaf once and the leaves of one reconc next to
    each other. *)
Theorem reconc_sorted_leaves_groups T :
  ∃ keys, NoDup keys ∧
    (∀ key, key ∈ keys ↔ ∃ l, l ∈ supply_leaves T ∧ reconc l = key) ∧
    (reconc_sorted_leaves reconc T).1 = group (supply_leaves T) <$> keys ∧
    (reconc_sorted_leaves reconc T).2 =
      mjoin ((λ key, filter (λ l, reconc l = key) (supply_leaves T)) <$> keys) ∧
    (reconc_sorted_leaves reconc T).2 ≡ₚ supply_leaves T.
Proof.
  destruct (reconc_dict_loop (supply_leaves T) [] [] (NoDup_nil_2 (A:=R))) as (keys & Hrun & Hnd & Hkeys).
  { intros key. split; [by intros ?%not_elem_of_nil|]. by intros (l & ?%not_elem_of_nil & _). }
  simpl in Hrun, Hkeys. exists keys. unfold reconc_sorted_leaves. cbn [fst snd].
  rewrite Hrun, <- list_fmap_compose.
  split_and!; [done..| |].
  - done.
  - apply groups_perm; [done|]. intros l Hl. apply Hkeys. eauto.
Qed.
End reconc_sorted_leaves_facts.
